(** * primesieve: the bucket sieve [EratBig]

    A shallow embedding of [src/soe/EratBig.cpp], the segmented sieve of
    Eratosthenes for big sieving primes.

    Memory is explicit: every [Bucket] object lives in a heap indexed by
    its address, [Bucket*] is an optional address ([None] is [NULL]), and
    an operation that would dereference [NULL], index a vector out of
    range or write past an array returns a fault instead of a state. *)

From Stdlib Require Import ZArith Lia String.
From stdpp Require Import base tactics option numbers relations countable gmultiset list.

(** ** Machine integers *)

(** [uint_t] is the 32-bit [unsigned int]; arithmetic wraps around. *)
Definition UINT_MODULUS : Z := (2 ^ 32)%Z.

Definition wrap (x : Z) : Z := (x mod UINT_MODULUS)%Z.

(** Modelled from the spec: [isPowerOf2] of imath.h (not among the
    sources), the test behind "sieveSize not a power of two is a
    configuration error", written as the usual bit trick. *)
Definition isPowerOf2 (x : Z) : bool :=
  negb (x =? 0)%Z && (Z.land x (wrap (x - 1)) =? 0)%Z.

(** Modelled from the spec: [ilog2] of imath.h (not among the sources),
    the spec's [L = log2(S)], rounded down. *)
Definition ilog2 (x : Z) : Z := Z.log2 x.

(** Modelled from the spec: [SieveOfEratosthenes::NUMBERS_PER_BYTE], one
    byte of the sieve array stands for 30 consecutive integers. *)
Definition NUMBERS_PER_BYTE : Z := 30%Z.

(** ** Faults and results *)

Inductive fault : Type :=
  | NullDeref        (* [p->...] with [p == NULL] *)
  | BadPointer       (* a pointer to no allocated bucket *)
  | BadIndex         (* [lists_[i]] with [i >= lists_.size()] *)
  | BucketOverflow   (* a write behind the last slot of a bucket *)
  | SieveOverflow    (* [sieve[i]] behind the end of the sieve array *)
  | BadAlloc         (* [new Bucket[0]] followed by [more[0]] *)
  | OutOfFuel.       (* the loop was cut off by the fuel of the model *)

Inductive result (A : Type) : Type :=
  | Ok (a : A)
  | Err (f : fault).
Arguments Ok {A} a.
Arguments Err {A} f.

Global Instance result_bind : MBind result := fun A B k r =>
  match r with
  | Ok a => k a
  | Err f => Err f
  end.

Global Instance result_ret : MRet result := fun A a => Ok a.

Definition from_option {A : Type} (f : fault) (o : option A) : result A :=
  match o with
  | Some a => Ok a
  | None => Err f
  end.

(** ** Sieving primes, buckets, wheel *)

(** An address of the heap of buckets, and [Bucket*]. *)
Abbreviation addr := nat (only parsing).
Abbreviation ptr := (option nat) (only parsing).

(** Modelled from the spec: [WheelPrime] (WheelFactorization.h is not
    among the sources), the triple (sievingPrime, multipleIndex,
    wheelIndex). *)
Record WheelPrime : Type := mkWheelPrime {
  getSievingPrime : Z;
  getMultipleIndex : Z;
  getWheelIndex : Z
}.

(** Modelled from the spec: [Bucket] (WheelFactorization.h is not among
    the sources), a fixed-capacity array of triples linked into a list.
    [wheelPrimes_] holds the slots from [begin()] to [end()]. *)
Record Bucket : Type := mkBucket {
  wheelPrimes_ : list WheelPrime;
  next_ : ptr
}.

Definition Bucket_empty (b : Bucket) : bool :=
  match wheelPrimes_ b with [] => true | _ => false end.

Definition Bucket_hasNext (b : Bucket) : bool :=
  match next_ b with Some _ => true | None => false end.

Definition Bucket_reset (b : Bucket) : Bucket := mkBucket [] (next_ b).

Definition Bucket_setNext (n : ptr) (b : Bucket) : Bucket :=
  mkBucket (wheelPrimes_ b) n.

(** Modelled from the spec: one entry of the wheel table: the bit to
    clear, the factor and the stride of the step to the next multiple,
    and the wheel index after the step. *)
Record WheelElement : Type := mkWheelElement {
  unsetBit_ : Z;
  nextMultipleFactor : Z;
  correct : Z;
  next : Z
}.

(** The sieve array behind [uint8_t* sieve]. *)
Abbreviation sieve_t := (list Z) (only parsing).

(** ** The object state *)

Record EratBig : Type := mkEratBig {
  heap : list Bucket;        (* every Bucket allocated so far, by address *)
  pointers_ : list addr;     (* the slabs, each by the address of its first bucket *)
  stock_ : ptr;
  lists_ : list ptr;
  log2SieveSize_ : Z;
  moduloSieveSize_ : Z
}.

Definition set_heap (h : list Bucket) (e : EratBig) : EratBig :=
  mkEratBig h (pointers_ e) (stock_ e) (lists_ e) (log2SieveSize_ e) (moduloSieveSize_ e).
Definition set_stock (s : ptr) (e : EratBig) : EratBig :=
  mkEratBig (heap e) (pointers_ e) s (lists_ e) (log2SieveSize_ e) (moduloSieveSize_ e).
Definition set_lists (l : list ptr) (e : EratBig) : EratBig :=
  mkEratBig (heap e) (pointers_ e) (stock_ e) l (log2SieveSize_ e) (moduloSieveSize_ e).
Definition set_pointers (p : list addr) (e : EratBig) : EratBig :=
  mkEratBig (heap e) p (stock_ e) (lists_ e) (log2SieveSize_ e) (moduloSieveSize_ e).

(** [*p] for a [Bucket* p]. *)
Definition deref (e : EratBig) (p : ptr) : result (addr * Bucket) :=
  a ← from_option NullDeref p;
  b ← from_option BadPointer (heap e !! a);
  Ok (a, b).

(** [lists_[i]] for a [uint_t i]. *)
Definition list_at (e : EratBig) (i : Z) : result ptr :=
  from_option BadIndex (lists_ e !! Z.to_nat i).

(** The driver's view of the sieve a constructor reads. *)
Record SieveOfEratosthenes : Type := mkSoe {
  getSieveSize : Z;
  getSqrtStop : Z
}.

(** ** The operations of EratBig.cpp *)

Section EratBig.

(** What the headers that are not among the sources fix: the wheel table
    [WHEEL] and [getMaxFactor()] of the modulo 210 wheel, the capacity
    [BUCKETSIZE] of a bucket and the slab size [BUCKETS_PER_ALLOC]. *)
Variable WHEEL : Z -> WheelElement.
Variable getMaxFactor : Z.
Variable BUCKETSIZE : nat.
Variable BUCKETS_PER_ALLOC : nat.

(** Modelled from the spec: [Bucket::store] (WheelFactorization.h is not
    among the sources). It writes the triple into the next free slot and
    answers whether the bucket still has room afterwards: its callers in
    EratBig.cpp push an empty bucket when the answer is [false] and do
    not store again. *)
Definition Bucket_store (t : WheelPrime) (b : Bucket) : result (bool * Bucket) :=
  if (length (wheelPrimes_ b) <? BUCKETSIZE)%nat
  then Ok (negb (S (length (wheelPrimes_ b)) =? BUCKETSIZE)%nat,
           mkBucket (wheelPrimes_ b ++ [t]) (next_ b))
  else Err BucketOverflow.

(** Modelled from the spec: [unsetBit] of WheelFactorization.h (not among
    the sources): "clear the bit at (multipleIndex, mask), then
    multipleIndex += sievingPrime * factor + stride, wheelIndex =
    nextWheelIndex". *)
Definition unsetBit (sieve : sieve_t) (sievingPrime multipleIndex wheelIndex : Z)
  : result (sieve_t * Z * Z) :=
  byte ← from_option SieveOverflow (sieve !! Z.to_nat multipleIndex);
  let w := WHEEL wheelIndex in
  let sieve' := <[Z.to_nat multipleIndex := Z.ldiff byte (unsetBit_ w)]> sieve in
  let m1 := wrap (multipleIndex + wrap (nextMultipleFactor w * sievingPrime)) in
  let m2 := wrap (m1 + correct w) in
  Ok (sieve', m2, next w).

(** EratBig.cpp:91-96, [new Bucket[BUCKETS_PER_ALLOC]] and the linking of
    the new buckets into a list that ends in [NULL]. *)
Definition new_slab (base : addr) : list Bucket :=
  fmap (fun i => mkBucket [] (if (S i <? BUCKETS_PER_ALLOC)%nat
                             then Some (base + S i)%nat else None))
      (seq 0 BUCKETS_PER_ALLOC).

Definition allocate (e : EratBig) : result EratBig :=
  match BUCKETS_PER_ALLOC with
  | O => Err BadAlloc
  | S _ =>
      let more := length (heap e) in
      Ok (mkEratBig (heap e ++ new_slab more) (pointers_ e ++ [more])
                    (Some more) (lists_ e) (log2SieveSize_ e) (moduloSieveSize_ e))
  end.

(** EratBig.cpp:89-102 *)
Definition pushBucket (segment : Z) (e : EratBig) : result EratBig :=
  e1 ← (match stock_ e with
        | None => allocate e
        | Some _ => Ok e
        end);
  '(bucket, b) ← deref e1 (stock_ e1);
  old ← list_at e1 segment;
  Ok (set_lists (<[Z.to_nat segment := Some bucket]> (lists_ e1))
       (set_heap (<[bucket := Bucket_setNext old b]> (heap e1))
         (set_stock (next_ b) e1))).

(** [if (!lists_[segment]->store(...)) pushBucket(segment);], the
    statement at EratBig.cpp:114-115, 183-184, 185-186 and 196-197. *)
Definition storeOrPush (segment : Z) (t : WheelPrime) (e : EratBig) : result EratBig :=
  p ← list_at e segment;
  '(a, b) ← deref e p;
  '(room, b') ← Bucket_store t b;
  let e' := set_heap (<[a := b']> (heap e)) e in
  if (room : bool) then Ok e' else pushBucket segment e'.

(** EratBig.cpp:107-116 *)
Definition storeSievingPrime (sievingPrime multipleIndex wheelIndex : Z) (e : EratBig)
  : result EratBig :=
  let segment := Z.shiftr multipleIndex (log2SieveSize_ e) in
  let multipleIndex := Z.land multipleIndex (moduloSieveSize_ e) in
  storeOrPush segment (mkWheelPrime sievingPrime multipleIndex wheelIndex) e.

(** EratBig.cpp:69-77 *)
Definition listsSize (log2SieveSize : Z) (soe : SieveOfEratosthenes) : Z :=
  let maxSievingPrime := (getSqrtStop soe / NUMBERS_PER_BYTE)%Z in
  let maxNextMultiple := wrap (wrap (maxSievingPrime * getMaxFactor) + getMaxFactor) in
  let maxMultipleIndex := wrap (wrap (getSieveSize soe - 1) + maxNextMultiple) in
  let maxSegmentCount := Z.shiftr maxMultipleIndex log2SieveSize in
  wrap (maxSegmentCount + 1).

Definition setListsSize (soe : SieveOfEratosthenes) (e : EratBig) : EratBig :=
  let size_ := Z.to_nat (listsSize (log2SieveSize_ e) soe) in
  set_lists (take size_ (lists_ e) ++ replicate (size_ - length (lists_ e)) None) e.

(** EratBig.cpp:79-83 *)
Fixpoint init_from (n : nat) (i : Z) (e : EratBig) : result EratBig :=
  match n with
  | O => Ok e
  | S n' => e' ← pushBucket i e; init_from n' (i + 1)%Z e'
  end.

Definition init (e : EratBig) : result EratBig :=
  init_from (length (lists_ e)) 0%Z e.

(** EratBig.cpp:50-61. A constructor either returns the object, or
    throws [std::invalid_argument] (kept with the members as they are at
    the throw), or faults. *)
Inductive constructed : Type :=
  | Constructed (e : EratBig)
  | InvalidArgument (what : string) (members : EratBig)
  | Faulted (f : fault).

Definition EratBig_new (soe : SieveOfEratosthenes) : constructed :=
  let e := mkEratBig [] [] None [] (ilog2 (getSieveSize soe))
                     (wrap (getSieveSize soe - 1)) in
  if negb (isPowerOf2 (getSieveSize soe))
  then InvalidArgument "EratBig: sieveSize must be a power of 2 (2^n)." e
  else match init (setListsSize soe e) with
       | Ok e' => Constructed e'
       | Err f => Faulted f
       end.

(** EratBig.cpp:63-67: the slabs handed to [delete[]], in order. *)
Definition EratBig_delete (e : EratBig) : list addr :=
  foldr (fun it freed => it :: freed) [] (pointers_ e).

(** EratBig.cpp:190-197 (and each half of 166-186): one sieving prime of
    the bucket is read, its multiple crossed off and the prime moved to
    the list of its next multiple. *)
Definition read_slot (e : EratBig) (bucket : addr) (i : nat) : result WheelPrime :=
  b ← from_option BadPointer (heap e !! bucket);
  from_option BucketOverflow (wheelPrimes_ b !! i).

Definition route (e : EratBig) (sievingPrime multipleIndex wheelIndex : Z) : result EratBig :=
  let segment := Z.shiftr multipleIndex (log2SieveSize_ e) in
  let multipleIndex := Z.land multipleIndex (moduloSieveSize_ e) in
  storeOrPush segment (mkWheelPrime sievingPrime multipleIndex wheelIndex) e.

Definition crossOff_one (bucket : addr) (i : nat) (s : EratBig * sieve_t)
  : result (EratBig * sieve_t) :=
  let '(e, sieve) := s in
  wPrime ← read_slot e bucket i;
  let multipleIndex := getMultipleIndex wPrime in
  let wheelIndex := getWheelIndex wPrime in
  let sievingPrime := getSievingPrime wPrime in
  '(sieve, multipleIndex, wheelIndex) ← unsetBit sieve sievingPrime multipleIndex wheelIndex;
  e ← route e sievingPrime multipleIndex wheelIndex;
  Ok (e, sieve).

(** EratBig.cpp:166-186: the body of the loop that takes two sieving
    primes at a time. *)
Definition crossOff_two (bucket : addr) (i : nat) (s : EratBig * sieve_t)
  : result (EratBig * sieve_t) :=
  let '(e, sieve) := s in
  wPrime0 ← read_slot e bucket i;
  wPrime1 ← read_slot e bucket (i + 1);
  let multipleIndex0 := getMultipleIndex wPrime0 in
  let wheelIndex0 := getWheelIndex wPrime0 in
  let sievingPrime0 := getSievingPrime wPrime0 in
  let multipleIndex1 := getMultipleIndex wPrime1 in
  let wheelIndex1 := getWheelIndex wPrime1 in
  let sievingPrime1 := getSievingPrime wPrime1 in
  '(sieve, multipleIndex0, wheelIndex0) ← unsetBit sieve sievingPrime0 multipleIndex0 wheelIndex0;
  '(sieve, multipleIndex1, wheelIndex1) ← unsetBit sieve sievingPrime1 multipleIndex1 wheelIndex1;
  let segment0 := Z.shiftr multipleIndex0 (log2SieveSize_ e) in
  let segment1 := Z.shiftr multipleIndex1 (log2SieveSize_ e) in
  let multipleIndex0 := Z.land multipleIndex0 (moduloSieveSize_ e) in
  let multipleIndex1 := Z.land multipleIndex1 (moduloSieveSize_ e) in
  e ← storeOrPush segment0 (mkWheelPrime sievingPrime0 multipleIndex0 wheelIndex0) e;
  e ← storeOrPush segment1 (mkWheelPrime sievingPrime1 multipleIndex1 wheelIndex1) e;
  Ok (e, sieve).

(** EratBig.cpp:165-187, [for (; wPrime + 2 <= end; wPrime += 2)]; [n]
    bounds the number of rounds and [end_ / 2] rounds are enough. *)
Fixpoint crossOff_pairs (n : nat) (bucket : addr) (i end_ : nat) (s : EratBig * sieve_t)
  : result (nat * (EratBig * sieve_t)) :=
  match n with
  | O => Ok (i, s)
  | S n' =>
      if (i + 2 <=? end_)%nat
      then s' ← crossOff_two bucket i s; crossOff_pairs n' bucket (i + 2) end_ s'
      else Ok (i, s)
  end.

(** EratBig.cpp:158-199 *)
Definition crossOff_bucket (bucket : addr) (s : EratBig * sieve_t)
  : result (EratBig * sieve_t) :=
  b ← from_option BadPointer (heap (fst s) !! bucket);
  let end_ := length (wheelPrimes_ b) in
  '(wPrime, s) ← crossOff_pairs (end_ / 2) bucket 0 end_ s;
  if (wPrime =? end_)%nat then Ok s else crossOff_one bucket wPrime s.

(** The loop the spec compares it with: one sieving prime at a time. *)
Fixpoint crossOff_singles (n : nat) (bucket : addr) (i : nat) (s : EratBig * sieve_t)
  : result (EratBig * sieve_t) :=
  match n with
  | O => Ok s
  | S n' => s' ← crossOff_one bucket i s; crossOff_singles n' bucket (i + 1) s'
  end.

Definition crossOff_bucket_naive (bucket : addr) (s : EratBig * sieve_t)
  : result (EratBig * sieve_t) :=
  b ← from_option BadPointer (heap (fst s) !! bucket);
  crossOff_singles (length (wheelPrimes_ b)) bucket 0 s.

(** EratBig.cpp:133-141, the [do ... while (bucket != NULL)] loop. *)
Fixpoint crossOff_chain (fuel : nat) (bucket : addr) (s : EratBig * sieve_t)
  : result (EratBig * sieve_t) :=
  match fuel with
  | O => Err OutOfFuel
  | S fuel' =>
      '(e, sieve) ← crossOff_bucket bucket s;
      '(old, b) ← deref e (Some bucket);
      let bucket' := next_ b in
      let e := set_heap (<[old := Bucket_setNext (stock_ e) (Bucket_reset b)]> (heap e)) e in
      let e := set_stock (Some old) e in
      match bucket' with
      | Some bucket' => crossOff_chain fuel' bucket' (e, sieve)
      | None => Ok (e, sieve)
      end
  end.

(** EratBig.cpp:129, the test of the [while] loop. *)
Definition list_pending (e : EratBig) : result bool :=
  list ← list_at e 0%Z;
  '(_, b) ← deref e list;
  Ok (Bucket_hasNext b || negb (Bucket_empty b)).

(** EratBig.cpp:130-141, the body of the [while] loop. *)
Definition crossOff_pass (fuel : nat) (s : EratBig * sieve_t)
  : result (EratBig * sieve_t) :=
  let '(e, sieve) := s in
  list ← list_at e 0%Z;
  '(bucket, _) ← deref e list;
  let e := set_lists (<[0%nat := None]> (lists_ e)) e in
  e ← pushBucket 0%Z e;
  crossOff_chain fuel bucket (e, sieve).

(** EratBig.cpp:129-142 *)
Fixpoint crossOff_drain (fuel : nat) (s : EratBig * sieve_t)
  : result (EratBig * sieve_t) :=
  match fuel with
  | O => Err OutOfFuel
  | S fuel' =>
      pending ← list_pending (fst s);
      if (pending : bool) then
        s' ← crossOff_pass fuel' s;
        crossOff_drain fuel' s'
      else Ok s
  end.

(** EratBig.cpp:146-148, [std::copy] of all but the first entry one
    place down, then [lists_.back() = tmp]. *)
Definition rotate (e : EratBig) : result EratBig :=
  tmp ← list_at e 0%Z;
  let copied := drop 1 (lists_ e) ++ drop (length (lists_ e) - 1) (lists_ e) in
  Ok (set_lists (<[(length copied - 1)%nat := tmp]> copied) e).

(** EratBig.cpp:122-149 *)
Definition crossOff (fuel : nat) (s : EratBig * sieve_t) : result (EratBig * sieve_t) :=
  '(e, sieve) ← crossOff_drain fuel s;
  e ← rotate e;
  Ok (e, sieve).

End EratBig.

(** ** The shape of a reachable state *)

Global Instance WheelPrime_eq_dec : EqDecision WheelPrime.
Proof. solve_decision. Defined.

Global Instance WheelPrime_countable : Countable WheelPrime :=
  inj_countable'
    (fun t => (getSievingPrime t, getMultipleIndex t, getWheelIndex t))
    (fun x => mkWheelPrime x.1.1 x.1.2 x.2)
    (fun t => match t with mkWheelPrime _ _ _ => eq_refl end).

(** [is_chain h p l]: following [next()] from [p] visits exactly the
    buckets [l] and then reaches [NULL]. *)
Fixpoint is_chain (h : list Bucket) (p : ptr) (l : list addr) : Prop :=
  match l with
  | [] => p = None
  | a :: l' =>
      p = Some a /\
      match h !! a with
      | Some b => is_chain h (next_ b) l'
      | None => False
      end
  end.

(** The sieving primes held by the bucket at an address. *)
Definition bucket_at (h : list Bucket) (a : addr) : list WheelPrime :=
  match h !! a with
  | Some b => wheelPrimes_ b
  | None => []
  end.

(** The sieving primes of a list of buckets, as a multiset. *)
Definition primes_of (h : list Bucket) (l : list addr) : gmultiset WheelPrime :=
  list_to_set_disj (mjoin (fmap (bucket_at h) l)).

Section Shape.

Variable BUCKETSIZE : nat.
Variable BUCKETS_PER_ALLOC : nat.

(** The pointer structure: [ls] names the buckets of each list of
    [lists_], [sk] those of the stock, [ex] buckets taken off a list and
    being processed; every bucket of the heap is in one of these places
    and in no two, and the buckets of the stock are empty. *)
Record wf_core (e : EratBig) (ls : list (list addr)) (sk ex : list addr) : Prop := {
  wf_lists : Forall2 (is_chain (heap e)) (lists_ e) ls;
  wf_stock : is_chain (heap e) (stock_ e) sk;
  wf_nodup : NoDup (mjoin ls ++ sk ++ ex);
  wf_stock_empty : Forall (fun a => bucket_at (heap e) a = []) sk;
  wf_detached : Forall (fun a => a < length (heap e)) ex;
  wf_all : forall a, a < length (heap e) -> a ∈ mjoin ls ++ sk ++ ex
}.

(** The first bucket of a list has a free slot; the buckets behind it
    hold sieving primes. *)
Definition head_has_room (h : list Bucket) (l : list addr) : Prop :=
  match l with
  | [] => False
  | a :: _ => length (bucket_at h a) < BUCKETSIZE
  end.

Definition tail_nonempty (h : list Bucket) (l : list addr) : Prop :=
  Forall (fun a => bucket_at h a <> []) (tail l).

Record wf (e : EratBig) (ls : list (list addr)) (sk ex : list addr) : Prop := {
  wf_wf_core : wf_core e ls sk ex;
  wf_room : Forall (head_has_room (heap e)) ls;
  wf_tails : Forall (tail_nonempty (heap e)) ls
}.

(** [grows e e']: from [e] to [e'] the heap only grew, by whole slabs,
    each recorded in [pointers_]; the size of [lists_] and the sieve
    size are the same. *)
Definition grows (e e' : EratBig) : Prop :=
  exists k : nat,
    length (heap e') = length (heap e) + k * BUCKETS_PER_ALLOC /\
    pointers_ e' = pointers_ e
                   ++ fmap (fun j => length (heap e) + j * BUCKETS_PER_ALLOC) (seq 0 k) /\
    length (lists_ e') = length (lists_ e) /\
    log2SieveSize_ e' = log2SieveSize_ e /\
    moduloSieveSize_ e' = moduloSieveSize_ e.

(** Every bucket of the heap belongs to a recorded slab: the slabs lie
    one behind the other and cover the heap. *)
Definition slabs_ok (e : EratBig) : Prop :=
  pointers_ e = fmap (fun j => j * BUCKETS_PER_ALLOC) (seq 0 (length (pointers_ e))) /\
  length (heap e) = length (pointers_ e) * BUCKETS_PER_ALLOC.

End Shape.

(** The sieving primes of every list, as multisets. *)
Definition primes_view (e : EratBig) (ls : list (list addr)) : list (gmultiset WheelPrime) :=
  fmap (primes_of (heap e)) ls.

(** ** The spec's account of crossing off, one sieving prime at a time

    "For each triple (p, m, w): apply one wheel step - clear the bit at
    (m, wheel.mask[w]), compute the new (m, w), then route to
    lists_[newM >> L] with newM & (S-1)". A state is the multiset of
    triples of every list and the sieve array; a step takes one triple
    out of list 0. *)
Section Worklist.

Variable WHEEL : Z -> WheelElement.
Variables L modS : Z.

(** The multiple index after the wheel step, before it is split into
    segment and offset. *)
Definition next_multiple (t : WheelPrime) : Z :=
  let w := WHEEL (getWheelIndex t) in
  wrap (wrap (getMultipleIndex t + wrap (nextMultipleFactor w * getSievingPrime t))
        + correct w).

(** The list the triple is routed to, and the triple as it is stored
    there. *)
Definition target (t : WheelPrime) : nat := Z.to_nat (Z.shiftr (next_multiple t) L).

Definition moved (t : WheelPrime) : WheelPrime :=
  mkWheelPrime (getSievingPrime t) (Z.land (next_multiple t) modS)
               (next (WHEEL (getWheelIndex t))).

Definition clear_bit (sieve : sieve_t) (t : WheelPrime) : sieve_t :=
  alter (fun byte => Z.ldiff byte (unsetBit_ (WHEEL (getWheelIndex t))))
        (Z.to_nat (getMultipleIndex t)) sieve.

(** One wheel step, on the lists without list 0's own triple. *)
Definition step_abs (s : list (gmultiset WheelPrime) * sieve_t) (t : WheelPrime)
  : list (gmultiset WheelPrime) * sieve_t :=
  (alter (fun X => {[+ moved t +]} ⊎ X) (target t) s.1, clear_bit s.2 t).

(** The step neither leaves the sieve array nor the horizon of
    [lists_]. *)
Definition safe (nlists nsieve : nat) (t : WheelPrime) : Prop :=
  Z.to_nat (getMultipleIndex t) < nsieve /\ target t < nlists.

Inductive wheel_step
  : list (gmultiset WheelPrime) * sieve_t -> list (gmultiset WheelPrime) * sieve_t -> Prop :=
  | wheel_step_intro A sieve X0 t sieve' m' w' :
      A !! 0 = Some X0 ->
      t ∈ X0 ->
      unsetBit WHEEL sieve (getSievingPrime t) (getMultipleIndex t) (getWheelIndex t)
        = Ok (sieve', m', w') ->
      Z.to_nat (Z.shiftr m' L) < length A ->
      wheel_step (A, sieve)
        (alter (fun X => {[+ mkWheelPrime (getSievingPrime t) (Z.land m' modS) w' +]} ⊎ X)
               (Z.to_nat (Z.shiftr m' L))
               (alter (fun X => X ∖ {[+ t +]}) 0 A),
         sieve').

End Worklist.


(** Two runs agree: both return the same value, or both fault. *)
Definition same_outcome {A : Type} (r1 r2 : result A) : Prop :=
  match r1, r2 with
  | Ok a1, Ok a2 => a1 = a2
  | Err _, Err _ => True
  | _, _ => False
  end.

(** ** Sizes *)

(** What is known of the wheel table: the factor of a step is positive
    and, like its stride, at most [getMaxFactor()]; the wheel indices
    stay below the size of the table. *)
Definition wheel_ok (WHEEL : Z -> WheelElement) (wheel_size maxFactor : Z) : Prop :=
  forall w : Z, (0 <= w < wheel_size)%Z ->
    (1 <= nextMultipleFactor (WHEEL w) <= maxFactor)%Z /\
    (0 <= correct (WHEEL w) <= maxFactor)%Z /\
    (0 <= next (WHEEL w) < wheel_size)%Z.

(** A sieving prime as EratBig holds it: at least 1 and at most
    [maxSievingPrime] (a prime divided by 30), an offset inside the
    segment and an index into the wheel. *)
Definition prime_ok (wheel_size maxSievingPrime modS : Z) (t : WheelPrime) : Prop :=
  (1 <= getSievingPrime t <= maxSievingPrime)%Z /\
  (0 <= getMultipleIndex t <= modS)%Z /\
  (0 <= getWheelIndex t < wheel_size)%Z.

Definition all_ok (wheel_size maxSievingPrime modS : Z) (V : list (gmultiset WheelPrime)) : Prop :=
  forall (j : nat) (X : gmultiset WheelPrime) (t : WheelPrime),
    V !! j = Some X -> t ∈ X -> prime_ok wheel_size maxSievingPrime modS t.

(** The sizes fit: the sieve size is [2^L], the sieve array has that
    many bytes, the largest multiple index does not wrap around and its
    segment is inside [lists_]. *)
Record sized (maxFactor maxSievingPrime : Z) (e : EratBig) (nsieve : nat) : Prop := {
  sized_factor : (0 <= maxFactor)%Z;
  sized_prime : (0 <= maxSievingPrime)%Z;
  sized_log : (0 <= log2SieveSize_ e)%Z;
  sized_mod : moduloSieveSize_ e = (2 ^ log2SieveSize_ e - 1)%Z;
  sized_sieve : (2 ^ log2SieveSize_ e <= Z.of_nat nsieve)%Z;
  sized_fits :
    (moduloSieveSize_ e + maxSievingPrime * maxFactor + maxFactor < UINT_MODULUS)%Z;
  sized_horizon :
    (Z.shiftr (moduloSieveSize_ e + maxSievingPrime * maxFactor + maxFactor)
              (log2SieveSize_ e) < Z.of_nat (length (lists_ e)))%Z
}.

(** The sieving primes are as they should be, and those of the current
    segment lie at or behind offset [k]. *)
Definition ahead (wheel_size maxSievingPrime modS k : Z) (V : list (gmultiset WheelPrime))
  : Prop :=
  all_ok wheel_size maxSievingPrime modS V /\
  forall X t, V !! 0 = Some X -> t ∈ X -> (k <= getMultipleIndex t)%Z.

(** [ceil (a / b)] for a positive [b]. *)
Definition ceil_div (a b : Z) : Z :=
  if (a mod b =? 0)%Z then (a / b)%Z else (a / b + 1)%Z.

(** A power of two. *)
Definition is_pow2 (x : Z) : Prop := exists k : Z, (0 <= k)%Z /\ x = (2 ^ k)%Z.

(** ** Faults of the memory, and the states an object goes through *)

Definition memory_fault (f : fault) : bool :=
  match f with
  | NullDeref | BadPointer | BucketOverflow | BadAlloc => true
  | BadIndex | SieveOverflow | OutOfFuel => false
  end.

(** A run that dereferences no null or dangling pointer and writes
    behind no bucket. *)
Definition pointer_safe {A : Type} (r : result A) : Prop :=
  match r with
  | Ok _ => True
  | Err f => memory_fault f = false
  end.

Section Reachable.

Variable WHEEL : Z -> WheelElement.
Variable getMaxFactor : Z.
Variable BUCKETSIZE : nat.
Variable BUCKETS_PER_ALLOC : nat.

(** The states of an EratBig object: as constructed, and after every
    call of [storeSievingPrime] or [crossOff] that returned. *)
Inductive reachable : EratBig -> Prop :=
  | reachable_new soe e :
      EratBig_new getMaxFactor BUCKETS_PER_ALLOC soe = Constructed e ->
      reachable e
  | reachable_store e sievingPrime multipleIndex wheelIndex e' :
      reachable e ->
      storeSievingPrime BUCKETSIZE BUCKETS_PER_ALLOC sievingPrime multipleIndex wheelIndex e
        = Ok e' ->
      reachable e'
  | reachable_crossOff e fuel sieve e' sieve' :
      reachable e ->
      crossOff WHEEL BUCKETSIZE BUCKETS_PER_ALLOC fuel (e, sieve) = Ok (e', sieve') ->
      reachable e'.

(** The states of an object in the hands of the sieve driver: the
    sieve size is [2^k] and the sizes fit [uint_t]; the sieving primes
    stored are at least 1 and at most [sqrtStop / 30] with a wheel index
    of the table; the sieve array has [sieveSize] bytes. *)
Variable wheel_size : Z.
Variable soe : SieveOfEratosthenes.

Inductive sieving : EratBig -> Prop :=
  | sieving_new k e :
      (0 <= k)%Z ->
      getSieveSize soe = (2 ^ k)%Z ->
      (0 <= getSqrtStop soe)%Z ->
      (0 <= getMaxFactor)%Z ->
      (getSieveSize soe + (getSqrtStop soe / 30 * getMaxFactor + getMaxFactor)
       < UINT_MODULUS)%Z ->
      EratBig_new getMaxFactor BUCKETS_PER_ALLOC soe = Constructed e ->
      sieving e
  | sieving_store e sievingPrime multipleIndex wheelIndex e' :
      sieving e ->
      (1 <= sievingPrime <= getSqrtStop soe / 30)%Z ->
      (0 <= wheelIndex < wheel_size)%Z ->
      storeSievingPrime BUCKETSIZE BUCKETS_PER_ALLOC sievingPrime multipleIndex wheelIndex e
        = Ok e' ->
      sieving e'
  | sieving_crossOff e fuel sieve e' sieve' :
      sieving e ->
      (getSieveSize soe <= Z.of_nat (length sieve))%Z ->
      crossOff WHEEL BUCKETSIZE BUCKETS_PER_ALLOC fuel (e, sieve) = Ok (e', sieve') ->
      sieving e'.

End Reachable.

(** ** Reading the state *)

(** The sieving primes met by following [next()] from [p], in the order
    of the buckets and of their slots; the walk visits at most [fuel]
    buckets. *)
Fixpoint chain_primes (fuel : nat) (h : list Bucket) (p : ptr) : list WheelPrime :=
  match fuel, p with
  | S fuel', Some a =>
      match h !! a with
      | Some b => wheelPrimes_ b ++ chain_primes fuel' h (next_ b)
      | None => []
      end
  | _, _ => []
  end.

(** The sieving primes of [lists_[j]]. *)
Definition list_primes (e : EratBig) (j : nat) : list WheelPrime :=
  chain_primes (length (heap e)) (heap e) (default None (lists_ e !! j)).

(** The sieving primes of all buckets of the heap. *)
Definition stored_primes (e : EratBig) : list WheelPrime :=
  mjoin (wheelPrimes_ <$> heap e).

(** From [sieve] to [sieve'] bits were cleared and none was set: the
    arrays have the same size and every byte of [sieve'] has its bits
    among those of the byte of [sieve]. *)
Definition only_cleared (sieve sieve' : sieve_t) : Prop :=
  length sieve' = length sieve /\
  forall i b b', sieve !! i = Some b -> sieve' !! i = Some b' -> Z.land b' b = b'.

(** The sieving primes of all lists of a view, without their multiple
    and wheel indices. *)
Definition view_primes (V : list (gmultiset WheelPrime)) : gmultiset Z :=
  foldr (fun X acc => gmultiset_map getSievingPrime X ⊎ acc) ∅ V.

(** The multiple indices of a view lie inside the segment. *)
Definition offsets_ok (modS : Z) (V : list (gmultiset WheelPrime)) : Prop :=
  forall (j : nat) (X : gmultiset WheelPrime) (t : WheelPrime),
    V !! j = Some X -> t ∈ X -> (0 <= getMultipleIndex t <= modS)%Z.

(** ** A small instance

    A wheel of four entries with factor 2, a sieve of 8 bytes for
    [sqrtStop = 60], buckets of two sieving primes in slabs of three:
    the object as constructed, with one and with two sieving primes
    stored, and after [crossOff]. *)

Definition small_wheel (w : Z) : WheelElement :=
  mkWheelElement (2 ^ (w mod 8)) 2 (w mod 2) ((w + 1) mod 4).

Definition small_soe : SieveOfEratosthenes := mkSoe 8 60.

Definition small_sieve : sieve_t := replicate 8 255%Z.

Definition small_new : EratBig :=
  mkEratBig [mkBucket [] None; mkBucket [] None; mkBucket [] None]
            [0] (Some 2) [Some 0; Some 1] 3 7.

Definition small_one : EratBig :=
  mkEratBig [mkBucket [mkWheelPrime 1 0 0] None; mkBucket [] None; mkBucket [] None]
            [0] (Some 2) [Some 0; Some 1] 3 7.

Definition small_two : EratBig :=
  mkEratBig [mkBucket [mkWheelPrime 1 0 0; mkWheelPrime 2 5 1] None;
             mkBucket [] None;
             mkBucket [] (Some 0)]
            [0] None [Some 2; Some 1] 3 7.

Definition small_crossed : EratBig * sieve_t :=
  (mkEratBig [mkBucket [] None;
              mkBucket [mkWheelPrime 2 2 2; mkWheelPrime 1 2 0] None;
              mkBucket [] (Some 1);
              mkBucket [] (Some 4);
              mkBucket [] (Some 5);
              mkBucket [] None]
             [0; 3] (Some 3) [Some 2; Some 0] 3 7,
   [254; 255; 253; 255; 255; 249; 255; 247]%Z).

Definition small_far : EratBig :=
  mkEratBig [mkBucket [] None; mkBucket [mkWheelPrime 1 1 0] None; mkBucket [] None]
            [0] (Some 2) [Some 0; Some 1] 3 7.

(** * Properties *)

(** ** Results *)

Lemma bind_Ok {A B : Type} (r : result A) (k : A -> result B) (b : B) :
  r ≫= k = Ok b <-> exists a, r = Ok a /\ k a = Ok b.
Proof.
  destruct r as [a|f]; simpl; split.
  - intros H. exists a. auto.
  - intros (a' & Ha & Hk). injection Ha as <-. exact Hk.
  - discriminate.
  - intros (a' & Ha & _). discriminate.
Qed.

Lemma from_option_Ok {A : Type} (f : fault) (o : option A) (a : A) :
  from_option f o = Ok a <-> o = Some a.
Proof. destruct o; simpl; split; congruence. Qed.

(** ** Lists of lists *)

Lemma elem_of_join_lookup {A : Type} (ls : list (list A)) (i : nat) (l : list A) (x : A) :
  ls !! i = Some l -> x ∈ l -> x ∈ mjoin ls.
Proof.
  revert i. induction ls as [|l0 ls IH]; intros [|i] Hl Hx; simpl in *; try discriminate.
  - injection Hl as ->. apply elem_of_app. auto.
  - apply elem_of_app. right. eauto.
Qed.

Lemma join_insert_cons {A : Type} (ls : list (list A)) (i : nat) (l : list A) (x : A) :
  ls !! i = Some l -> mjoin (<[i := x :: l]> ls) ≡ₚ x :: mjoin ls.
Proof.
  revert i. induction ls as [|l0 ls IH]; intros [|i] Hl; simpl in *; try discriminate.
  - injection Hl as ->. reflexivity.
  - rewrite (IH _ Hl). symmetry. apply Permutation_middle.
Qed.

Lemma join_insert_nil {A : Type} (ls : list (list A)) (i : nat) (l : list A) :
  ls !! i = Some l -> mjoin ls ≡ₚ l ++ mjoin (<[i := []]> ls).
Proof.
  revert i. induction ls as [|l0 ls IH]; intros [|i] Hl; simpl in *; try discriminate.
  - injection Hl as ->. reflexivity.
  - rewrite (IH _ Hl) at 1. rewrite !app_assoc. apply Permutation_app_tail, Permutation_app_comm.
Qed.

(** ** Chains of buckets *)

Lemma is_chain_ext (h h' : list Bucket) (p : ptr) (l : list addr) :
  (forall a, a ∈ l -> h' !! a = h !! a \/
     exists b b', h !! a = Some b /\ h' !! a = Some b' /\ next_ b' = next_ b) ->
  is_chain h p l -> is_chain h' p l.
Proof.
  revert p. induction l as [|a l IH]; intros p Hext; simpl; [done|].
  intros [-> Hc]. split; [done|].
  destruct (h !! a) as [b|] eqn:Hb; [|done].
  destruct (Hext a) as [-> | (b1 & b' & H1 & -> & Hn)]; [left| | ].
  - rewrite Hb. apply IH; [|done]. intros x Hx. apply Hext. by right.
  - rewrite Hb in H1. injection H1 as <-. rewrite Hn.
    apply IH; [|done]. intros x Hx. apply Hext. by right.
Qed.

Lemma is_chain_frame (h : list Bucket) (p : ptr) (l : list addr) (a : addr) (b : Bucket) :
  a ∉ l -> is_chain h p l -> is_chain (<[a := b]> h) p l.
Proof.
  intros Ha. apply is_chain_ext. intros x Hx. left.
  apply list_lookup_insert_ne. intros ->. done.
Qed.

Lemma is_chain_valid (h : list Bucket) (p : ptr) (l : list addr) :
  is_chain h p l -> Forall (fun a => a < length h) l.
Proof.
  revert p. induction l as [|a l IH]; intros p; simpl; [constructor|].
  intros [-> Hc]. destruct (h !! a) as [b|] eqn:Hb; [|done].
  constructor; [eapply lookup_lt_Some; eassumption | eauto].
Qed.

Lemma is_chain_app (h h' : list Bucket) (p : ptr) (l : list addr) :
  is_chain h p l -> is_chain (h ++ h') p l.
Proof.
  intros Hc. eapply is_chain_ext; [|exact Hc]. intros a Ha. left.
  apply lookup_app_l. pose proof (is_chain_valid _ _ _ Hc) as Hv.
  rewrite Forall_forall in Hv. apply Hv, Ha.
Qed.

Lemma is_chain_det (h : list Bucket) (p : ptr) (l l' : list addr) :
  is_chain h p l -> is_chain h p l' -> l = l'.
Proof.
  revert p l'. induction l as [|a l IH]; intros p [|a' l']; simpl.
  - done.
  - intros -> [? _]. done.
  - intros [-> _] ?. done.
  - intros [-> H] [[= <-] H']. destruct (h !! a) as [b|]; [|done]. f_equal. eauto.
Qed.

Lemma chains_det (h : list Bucket) (ps : list ptr) (ls ls' : list (list addr)) :
  Forall2 (is_chain h) ps ls -> Forall2 (is_chain h) ps ls' -> ls = ls'.
Proof.
  intros H. revert ls'. induction H as [|p l ps ls Hc _ IH]; intros ls' H'.
  - by apply Forall2_nil_inv_l in H'.
  - apply Forall2_cons_inv_l in H' as (l' & ls'' & Hc' & H' & ->).
    f_equal; [by eapply is_chain_det|eauto].
Qed.

Lemma bucket_at_insert_eq (h : list Bucket) (a : addr) (b : Bucket) :
  a < length h -> bucket_at (<[a := b]> h) a = wheelPrimes_ b.
Proof. intros Ha. unfold bucket_at. by rewrite list_lookup_insert_eq. Qed.

Lemma bucket_at_insert_ne (h : list Bucket) (a x : addr) (b : Bucket) :
  a <> x -> bucket_at (<[a := b]> h) x = bucket_at h x.
Proof. intros Ha. unfold bucket_at. by rewrite list_lookup_insert_ne. Qed.

Lemma bucket_at_app (h h' : list Bucket) (x : addr) :
  x < length h -> bucket_at (h ++ h') x = bucket_at h x.
Proof. intros Hx. unfold bucket_at. by rewrite lookup_app_l. Qed.

Lemma fmap_seq_from {B : Type} (f : nat -> B) (a n : nat) :
  f <$> seq a n = (fun j => f (a + j)) <$> seq 0 n.
Proof.
  rewrite <- (Nat.add_0_r a) at 1. rewrite <- fmap_add_seq, <- list_fmap_compose. done.
Qed.

(** ** Slabs *)

Section Slabs.

Variable BUCKETS_PER_ALLOC : nat.

Lemma new_slab_length (base : addr) :
  length (new_slab BUCKETS_PER_ALLOC base) = BUCKETS_PER_ALLOC.
Proof. unfold new_slab. by rewrite length_fmap, length_seq. Qed.

Lemma new_slab_lookup (base : addr) (i : nat) :
  i < BUCKETS_PER_ALLOC ->
  new_slab BUCKETS_PER_ALLOC base !! i
  = Some (mkBucket [] (if (S i <? BUCKETS_PER_ALLOC)%nat then Some (base + S i) else None)).
Proof.
  intros Hi. unfold new_slab. rewrite list_lookup_fmap.
  by rewrite lookup_seq_lt.
Qed.

Lemma new_slab_chain (h : list Bucket) (i : nat) :
  i <= BUCKETS_PER_ALLOC ->
  is_chain (h ++ new_slab BUCKETS_PER_ALLOC (length h))
    (if (i <? BUCKETS_PER_ALLOC)%nat then Some (length h + i) else None)
    (seq (length h + i) (BUCKETS_PER_ALLOC - i)).
Proof.
  remember (BUCKETS_PER_ALLOC - i) as n eqn:Hn. revert i Hn.
  induction n as [|n IH]; intros i Hn Hi; simpl.
  - destruct (Nat.ltb_spec i BUCKETS_PER_ALLOC); [lia|done].
  - destruct (Nat.ltb_spec i BUCKETS_PER_ALLOC); [|lia]. split; [done|].
    rewrite lookup_app_r by lia.
    replace (length h + i - length h) with i by lia.
    rewrite new_slab_lookup by lia. simpl.
    replace (S (length h + i)) with (length h + S i) by lia.
    apply IH; lia.
Qed.

Lemma new_slab_empty (h : list Bucket) (x : addr) :
  length h <= x -> bucket_at (h ++ new_slab BUCKETS_PER_ALLOC (length h)) x = [].
Proof.
  intros Hx. unfold bucket_at. rewrite lookup_app_r by lia.
  destruct (decide (x - length h < BUCKETS_PER_ALLOC)) as [Hlt|Hge].
  - by rewrite new_slab_lookup.
  - rewrite lookup_ge_None_2; [done|]. rewrite new_slab_length. lia.
Qed.

Lemma grows_refl (e : EratBig) : grows BUCKETS_PER_ALLOC e e.
Proof.
  exists 0. simpl. rewrite app_nil_r. repeat split; auto.
Qed.

Lemma grows_trans (e1 e2 e3 : EratBig) :
  grows BUCKETS_PER_ALLOC e1 e2 -> grows BUCKETS_PER_ALLOC e2 e3 ->
  grows BUCKETS_PER_ALLOC e1 e3.
Proof.
  intros (k1 & Hh1 & Hp1 & Hl1 & HL1 & HM1) (k2 & Hh2 & Hp2 & Hl2 & HL2 & HM2).
  exists (k1 + k2). repeat split; try congruence; [lia|].
  rewrite Hp2, Hp1, <- app_assoc. f_equal.
  rewrite seq_app, fmap_app. f_equal. simpl.
  rewrite (fmap_seq_from _ k1). apply list_fmap_ext. intros _ j _. simpl. lia.
Qed.

Lemma grows_slabs_ok (e e' : EratBig) :
  grows BUCKETS_PER_ALLOC e e' -> slabs_ok BUCKETS_PER_ALLOC e ->
  slabs_ok BUCKETS_PER_ALLOC e'.
Proof.
  intros (k & Hh & Hp & _) [Hs1 Hs2]. unfold slabs_ok.
  assert (Hlen : length (pointers_ e') = length (pointers_ e) + k).
  { rewrite Hp, length_app, length_fmap, length_seq. done. }
  split.
  - rewrite Hlen, seq_app, fmap_app, <- Hs1. rewrite Hp. f_equal. simpl.
    rewrite (fmap_seq_from _ (length (pointers_ e))).
    apply list_fmap_ext. intros _ j _. simpl. lia.
  - lia.
Qed.

Lemma grows_heap_le (e e' : EratBig) :
  grows BUCKETS_PER_ALLOC e e' -> length (heap e) <= length (heap e').
Proof. intros (k & Hh & _). lia. Qed.

End Slabs.

(** ** Taking a bucket from the stock *)

Lemma chains_valid (h : list Bucket) (ps : list (option nat)) (ls : list (list nat)) :
  Forall2 (is_chain h) ps ls -> forall x, x ∈ mjoin ls -> x < length h.
Proof.
  intros HF x Hx. apply list_elem_of_join in Hx as (l & Hxl & Hl).
  apply list_elem_of_lookup in Hl as (i & Hi).
  destruct (Forall2_lookup_r _ _ _ _ _ HF Hi) as (p & _ & Hc).
  apply is_chain_valid in Hc. rewrite Forall_forall in Hc. auto.
Qed.

Section Ops.

Variable BUCKETSIZE : nat.
Variable BUCKETS_PER_ALLOC : nat.
Hypothesis BUCKETS_PER_ALLOC_pos : 0 < BUCKETS_PER_ALLOC.

Lemma wf_core_valid (e : EratBig) ls sk ex (x : nat) :
  wf_core e ls sk ex -> x ∈ mjoin ls ++ sk ++ ex -> x < length (heap e).
Proof.
  intros [H1 H2 _ _ H5 _] Hx. rewrite !elem_of_app in Hx. destruct Hx as [Hx|[Hx|Hx]].
  - eapply chains_valid; eauto.
  - apply is_chain_valid in H2. rewrite Forall_forall in H2. auto.
  - rewrite Forall_forall in H5. auto.
Qed.

Lemma allocate_spec (e : EratBig) ls ex :
  wf_core e ls [] ex ->
  exists e1, allocate BUCKETS_PER_ALLOC e = Ok e1 /\
    wf_core e1 ls (seq (length (heap e)) BUCKETS_PER_ALLOC) ex /\
    heap e1 = heap e ++ new_slab BUCKETS_PER_ALLOC (length (heap e)) /\
    pointers_ e1 = pointers_ e ++ [length (heap e)] /\
    lists_ e1 = lists_ e /\
    log2SieveSize_ e1 = log2SieveSize_ e /\
    moduloSieveSize_ e1 = moduloSieveSize_ e.
Proof.
  intros Hwf. unfold allocate.
  destruct BUCKETS_PER_ALLOC as [|n] eqn:HB; [lia|]. rewrite <- HB.
  eexists. split; [reflexivity|]. split; [|by simpl].
  pose proof (wf_core_valid e ls [] ex) as Hvalid.
  destruct Hwf as [H1 H2 H3 H4 H5 H6]. constructor; simpl.
  - eapply Forall2_impl; [exact H1|]. intros p l. apply is_chain_app.
  - pose proof (new_slab_chain BUCKETS_PER_ALLOC (heap e) 0) as Hc.
    destruct (Nat.ltb_spec 0 BUCKETS_PER_ALLOC); [|lia].
    rewrite Nat.add_0_r, Nat.sub_0_r in Hc. apply Hc. lia.
  - simpl in H3. rewrite app_assoc. rewrite (Permutation_app_comm (mjoin ls)).
    rewrite <- app_assoc. apply NoDup_app. split; [apply NoDup_seq|]. split; [|done].
    intros x Hx%elem_of_seq Hx'. specialize (Hvalid x).
    simpl in Hvalid. specialize (Hvalid ltac:(constructor; assumption) Hx'). lia.
  - apply Forall_forall. intros x Hx%elem_of_seq. apply new_slab_empty. lia.
  - eapply Forall_impl; [exact H5|]. intros x Hx. simpl in Hx. rewrite length_app. lia.
  - intros a. rewrite length_app, new_slab_length. intros Ha.
    destruct (decide (a < length (heap e))) as [Hlt|Hge].
    + specialize (H6 a Hlt). rewrite !elem_of_app in *. simpl in H6.
      destruct H6 as [?|[?%elem_of_nil|?]]; tauto.
    + rewrite !elem_of_app, elem_of_seq. right. left. lia.
Qed.

Lemma pushBucket_spec (e : EratBig) ls sk ex (segment : Z) (l : list nat) :
  wf_core e ls sk ex ->
  ls !! Z.to_nat segment = Some l ->
  exists e' a' sk',
    pushBucket BUCKETS_PER_ALLOC segment e = Ok e' /\
    wf_core e' (<[Z.to_nat segment := a' :: l]> ls) sk' ex /\
    (sk = a' :: sk' /\ length (heap e') = length (heap e) /\ pointers_ e' = pointers_ e \/
     sk = [] /\ a' :: sk' = seq (length (heap e)) BUCKETS_PER_ALLOC /\
       length (heap e') = length (heap e) + BUCKETS_PER_ALLOC /\
       pointers_ e' = pointers_ e ++ [length (heap e)]) /\
    (a' ∉ mjoin ls ++ ex) /\
    bucket_at (heap e') a' = [] /\
    (forall x, x < length (heap e) -> x <> a' -> heap e' !! x = heap e !! x) /\
    (forall x, x < length (heap e) -> bucket_at (heap e') x = bucket_at (heap e) x) /\
    lists_ e' = <[Z.to_nat segment := Some a']> (lists_ e) /\
    log2SieveSize_ e' = log2SieveSize_ e /\
    moduloSieveSize_ e' = moduloSieveSize_ e.
Proof.
  intros Hwf Hl.
  (* the state after the optional allocation *)
  assert (exists e1 a' sk',
    (match stock_ e with None => allocate BUCKETS_PER_ALLOC e | Some _ => Ok e end) = Ok e1 /\
    wf_core e1 ls (a' :: sk') ex /\
    (sk = a' :: sk' /\ length (heap e1) = length (heap e) /\ pointers_ e1 = pointers_ e \/
     sk = [] /\ a' :: sk' = seq (length (heap e)) BUCKETS_PER_ALLOC /\
       length (heap e1) = length (heap e) + BUCKETS_PER_ALLOC /\
       pointers_ e1 = pointers_ e ++ [length (heap e)]) /\
    (forall x, x < length (heap e) -> heap e1 !! x = heap e !! x) /\
    lists_ e1 = lists_ e /\ log2SieveSize_ e1 = log2SieveSize_ e /\
    moduloSieveSize_ e1 = moduloSieveSize_ e) as (e1 & a' & sk' & Hal & Hwf1 & Hsk & Hsame & Hls & HL & HM).
  { destruct sk as [|a0 sk0].
    - pose proof (wf_stock _ _ _ _ Hwf) as Hs. simpl in Hs. rewrite Hs.
      destruct (allocate_spec e ls ex Hwf) as (e1 & Hal & Hwf1 & Hh & Hp & Hls & HL & HM).
      destruct BUCKETS_PER_ALLOC as [|n] eqn:HB; [lia|]. rewrite <- HB in *.
      exists e1, (length (heap e)), (seq (S (length (heap e))) n).
      split; [done|]. split.
      { rewrite HB in Hwf1. simpl in Hwf1. exact Hwf1. }
      split.
      { right. split; [done|]. split; [by rewrite HB|]. split; [|done].
        rewrite Hh, length_app, new_slab_length. done. }
      split; [|done]. intros x Hx. rewrite Hh. by apply lookup_app_l.
    - pose proof (wf_stock _ _ _ _ Hwf) as Hs. simpl in Hs. destruct Hs as [Hs _]. rewrite Hs.
      exists e, a0, sk0. split; [done|]. split; [done|]. split; [left; done|]. done. }
  unfold pushBucket. rewrite Hal. simpl.
  pose proof (wf_stock _ _ _ _ Hwf1) as Hs. simpl in Hs. destruct Hs as [Hs Hc].
  destruct (heap e1 !! a') as [b|] eqn:Hb; [|done].
  unfold deref. rewrite Hs. simpl. rewrite Hb. simpl.
  pose proof (wf_lists _ _ _ _ Hwf1) as HF.
  destruct (Forall2_lookup_r _ _ _ _ _ HF Hl) as (old & Hold & Hcl).
  unfold list_at. rewrite Hold. simpl.
  pose proof (wf_nodup _ _ _ _ Hwf1) as Hnd.
  assert (Ha'ls : a' ∉ (mjoin ls ++ ex)).
  { intros Hin. rewrite app_assoc in Hnd. rewrite (Permutation_app_comm (mjoin ls)) in Hnd.
    simpl in Hnd. apply NoDup_cons in Hnd as [Hnd _]. apply Hnd.
    rewrite !elem_of_app in *. tauto. }
  assert (Ha'sk : a' ∉ sk').
  { intros Hin. apply NoDup_app in Hnd as (_ & _ & Hnd). simpl in Hnd.
    apply NoDup_cons in Hnd as [Hnd _]. apply Hnd. rewrite elem_of_app. tauto. }
  assert (Ha'lt : a' < length (heap e1)) by (eapply lookup_lt_Some; eassumption).
  assert (Hempty : wheelPrimes_ b = []).
  { pose proof (wf_stock_empty _ _ _ _ Hwf1) as He. apply Forall_cons in He as [He _].
    unfold bucket_at in He. by rewrite Hb in He. }
  eexists _, a', sk'. split; [reflexivity|]. split.
  { constructor; simpl.
    - apply Forall2_insert.
      + apply Forall2_same_length_lookup. split; [by eapply Forall2_length|].
        intros i p li Hp Hli. apply is_chain_frame.
        * intros Hin. apply Ha'ls. apply elem_of_app. left.
          eapply elem_of_join_lookup; eassumption.
        * eapply Forall2_lookup_lr; eassumption.
      + simpl. split; [done|]. rewrite list_lookup_insert_eq by done. simpl.
        apply is_chain_frame; [|done].
        intros Hin. apply Ha'ls. apply elem_of_app. left.
        eapply elem_of_join_lookup; eassumption.
    - apply is_chain_frame; done.
    - rewrite (join_insert_cons _ _ _ _ Hl). simpl.
      simpl in Hnd. rewrite Permutation_middle. exact Hnd.
    - pose proof (wf_stock_empty _ _ _ _ Hwf1) as He. apply Forall_cons in He as [_ He].
      apply Forall_forall. intros x Hx. rewrite bucket_at_insert_ne.
      + rewrite Forall_forall in He. auto.
      + intros ->. done.
    - rewrite length_insert. apply (wf_detached _ _ _ _ Hwf1).
    - rewrite length_insert. intros x Hx. apply (wf_all _ _ _ _ Hwf1) in Hx.
      rewrite !elem_of_app in *. rewrite (join_insert_cons _ _ _ _ Hl).
      rewrite !elem_of_cons in *. tauto. }
  simpl. split.
  { rewrite length_insert. exact Hsk. }
  split; [done|]. split.
  { rewrite bucket_at_insert_eq by done. done. }
  split.
  { intros x Hx Hne. rewrite list_lookup_insert_ne by done. auto. }
  split.
  { intros x Hx. destruct (decide (x = a')) as [->|Hne].
    - rewrite bucket_at_insert_eq by done. simpl. rewrite Hempty.
      destruct Hsk as [(-> & _) | (-> & Hseq & _)].
      + pose proof (wf_stock_empty _ _ _ _ Hwf) as He. apply Forall_cons in He as [He _]. done.
      + destruct BUCKETS_PER_ALLOC; simpl in Hseq; [done|]. injection Hseq as -> _. lia.
    - rewrite bucket_at_insert_ne by done. unfold bucket_at. rewrite Hsame by done. done. }
  rewrite Hls. done.
Qed.
End Ops.

(** ** Storing a sieving prime *)

Lemma NoDup_join_lookup {A : Type} (ls : list (list A)) (i : nat) (l : list A) :
  NoDup (mjoin ls) -> ls !! i = Some l -> NoDup l.
Proof.
  revert i. induction ls as [|l0 ls IH]; intros [|i] Hnd Hl; simpl in *; try discriminate.
  - injection Hl as ->. by apply NoDup_app in Hnd as (? & _ & _).
  - apply NoDup_app in Hnd as (_ & _ & ?). eauto.
Qed.

Lemma NoDup_join_disjoint {A : Type} (ls : list (list A)) (i j : nat) (li lj : list A) (x : A) :
  NoDup (mjoin ls) -> ls !! i = Some li -> ls !! j = Some lj -> i <> j ->
  x ∈ li -> x ∉ lj.
Proof.
  revert i j. induction ls as [|l0 ls IH]; intros [|i] [|j] Hnd Hi Hj Hne Hx;
    simpl in *; try discriminate; try done.
  - injection Hi as ->. apply NoDup_app in Hnd as (_ & Hd & _).
    intros Hx'. apply (Hd x Hx). eapply elem_of_join_lookup; eassumption.
  - injection Hj as ->. apply NoDup_app in Hnd as (_ & Hd & _).
    intros Hx'. apply (Hd x Hx'). eapply elem_of_join_lookup; eassumption.
  - apply NoDup_app in Hnd as (_ & _ & Hnd). eapply (IH i j); eauto.
Qed.

Lemma primes_of_ext (h h' : list Bucket) (l : list nat) :
  (forall x, x ∈ l -> bucket_at h' x = bucket_at h x) ->
  primes_of h' l = primes_of h l.
Proof.
  intros Hext. unfold primes_of. f_equal. f_equal.
  apply list_fmap_ext. intros i x Hx. apply Hext. eapply list_elem_of_lookup_2; eassumption.
Qed.

Lemma primes_of_cons (h : list Bucket) (a : nat) (l : list nat) :
  primes_of h (a :: l) = list_to_set_disj (bucket_at h a) ⊎ primes_of h l.
Proof. unfold primes_of. simpl. by rewrite list_to_set_disj_app. Qed.

Lemma is_chain_store (h : list Bucket) (a : nat) (b b' : Bucket) (p : option nat) (l : list nat) :
  h !! a = Some b -> next_ b' = next_ b ->
  is_chain h p l -> is_chain (<[a := b']> h) p l.
Proof.
  intros Hb Hn. apply is_chain_ext. intros x _.
  destruct (decide (x = a)) as [->|Hne].
  - right. exists b, b'. split; [done|]. split; [|done].
    apply list_lookup_insert_eq. eapply lookup_lt_Some; eassumption.
  - left. by apply list_lookup_insert_ne.
Qed.

Section Store.

Variable BUCKETSIZE : nat.
Variable BUCKETS_PER_ALLOC : nat.
Hypothesis BUCKETS_PER_ALLOC_pos : 0 < BUCKETS_PER_ALLOC.

Lemma head_has_room_ext (h h' : list Bucket) (l : list nat) :
  (forall x, x ∈ l -> bucket_at h' x = bucket_at h x) ->
  head_has_room BUCKETSIZE h l -> head_has_room BUCKETSIZE h' l.
Proof.
  destruct l as [|a l]; simpl; [done|]. intros Hext. rewrite Hext; [done|]. by left.
Qed.

Lemma tail_nonempty_ext (h h' : list Bucket) (l : list nat) :
  (forall x, x ∈ l -> bucket_at h' x = bucket_at h x) ->
  tail_nonempty h l -> tail_nonempty h' l.
Proof.
  unfold tail_nonempty. destruct l as [|a l]; simpl; [done|]. intros Hext.
  rewrite !Forall_forall. intros H x Hx. rewrite Hext; [auto|]. by right.
Qed.


Lemma storeOrPush_spec (e : EratBig) ls sk ex (segment : Z) (t : WheelPrime) (a : nat) (l : list nat) :
  wf BUCKETSIZE e ls sk ex ->
  ls !! Z.to_nat segment = Some (a :: l) ->
  exists e' ls' sk',
    storeOrPush BUCKETSIZE BUCKETS_PER_ALLOC segment t e = Ok e' /\
    wf BUCKETSIZE e' ls' sk' ex /\
    bucket_at (heap e') a = bucket_at (heap e) a ++ [t] /\
    (forall x, x < length (heap e) -> x <> a -> bucket_at (heap e') x = bucket_at (heap e) x) /\
    (forall x, x ∈ ex -> heap e' !! x = heap e !! x) /\
    (S (length (bucket_at (heap e) a)) <> BUCKETSIZE /\ ls' = ls /\ sk' = sk /\
       length (heap e') = length (heap e) /\ pointers_ e' = pointers_ e
     \/
     S (length (bucket_at (heap e) a)) = BUCKETSIZE /\
     exists a', ls' = <[Z.to_nat segment := a' :: a :: l]> ls /\
       bucket_at (heap e') a' = [] /\
       (sk = a' :: sk' /\ length (heap e') = length (heap e) /\ pointers_ e' = pointers_ e \/
        sk = [] /\ a' :: sk' = seq (length (heap e)) BUCKETS_PER_ALLOC /\
          length (heap e') = length (heap e) + BUCKETS_PER_ALLOC /\
          pointers_ e' = pointers_ e ++ [length (heap e)])) /\
    length (lists_ e') = length (lists_ e) /\
    log2SieveSize_ e' = log2SieveSize_ e /\
    moduloSieveSize_ e' = moduloSieveSize_ e.
Proof.
  intros [Hcore Hroom Htails] Hl. set (n := Z.to_nat segment) in *.
  pose proof (wf_lists _ _ _ _ Hcore) as HF.
  destruct (Forall2_lookup_r _ _ _ _ _ HF Hl) as (p & Hp & Hc).
  simpl in Hc. destruct Hc as [-> Hc].
  destruct (heap e !! a) as [b|] eqn:Hb; [|done].
  assert (Hba : bucket_at (heap e) a = wheelPrimes_ b) by (unfold bucket_at; by rewrite Hb).
  pose proof (Forall_lookup_1 _ _ _ _ Hroom Hl) as Hr. simpl in Hr. rewrite Hba in Hr.
  assert (Halt : a < length (heap e)) by (eapply lookup_lt_Some; eassumption).
  pose proof (wf_nodup _ _ _ _ Hcore) as Hnd.
  assert (Hndls : NoDup (mjoin ls)) by (by apply NoDup_app in Hnd as (? & _ & _)).
  assert (Ha_in : a ∈ mjoin ls).
  { eapply elem_of_join_lookup; [exact Hl|]. by left. }
  assert (Ha_sk_ex : a ∉ sk ++ ex).
  { apply NoDup_app in Hnd as (_ & Hd & _). by apply Hd. }
  assert (Ha_l : a ∉ l).
  { pose proof (NoDup_join_lookup _ _ _ Hndls Hl) as H. by apply NoDup_cons in H as [? _]. }
  assert (Ha_other : forall j lj, ls !! j = Some lj -> j <> n -> a ∉ lj).
  { intros j lj Hj Hne. eapply (NoDup_join_disjoint ls n j); eauto. by left. }
  unfold storeOrPush, list_at. fold n. rewrite Hp. simpl.
  unfold deref. simpl. rewrite Hb. simpl.
  unfold Bucket_store. destruct (Nat.ltb_spec (length (wheelPrimes_ b)) BUCKETSIZE) as [_|]; [|lia].
  set (b' := mkBucket (wheelPrimes_ b ++ [t]) (next_ b)).
  set (e1 := set_heap (<[a := b']> (heap e)) e).
  assert (Hb1 : forall x, x <> a -> bucket_at (heap e1) x = bucket_at (heap e) x).
  { intros x Hx. simpl. by apply bucket_at_insert_ne. }
  assert (Hb1a : bucket_at (heap e1) a = wheelPrimes_ b ++ [t]).
  { simpl. by rewrite bucket_at_insert_eq. }
  assert (Hcore1 : wf_core e1 ls sk ex).
  { destruct Hcore as [H1 H2 H3 H4 H5 H6]. constructor; simpl.
    - eapply Forall2_impl; [exact H1|]. intros q lq. by apply (is_chain_store _ _ b).
    - by apply (is_chain_store _ _ b).
    - done.
    - apply Forall_forall. intros x Hx. rewrite bucket_at_insert_ne.
      + rewrite Forall_forall in H4. auto.
      + intros ->. apply Ha_sk_ex. apply elem_of_app. by left.
    - by rewrite length_insert.
    - by rewrite length_insert. }
  assert (Hlen1 : length (heap e1) = length (heap e)) by (simpl; by rewrite length_insert).
  destruct (Nat.eqb_spec (S (length (wheelPrimes_ b))) BUCKETSIZE) as [Hfull|Hnotfull];
    cbn [negb mbind result_bind].
  - (* the bucket is full now: an empty bucket becomes the new head *)
    destruct (pushBucket_spec BUCKETS_PER_ALLOC BUCKETS_PER_ALLOC_pos e1 ls sk ex segment (a :: l) Hcore1 Hl)
      as (e' & a' & sk' & Hpush & Hcore' & Hsk & Ha' & Hempty & Hsame & Hbsame & Hlists & HL & HM).
    fold n in Hcore', Hlists. fold e1. rewrite Hpush.
    assert (Ha'a : a' <> a).
    { intros ->. apply Ha'. apply elem_of_app. by left. }
    exists e', (<[n := a' :: a :: l]> ls), sk'. split; [done|].
    assert (Hbucket : forall x, x < length (heap e) -> x <> a ->
              bucket_at (heap e') x = bucket_at (heap e) x).
    { intros x Hx Hne. rewrite Hbsame by lia. by apply Hb1. }
    assert (Hbucket_a : bucket_at (heap e') a = wheelPrimes_ b ++ [t]).
    { rewrite Hbsame by lia. done. }
    split.
    { constructor; [done| |].
      - apply Forall_lookup_2. intros j lj Hj.
        destruct (decide (j = n)) as [->|Hne].
        + rewrite list_lookup_insert_eq in Hj by (eapply lookup_lt_Some; eassumption).
          injection Hj as <-. simpl. rewrite Hempty. simpl. lia.
        + rewrite list_lookup_insert_ne in Hj by done.
          eapply head_has_room_ext; [|eapply Forall_lookup_1; eassumption].
          intros x Hx. apply Hbucket.
          * eapply chains_valid; [exact HF|]. eapply elem_of_join_lookup; eassumption.
          * intros ->. by apply (Ha_other j lj).
      - apply Forall_lookup_2. intros j lj Hj.
        destruct (decide (j = n)) as [->|Hne].
        + rewrite list_lookup_insert_eq in Hj by (eapply lookup_lt_Some; eassumption).
          injection Hj as <-. unfold tail_nonempty. simpl. constructor.
          * rewrite Hbucket_a. by destruct (wheelPrimes_ b).
          * pose proof (Forall_lookup_1 _ _ _ _ Htails Hl) as Ht. unfold tail_nonempty in Ht.
            simpl in Ht. rewrite Forall_forall in Ht |- *. intros x Hx.
            rewrite Hbucket; [auto| |].
            -- eapply chains_valid; [exact HF|]. eapply elem_of_join_lookup; [exact Hl|]. by right.
            -- intros ->. done.
        + rewrite list_lookup_insert_ne in Hj by done.
          eapply tail_nonempty_ext; [|eapply Forall_lookup_1; eassumption].
          intros x Hx. apply Hbucket.
          * eapply chains_valid; [exact HF|]. eapply elem_of_join_lookup; eassumption.
          * intros ->. by apply (Ha_other j lj). }
    split; [by rewrite Hbucket_a, Hba|].
    split; [done|].
    split.
    { intros x Hx. rewrite Hsame.
      - simpl. apply list_lookup_insert_ne. intros ->. apply Ha_sk_ex. apply elem_of_app. by right.
      - rewrite Hlen1. pose proof (wf_detached _ _ _ _ Hcore) as Hd.
        rewrite Forall_forall in Hd. auto.
      - intros ->. apply Ha'. apply elem_of_app. by right. }
    split.
    { right. rewrite Hba. split; [done|]. exists a'. split; [done|]. split; [done|].
      rewrite Hlen1 in Hsk. exact Hsk. }
    rewrite Hlists, length_insert. done.
  - (* there is room left *)
    exists e1, ls, sk. split; [done|]. split.
    { constructor; [done| |].
      - apply Forall_lookup_2. intros j lj Hj.
        destruct (decide (j = n)) as [->|Hne].
        + rewrite Hl in Hj. injection Hj as <-. unfold head_has_room.
          rewrite Hb1a, length_app. simpl. lia.
        + eapply head_has_room_ext; [|eapply Forall_lookup_1; eassumption].
          intros x Hx. apply Hb1. intros ->. by apply (Ha_other j lj).
      - apply Forall_lookup_2. intros j lj Hj.
        destruct (decide (j = n)) as [->|Hne].
        + rewrite Hl in Hj. injection Hj as <-.
          pose proof (Forall_lookup_1 _ _ _ _ Htails Hl) as Ht. unfold tail_nonempty in *.
          cbn [tail] in *. rewrite Forall_forall in Ht |- *. intros x Hx.
          rewrite Hb1; [auto|]. intros ->. done.
        + eapply tail_nonempty_ext; [|eapply Forall_lookup_1; eassumption].
          intros x Hx. apply Hb1. intros ->. by apply (Ha_other j lj). }
    split; [by rewrite Hb1a, Hba|].
    split; [intros; by apply Hb1|].
    split.
    { intros x Hx. simpl. apply list_lookup_insert_ne. intros ->.
      apply Ha_sk_ex. apply elem_of_app. by right. }
    split; [left; rewrite Hba; done|]. done.
Qed.


(** What a store does to the multisets of sieving primes: the triple
    joins the list of its segment and nothing else changes. *)
Lemma storeOrPush_view (e : EratBig) ls sk ex (segment : Z) (t : WheelPrime) :
  wf BUCKETSIZE e ls sk ex ->
  Z.to_nat segment < length ls ->
  exists e' ls' sk',
    storeOrPush BUCKETSIZE BUCKETS_PER_ALLOC segment t e = Ok e' /\
    wf BUCKETSIZE e' ls' sk' ex /\
    primes_view e' ls' = alter (fun X => {[+ t +]} ⊎ X) (Z.to_nat segment) (primes_view e ls) /\
    (forall x, x ∈ ex -> heap e' !! x = heap e !! x) /\
    grows BUCKETS_PER_ALLOC e e'.
Proof.
  intros Hwf Hseg. set (n := Z.to_nat segment) in *.
  destruct (lookup_lt_is_Some_2 ls n Hseg) as [l0 Hl0].
  pose proof (Forall_lookup_1 _ _ _ _ (wf_room _ _ _ _ _ Hwf) Hl0) as Hr.
  destruct l0 as [|a l]; [done|]. clear Hr.
  destruct (storeOrPush_spec e ls sk ex segment t a l Hwf Hl0)
    as (e' & ls' & sk' & Hst & Hwf' & Hba & Hbx & Hex & Hcase & Hlen & HL & HM).
  fold n in Hcase.
  exists e', ls', sk'. split; [done|]. split; [done|].
  pose proof (wf_wf_core _ _ _ _ _ Hwf) as Hcore.
  pose proof (wf_lists _ _ _ _ Hcore) as HF.
  pose proof (wf_nodup _ _ _ _ Hcore) as Hnd.
  assert (Hndls : NoDup (mjoin ls)) by (by apply NoDup_app in Hnd as (? & _ & _)).
  assert (Ha_l : a ∉ l).
  { pose proof (NoDup_join_lookup _ _ _ Hndls Hl0) as H. by apply NoDup_cons in H as [? _]. }
  assert (Hother : forall j lj, ls !! j = Some lj -> j <> n ->
            primes_of (heap e') lj = primes_of (heap e) lj).
  { intros j lj Hj Hne. apply primes_of_ext. intros x Hx. apply Hbx.
    - eapply chains_valid; [exact HF|]. eapply elem_of_join_lookup; eassumption.
    - intros ->. eapply (NoDup_join_disjoint ls n j); eauto. by left. }
  assert (Hl : primes_of (heap e') l = primes_of (heap e) l).
  { apply primes_of_ext. intros x Hx. apply Hbx.
    - eapply chains_valid; [exact HF|]. eapply elem_of_join_lookup; [exact Hl0|]. by right.
    - intros ->. done. }
  assert (Hal : primes_of (heap e') (a :: l) = {[+ t +]} ⊎ primes_of (heap e) (a :: l)).
  { rewrite !primes_of_cons, Hba, Hl, list_to_set_disj_app. simpl. multiset_solver. }
  split.
  { unfold primes_view. apply list_eq. intros j.
    destruct Hcase as [(_ & -> & _)|(_ & a' & -> & Ha' & _)].
    - rewrite list_lookup_fmap. destruct (decide (j = n)) as [->|Hne].
      + rewrite list_lookup_alter_eq, list_lookup_fmap, Hl0. simpl. by rewrite Hal.
      + rewrite list_lookup_alter_ne, list_lookup_fmap by done.
        destruct (ls !! j) as [lj|] eqn:Hj; simpl; [|done]. f_equal. by eapply Hother.
    - rewrite list_lookup_fmap. destruct (decide (j = n)) as [->|Hne].
      + rewrite list_lookup_insert_eq by done.
        rewrite list_lookup_alter_eq, list_lookup_fmap, Hl0. simpl. f_equal.
        rewrite (primes_of_cons _ a'), Ha', Hal. simpl. multiset_solver.
      + rewrite list_lookup_insert_ne by done.
        rewrite list_lookup_alter_ne, list_lookup_fmap by done.
        destruct (ls !! j) as [lj|] eqn:Hj; simpl; [|done]. f_equal. by eapply Hother. }
  split; [done|].
  destruct Hcase as [(_ & _ & _ & Hh & Hp)|(_ & a' & _ & _ & [(_ & Hh & Hp)|(_ & _ & Hh & Hp)])].
  - exists 0. simpl. rewrite app_nil_r. repeat split; try done; lia.
  - exists 0. simpl. rewrite app_nil_r. repeat split; try done; lia.
  - exists 1. simpl. rewrite !Nat.add_0_r. repeat split; try done; lia.
Qed.

End Store.

(** ** The unrolled loop and the plain loop *)

Lemma same_outcome_refl {A : Type} (r : result A) : same_outcome r r.
Proof. by destruct r. Qed.

Lemma same_outcome_bind {A B : Type} (r1 r2 : result A) (k1 k2 : A -> result B) :
  same_outcome r1 r2 ->
  (forall a, r1 = Ok a -> same_outcome (k1 a) (k2 a)) ->
  same_outcome (r1 ≫= k1) (r2 ≫= k2).
Proof.
  destruct r1 as [a1|f1], r2 as [a2|f2]; simpl; try done.
  intros <- H. by apply H.
Qed.

Lemma same_outcome_Ok {A : Type} (r1 r2 : result A) (a : A) :
  same_outcome r1 r2 -> (r1 = Ok a <-> r2 = Ok a).
Proof. destruct r1, r2; simpl; try done. by intros ->. Qed.

Lemma bind_ret_r {A : Type} (r : result A) : (r ≫= Ok) = r.
Proof. by destruct r. Qed.

Lemma bind_assoc {A B C : Type} (r : result A) (k1 : A -> result B) (k2 : B -> result C) :
  (r ≫= k1) ≫= k2 = r ≫= (fun a => k1 a ≫= k2).
Proof. by destruct r. Qed.

Section Unrolled.

Variable WHEEL : Z -> WheelElement.
Variable BUCKETSIZE : nat.
Variable BUCKETS_PER_ALLOC : nat.

Lemma read_slot_insert (e : EratBig) (a0 : nat) (b0 b0' : Bucket) (extra : list WheelPrime)
    (a j : nat) (x : WheelPrime) :
  heap e !! a0 = Some b0 ->
  wheelPrimes_ b0' = wheelPrimes_ b0 ++ extra ->
  read_slot e a j = Ok x ->
  read_slot (set_heap (<[a0 := b0']> (heap e)) e) a j = Ok x.
Proof.
  intros Hb0 Hw. unfold read_slot. simpl.
  destruct (decide (a = a0)) as [->|Hne].
  - rewrite Hb0. simpl. rewrite list_lookup_insert_eq by (eapply lookup_lt_Some; eassumption).
    simpl. rewrite Hw. intros Hx%from_option_Ok. apply from_option_Ok.
    by apply lookup_app_l_Some.
  - by rewrite list_lookup_insert_ne.
Qed.

Lemma pushBucket_frame (segment : Z) (e e' : EratBig) :
  pushBucket BUCKETS_PER_ALLOC segment e = Ok e' ->
  (forall a j x, read_slot e a j = Ok x -> read_slot e' a j = Ok x) /\
  log2SieveSize_ e' = log2SieveSize_ e /\
  moduloSieveSize_ e' = moduloSieveSize_ e.
Proof.
  unfold pushBucket. intros H.
  apply bind_Ok in H as (e1 & H1 & H).
  apply bind_Ok in H as ([a' b] & Hd & H).
  apply bind_Ok in H as (old & Hold & H). injection H as <-.
  unfold deref in Hd. apply bind_Ok in Hd as (a'' & Ha' & Hd).
  apply bind_Ok in Hd as (b'' & Hb & Hd). injection Hd as -> ->.
  apply from_option_Ok in Hb.
  assert (H1' : (forall a j x, read_slot e a j = Ok x -> read_slot e1 a j = Ok x) /\
                log2SieveSize_ e1 = log2SieveSize_ e /\
                moduloSieveSize_ e1 = moduloSieveSize_ e).
  { destruct (stock_ e).
    - injection H1 as <-. done.
    - unfold allocate in H1. destruct BUCKETS_PER_ALLOC; [done|]. injection H1 as <-.
      simpl. split; [|done]. intros a j x. unfold read_slot. simpl.
      intros Hx. apply bind_Ok in Hx as (b0 & Hb0%from_option_Ok & Hx).
      rewrite (lookup_app_l_Some _ _ _ _ Hb0). done. }
  destruct H1' as (Hr & HL & HM). split; [|done].
  intros a j x Hx. apply Hr in Hx.
  apply (read_slot_insert (set_stock (next_ b) e1) a' b (Bucket_setNext old b) []) in Hx;
    [exact Hx|done|simpl; by rewrite app_nil_r].
Qed.

Lemma storeOrPush_frame (segment : Z) (t : WheelPrime) (e e' : EratBig) :
  storeOrPush BUCKETSIZE BUCKETS_PER_ALLOC segment t e = Ok e' ->
  (forall a j x, read_slot e a j = Ok x -> read_slot e' a j = Ok x) /\
  log2SieveSize_ e' = log2SieveSize_ e /\
  moduloSieveSize_ e' = moduloSieveSize_ e.
Proof.
  unfold storeOrPush. intros H.
  apply bind_Ok in H as (p & Hp & H).
  apply bind_Ok in H as ([a b] & Hd & H).
  apply bind_Ok in H as ([room b'] & Hs & H).
  unfold deref in Hd. apply bind_Ok in Hd as (a'' & Ha' & Hd).
  apply bind_Ok in Hd as (b'' & Hb & Hd). injection Hd as -> ->.
  apply from_option_Ok in Hb.
  unfold Bucket_store in Hs. destruct (_ <? _)%nat; [|done]. injection Hs as <- <-.
  assert (Hw : forall a0 j x, read_slot e a0 j = Ok x ->
     read_slot (set_heap (<[a := mkBucket (wheelPrimes_ b ++ [t]) (next_ b)]> (heap e)) e) a0 j = Ok x).
  { intros a0 j x. by apply (read_slot_insert e a b _ [t]). }
  destruct (negb _).
  - injection H as <-. done.
  - apply pushBucket_frame in H as (Hr & HL & HM). split; [|done].
    intros a0 j x Hx. apply Hr, Hw, Hx.
Qed.

Lemma route_frame (e e' : EratBig) (p m w : Z) :
  route BUCKETSIZE BUCKETS_PER_ALLOC e p m w = Ok e' ->
  (forall a j x, read_slot e a j = Ok x -> read_slot e' a j = Ok x) /\
  log2SieveSize_ e' = log2SieveSize_ e /\
  moduloSieveSize_ e' = moduloSieveSize_ e.
Proof. apply storeOrPush_frame. Qed.

Lemma crossOff_one_frame (bucket i : nat) (s s' : EratBig * sieve_t) :
  crossOff_one WHEEL BUCKETSIZE BUCKETS_PER_ALLOC bucket i s = Ok s' ->
  forall a j x, read_slot s.1 a j = Ok x -> read_slot s'.1 a j = Ok x.
Proof.
  destruct s as [e sieve]. unfold crossOff_one. intros H.
  apply bind_Ok in H as (wp & _ & H).
  apply bind_Ok in H as ([[sieve1 m1] w1] & _ & H).
  apply bind_Ok in H as (e1 & Hr & H). injection H as <-.
  apply route_frame in Hr as (Hr & _). exact Hr.
Qed.

(** One round of the unrolled loop does what two rounds of the plain
    loop do. *)
Lemma crossOff_two_ones (bucket i : nat) (s : EratBig * sieve_t) (x1 : WheelPrime) :
  read_slot s.1 bucket (i + 1) = Ok x1 ->
  same_outcome
    (crossOff_two WHEEL BUCKETSIZE BUCKETS_PER_ALLOC bucket i s)
    (s1 ← crossOff_one WHEEL BUCKETSIZE BUCKETS_PER_ALLOC bucket i s;
     crossOff_one WHEEL BUCKETSIZE BUCKETS_PER_ALLOC bucket (i + 1) s1).
Proof.
  destruct s as [e sieve]. simpl. intros H1.
  unfold crossOff_two, crossOff_one.
  destruct (read_slot e bucket i) as [x0|f]; [|done]. rewrite H1.
  cbn [mbind result_bind].
  destruct (unsetBit WHEEL sieve (getSievingPrime x0) (getMultipleIndex x0) (getWheelIndex x0))
    as [[[sieve1 m0] w0]|f]; [|done].
  cbn [mbind result_bind]. unfold route.
  destruct (storeOrPush _ _ _ _ e) as [e1|f] eqn:Hst.
  - apply storeOrPush_frame in Hst as (Hr & HL & HM).
    cbn [mbind result_bind]. rewrite (Hr _ _ _ H1). cbn [mbind result_bind].
    rewrite HL, HM. apply same_outcome_refl.
  - cbn [mbind result_bind].
    destruct (unsetBit WHEEL sieve1 _ _ _) as [[[sieve2 m1] w1]|f']; done.
Qed.

Lemma crossOff_singles_SS (n bucket i : nat) (s : EratBig * sieve_t) :
  crossOff_singles WHEEL BUCKETSIZE BUCKETS_PER_ALLOC (S (S n)) bucket i s
  = (s1 ← crossOff_one WHEEL BUCKETSIZE BUCKETS_PER_ALLOC bucket i s;
     crossOff_one WHEEL BUCKETSIZE BUCKETS_PER_ALLOC bucket (i + 1) s1)
    ≫= crossOff_singles WHEEL BUCKETSIZE BUCKETS_PER_ALLOC n bucket (i + 2).
Proof.
  cbn [crossOff_singles]. rewrite bind_assoc.
  replace (i + 1 + 1) with (i + 2) by lia. done.
Qed.

Lemma crossOff_two_Ok_frame (bucket i : nat) (s s' : EratBig * sieve_t) :
  crossOff_two WHEEL BUCKETSIZE BUCKETS_PER_ALLOC bucket i s = Ok s' ->
  forall a j x, read_slot s.1 a j = Ok x -> read_slot s'.1 a j = Ok x.
Proof.
  destruct s as [e sieve]. unfold crossOff_two. intros H.
  apply bind_Ok in H as (wp0 & _ & H).
  apply bind_Ok in H as (wp1 & _ & H).
  apply bind_Ok in H as ([[sieve1 m0] w0] & _ & H).
  apply bind_Ok in H as ([[sieve2 m1] w1] & _ & H).
  apply bind_Ok in H as (e1 & Hr1 & H).
  apply bind_Ok in H as (e2 & Hr2 & H). injection H as <-.
  apply storeOrPush_frame in Hr1 as (Hr1 & _).
  apply storeOrPush_frame in Hr2 as (Hr2 & _).
  intros a j x Hx. simpl. apply Hr2, Hr1, Hx.
Qed.

Lemma crossOff_pairs_singles (n bucket i end_ : nat) (s : EratBig * sieve_t) :
  (forall j, j < end_ -> exists x, read_slot s.1 bucket j = Ok x) ->
  i + 2 * n <= end_ < i + 2 * n + 2 ->
  same_outcome
    ('(wPrime, s') ← crossOff_pairs WHEEL BUCKETSIZE BUCKETS_PER_ALLOC n bucket i end_ s;
     if (wPrime =? end_)%nat then Ok s'
     else crossOff_one WHEEL BUCKETSIZE BUCKETS_PER_ALLOC bucket wPrime s')
    (crossOff_singles WHEEL BUCKETSIZE BUCKETS_PER_ALLOC (end_ - i) bucket i s).
Proof.
  revert i s. induction n as [|n IH]; intros i s Hslots Hi.
  - simpl. destruct (Nat.eqb_spec i end_) as [->|Hne].
    + rewrite Nat.sub_diag. simpl. done.
    + replace (end_ - i) with 1 by lia. simpl. rewrite bind_ret_r. apply same_outcome_refl.
  - cbn [crossOff_pairs]. destruct (Nat.leb_spec (i + 2) end_) as [_|]; [|lia].
    replace (end_ - i) with (S (S (end_ - (i + 2)))) by lia.
    rewrite crossOff_singles_SS, bind_assoc.
    destruct (Hslots (i + 1)) as [x1 Hx1]; [lia|].
    apply same_outcome_bind; [by eapply crossOff_two_ones|].
    intros s' Hs'. apply IH; [|lia].
    intros j Hj. destruct (Hslots j Hj) as [x Hx]. exists x.
    eapply crossOff_two_Ok_frame; eassumption.
Qed.


Lemma crossOff_bucket_plain (bucket : nat) (s : EratBig * sieve_t) :
  same_outcome
    (crossOff_bucket WHEEL BUCKETSIZE BUCKETS_PER_ALLOC bucket s)
    (crossOff_bucket_naive WHEEL BUCKETSIZE BUCKETS_PER_ALLOC bucket s).
Proof.
  unfold crossOff_bucket, crossOff_bucket_naive.
  destruct (heap s.1 !! bucket) as [b|] eqn:Hb; [|done].
  cbn [from_option mbind result_bind].
  pose proof (crossOff_pairs_singles (length (wheelPrimes_ b) / 2) bucket 0
                (length (wheelPrimes_ b)) s) as H.
  rewrite Nat.sub_0_r in H. apply H; clear H.
  - intros j Hj. destruct (lookup_lt_is_Some_2 (wheelPrimes_ b) j Hj) as [x Hx].
    exists x. unfold read_slot. rewrite Hb. simpl. by rewrite Hx.
  - pose proof (Nat.div_mod_eq (length (wheelPrimes_ b)) 2) as Hd.
    pose proof (Nat.mod_upper_bound (length (wheelPrimes_ b)) 2) as Hm. lia.
Qed.

End Unrolled.

(** ** One sieving prime of a bucket *)

Lemma unsetBit_Ok (WHEEL : Z -> WheelElement) (sieve : sieve_t) (t : WheelPrime) (r : sieve_t * Z * Z) :
  unsetBit WHEEL sieve (getSievingPrime t) (getMultipleIndex t) (getWheelIndex t) = Ok r <->
  Z.to_nat (getMultipleIndex t) < length sieve /\
  r = (clear_bit WHEEL sieve t, next_multiple WHEEL t, next (WHEEL (getWheelIndex t))).
Proof.
  unfold unsetBit, clear_bit, next_multiple.
  destruct (sieve !! Z.to_nat (getMultipleIndex t)) as [byte|] eqn:Hb; simpl.
  - pose proof (lookup_lt_Some _ _ _ Hb) as Hlt.
    assert (Heq : <[Z.to_nat (getMultipleIndex t) :=
                     Z.ldiff byte (unsetBit_ (WHEEL (getWheelIndex t)))]> sieve
                  = alter (fun byte => Z.ldiff byte (unsetBit_ (WHEEL (getWheelIndex t))))
                          (Z.to_nat (getMultipleIndex t)) sieve).
    { apply list_eq. intros j. destruct (decide (j = Z.to_nat (getMultipleIndex t))) as [->|Hne].
      - rewrite list_lookup_insert_eq, list_lookup_alter_eq, Hb by done. done.
      - rewrite list_lookup_insert_ne, list_lookup_alter_ne by done. done. }
    rewrite Heq. split.
    + intros H. injection H as <-. done.
    + intros [_ ->]. done.
  - apply lookup_ge_None in Hb. split; [done|]. intros [H _]. lia.
Qed.

Section Step.

Variable WHEEL : Z -> WheelElement.
Variable BUCKETSIZE : nat.
Variable BUCKETS_PER_ALLOC : nat.
Hypothesis BUCKETS_PER_ALLOC_pos : 0 < BUCKETS_PER_ALLOC.

Lemma crossOff_one_spec (e : EratBig) ls sk ex (bucket i : nat) (t : WheelPrime) (sieve : sieve_t) :
  wf BUCKETSIZE e ls sk ex ->
  bucket_at (heap e) bucket !! i = Some t ->
  (forall r, crossOff_one WHEEL BUCKETSIZE BUCKETS_PER_ALLOC bucket i (e, sieve) = Ok r ->
     safe WHEEL (log2SieveSize_ e) (length ls) (length sieve) t) /\
  (safe WHEEL (log2SieveSize_ e) (length ls) (length sieve) t ->
   exists e' ls' sk',
     crossOff_one WHEEL BUCKETSIZE BUCKETS_PER_ALLOC bucket i (e, sieve)
       = Ok (e', clear_bit WHEEL sieve t) /\
     wf BUCKETSIZE e' ls' sk' ex /\
     primes_view e' ls'
       = (step_abs WHEEL (log2SieveSize_ e) (moduloSieveSize_ e) (primes_view e ls, sieve) t).1 /\
     (forall x, x ∈ ex -> heap e' !! x = heap e !! x) /\
     grows BUCKETS_PER_ALLOC e e').
Proof.
  intros Hwf Ht.
  assert (Hread : read_slot e bucket i = Ok t).
  { unfold read_slot, bucket_at in *. destruct (heap e !! bucket); simpl; [|done]. by rewrite Ht. }
  pose proof (Forall2_length _ _ _ (wf_lists _ _ _ _ (wf_wf_core _ _ _ _ _ Hwf))) as Hlen.
  unfold crossOff_one. rewrite Hread. cbn [mbind result_bind]. split.
  - intros r H. apply bind_Ok in H as ([[sieve1 m1] w1] & Hu & H).
    apply unsetBit_Ok in Hu as [Hm Hu]. injection Hu as -> -> ->.
    apply bind_Ok in H as (e1 & Hr & _). split; [done|].
    unfold route, storeOrPush in Hr. apply bind_Ok in Hr as (p & Hp & _).
    unfold list_at in Hp. apply from_option_Ok in Hp. apply lookup_lt_Some in Hp.
    unfold target. lia.
  - intros [Hm Htg].
    assert (Hu : unsetBit WHEEL sieve (getSievingPrime t) (getMultipleIndex t) (getWheelIndex t)
                 = Ok (clear_bit WHEEL sieve t, next_multiple WHEEL t, next (WHEEL (getWheelIndex t)))).
    { by apply unsetBit_Ok. }
    rewrite Hu. cbn [mbind result_bind]. unfold route.
    destruct (storeOrPush_view BUCKETSIZE BUCKETS_PER_ALLOC BUCKETS_PER_ALLOC_pos e ls sk ex
                (Z.shiftr (next_multiple WHEEL t) (log2SieveSize_ e))
                (moved WHEEL (moduloSieveSize_ e) t) Hwf Htg)
      as (e' & ls' & sk' & Hst & Hwf' & Hview & Hframe & Hgrows).
    exists e', ls', sk'. unfold moved in Hst. rewrite Hst. done.
Qed.


Lemma wf_grows_length (e e' : EratBig) ls sk ex ls' sk' ex' :
  wf BUCKETSIZE e ls sk ex -> wf BUCKETSIZE e' ls' sk' ex' ->
  grows BUCKETS_PER_ALLOC e e' -> length ls' = length ls.
Proof.
  intros Hwf Hwf' (k & _ & _ & Hl & _).
  pose proof (Forall2_length _ _ _ (wf_lists _ _ _ _ (wf_wf_core _ _ _ _ _ Hwf))).
  pose proof (Forall2_length _ _ _ (wf_lists _ _ _ _ (wf_wf_core _ _ _ _ _ Hwf'))).
  congruence.
Qed.

Lemma clear_bit_length (sieve : sieve_t) (t : WheelPrime) :
  length (clear_bit WHEEL sieve t) = length sieve.
Proof. unfold clear_bit. apply length_alter. Qed.

(** The plain loop over the sieving primes [i .. i + n) of a bucket that
    is off its list. *)
Lemma crossOff_singles_spec (n i bucket : nat) (ts : list WheelPrime)
    (e : EratBig) ls sk ex (sieve : sieve_t) :
  wf BUCKETSIZE e ls sk ex ->
  bucket ∈ ex ->
  bucket_at (heap e) bucket = ts ->
  i + n = length ts ->
  (forall r, crossOff_singles WHEEL BUCKETSIZE BUCKETS_PER_ALLOC n bucket i (e, sieve) = Ok r ->
     Forall (safe WHEEL (log2SieveSize_ e) (length ls) (length sieve)) (drop i ts)) /\
  (Forall (safe WHEEL (log2SieveSize_ e) (length ls) (length sieve)) (drop i ts) ->
   exists e' ls' sk' sieve',
     crossOff_singles WHEEL BUCKETSIZE BUCKETS_PER_ALLOC n bucket i (e, sieve) = Ok (e', sieve') /\
     wf BUCKETSIZE e' ls' sk' ex /\
     (primes_view e' ls', sieve')
       = foldl (step_abs WHEEL (log2SieveSize_ e) (moduloSieveSize_ e))
               (primes_view e ls, sieve) (drop i ts) /\
     (forall x, x ∈ ex -> heap e' !! x = heap e !! x) /\
     grows BUCKETS_PER_ALLOC e e').
Proof.
  revert i e ls sk sieve. induction n as [|n IH]; intros i e ls sk sieve Hwf Hin Hts Hlen.
  - rewrite drop_ge by lia. split; [constructor|]. intros _.
    exists e, ls, sk, sieve. simpl. split; [done|]. split; [done|]. split; [done|].
    split; [done|]. apply grows_refl.
  - destruct (lookup_lt_is_Some_2 ts i) as [t Ht]; [lia|].
    rewrite (drop_S _ _ _ Ht).
    pose proof Ht as Ht'. rewrite <- Hts in Ht'.
    destruct (crossOff_one_spec e ls sk ex bucket i t sieve Hwf Ht') as [Hone1 Hone2].
    (* what holds after a successful first round *)
    assert (Hnext : safe WHEEL (log2SieveSize_ e) (length ls) (length sieve) t ->
      exists e1 ls1 sk1,
        crossOff_one WHEEL BUCKETSIZE BUCKETS_PER_ALLOC bucket i (e, sieve)
          = Ok (e1, clear_bit WHEEL sieve t) /\
        wf BUCKETSIZE e1 ls1 sk1 ex /\
        primes_view e1 ls1
          = (step_abs WHEEL (log2SieveSize_ e) (moduloSieveSize_ e) (primes_view e ls, sieve) t).1 /\
        (forall x, x ∈ ex -> heap e1 !! x = heap e !! x) /\
        grows BUCKETS_PER_ALLOC e e1 /\
        bucket_at (heap e1) bucket = ts /\
        log2SieveSize_ e1 = log2SieveSize_ e /\
        moduloSieveSize_ e1 = moduloSieveSize_ e /\
        length ls1 = length ls).
    { intros Hsafe. destruct (Hone2 Hsafe) as (e1 & ls1 & sk1 & H1 & Hwf1 & Hv1 & Hf1 & Hg1).
      exists e1, ls1, sk1. repeat (split; [done|]). split.
      { unfold bucket_at. rewrite (Hf1 _ Hin). exact Hts. }
      pose proof (wf_grows_length _ _ _ _ _ _ _ _ Hwf Hwf1 Hg1).
      destruct Hg1 as (k & _ & _ & _ & HL & HM). done. }
    cbn [crossOff_singles]. split.
    + intros r H. apply bind_Ok in H as (r1 & H1 & H).
      pose proof (Hone1 _ H1) as Hsafe. constructor; [done|].
      destruct (Hnext Hsafe) as (e1 & ls1 & sk1 & H1' & Hwf1 & Hv1 & Hf1 & Hg1 & Hts1 & HL & HM & Hl1).
      rewrite H1 in H1'. injection H1' as ->.
      destruct (IH (i + 1) e1 ls1 sk1 (clear_bit WHEEL sieve t) Hwf1 Hin Hts1 ltac:(lia)) as [IH1 _].
      specialize (IH1 _ H). rewrite HL, Hl1, clear_bit_length in IH1.
      by rewrite Nat.add_1_r in IH1.
    + intros Hall. apply Forall_cons in Hall as [Hsafe Hall].
      destruct (Hnext Hsafe) as (e1 & ls1 & sk1 & H1' & Hwf1 & Hv1 & Hf1 & Hg1 & Hts1 & HL & HM & Hl1).
      destruct (IH (i + 1) e1 ls1 sk1 (clear_bit WHEEL sieve t) Hwf1 Hin Hts1 ltac:(lia)) as [_ IH2].
      rewrite HL, HM, Hl1, clear_bit_length, Nat.add_1_r in IH2.
      destruct (IH2 Hall) as (e' & ls' & sk' & sieve' & H2 & Hwf' & Hv' & Hf' & Hg').
      exists e', ls', sk', sieve'. rewrite H1'. cbn [mbind result_bind].
      rewrite Nat.add_1_r. split; [done|]. split; [done|]. split.
      { rewrite Hv'. simpl. rewrite Hv1. done. }
      split.
      { intros x Hx. rewrite Hf', Hf1; done. }
      eapply grows_trans; eassumption.
Qed.


(** The loop of EratBig.cpp:158-199 over a bucket that is off its list. *)
Lemma crossOff_bucket_spec (bucket : nat) (e : EratBig) ls sk ex (sieve : sieve_t) :
  wf BUCKETSIZE e ls sk ex ->
  bucket ∈ ex ->
  (forall r, crossOff_bucket WHEEL BUCKETSIZE BUCKETS_PER_ALLOC bucket (e, sieve) = Ok r ->
     Forall (safe WHEEL (log2SieveSize_ e) (length ls) (length sieve))
            (bucket_at (heap e) bucket)) /\
  (Forall (safe WHEEL (log2SieveSize_ e) (length ls) (length sieve))
          (bucket_at (heap e) bucket) ->
   exists e' ls' sk' sieve',
     crossOff_bucket WHEEL BUCKETSIZE BUCKETS_PER_ALLOC bucket (e, sieve) = Ok (e', sieve') /\
     wf BUCKETSIZE e' ls' sk' ex /\
     (primes_view e' ls', sieve')
       = foldl (step_abs WHEEL (log2SieveSize_ e) (moduloSieveSize_ e))
               (primes_view e ls, sieve) (bucket_at (heap e) bucket) /\
     (forall x, x ∈ ex -> heap e' !! x = heap e !! x) /\
     grows BUCKETS_PER_ALLOC e e').
Proof.
  intros Hwf Hin.
  pose proof (crossOff_bucket_plain WHEEL BUCKETSIZE BUCKETS_PER_ALLOC bucket (e, sieve)) as Hsame.
  assert (Hnaive : crossOff_bucket_naive WHEEL BUCKETSIZE BUCKETS_PER_ALLOC bucket (e, sieve)
    = crossOff_singles WHEEL BUCKETSIZE BUCKETS_PER_ALLOC
        (length (bucket_at (heap e) bucket)) bucket 0 (e, sieve)).
  { unfold crossOff_bucket_naive, bucket_at. simpl.
    pose proof (wf_detached _ _ _ _ (wf_wf_core _ _ _ _ _ Hwf)) as Hd.
    rewrite Forall_forall in Hd. apply Hd in Hin.
    destruct (lookup_lt_is_Some_2 _ _ Hin) as [b Hb]. rewrite Hb. done. }
  rewrite Hnaive in Hsame.
  destruct (crossOff_singles_spec (length (bucket_at (heap e) bucket)) 0 bucket
              (bucket_at (heap e) bucket) e ls sk ex sieve Hwf Hin eq_refl eq_refl) as [H1 H2].
  rewrite drop_0 in H1, H2. split.
  - intros r Hr. apply (same_outcome_Ok _ _ r Hsame) in Hr. eauto.
  - intros Hall. destruct (H2 Hall) as (e' & ls' & sk' & sieve' & Hs & Hrest).
    exists e', ls', sk', sieve'. split; [|done]. by apply (same_outcome_Ok _ _ _ Hsame).
Qed.

(** EratBig.cpp:136-140: the processed bucket is reset and becomes the
    first bucket of the stock. *)
Lemma recycle_spec (e : EratBig) ls sk ex (a : nat) (b : Bucket) :
  wf BUCKETSIZE e ls sk (a :: ex) ->
  heap e !! a = Some b ->
  let e' := set_stock (Some a)
              (set_heap (<[a := Bucket_setNext (stock_ e) (Bucket_reset b)]> (heap e)) e) in
  wf BUCKETSIZE e' ls (a :: sk) ex /\
  primes_view e' ls = primes_view e ls /\
  (forall x, x <> a -> heap e' !! x = heap e !! x) /\
  grows BUCKETS_PER_ALLOC e e'.
Proof.
  intros [Hcore Hroom Htails] Hb e'.
  pose proof (wf_nodup _ _ _ _ Hcore) as Hnd.
  assert (Hperm : mjoin ls ++ sk ++ a :: ex ≡ₚ a :: mjoin ls ++ sk ++ ex).
  { rewrite !app_assoc. symmetry. apply Permutation_middle. }
  assert (Hnd' : NoDup (a :: mjoin ls ++ sk ++ ex)) by (by rewrite <- Hperm).
  apply NoDup_cons in Hnd' as [Ha Hnd'].
  assert (Ha_ls : a ∉ mjoin ls) by (rewrite !elem_of_app in Ha; tauto).
  assert (Ha_sk : a ∉ sk) by (rewrite !elem_of_app in Ha; tauto).
  assert (Halt : a < length (heap e)) by (eapply lookup_lt_Some; eassumption).
  assert (Hsame : forall x, x <> a -> heap e' !! x = heap e !! x).
  { intros x Hx. simpl. by apply list_lookup_insert_ne. }
  assert (Hbsame : forall l : list nat, a ∉ l -> forall x, x ∈ l -> bucket_at (heap e') x = bucket_at (heap e) x).
  { intros l Hl x Hx. unfold bucket_at. rewrite Hsame; [done|]. intros ->. done. }
  assert (Hin_ls : forall (j : nat) (lj : list nat), ls !! j = Some lj -> a ∉ lj).
  { intros j lj Hj Hin. apply Ha_ls. eapply elem_of_join_lookup; eassumption. }
  split; [|split; [|split; [done|]]].
  - constructor; [constructor|..]; simpl.
    + eapply Forall2_same_length_lookup. split; [eapply Forall2_length, (wf_lists _ _ _ _ Hcore)|].
      intros j p lj Hp Hj. apply is_chain_frame; [by eapply Hin_ls|].
      eapply Forall2_lookup_lr; [apply (wf_lists _ _ _ _ Hcore)|done..].
    + split; [done|]. rewrite list_lookup_insert_eq by done. simpl.
      apply is_chain_frame; [done|]. apply (wf_stock _ _ _ _ Hcore).
    + rewrite <- Permutation_middle, <- Hperm. exact Hnd.
    + constructor.
      * by rewrite bucket_at_insert_eq.
      * pose proof (wf_stock_empty _ _ _ _ Hcore) as He. rewrite Forall_forall in He |- *.
        intros x Hx. rewrite bucket_at_insert_ne; [auto|]. intros ->. done.
    + rewrite length_insert. pose proof (wf_detached _ _ _ _ Hcore) as Hd.
      by apply Forall_cons in Hd as [_ ?].
    + rewrite length_insert. intros x Hx. apply (wf_all _ _ _ _ Hcore) in Hx.
      clear -Hx. set_solver.
    + apply Forall_lookup_2. intros j lj Hj. eapply head_has_room_ext.
      * apply Hbsame. by eapply Hin_ls.
      * eapply Forall_lookup_1; eassumption.
    + apply Forall_lookup_2. intros j lj Hj. eapply tail_nonempty_ext.
      * apply Hbsame. by eapply Hin_ls.
      * eapply Forall_lookup_1; eassumption.
  - unfold primes_view. apply list_fmap_ext. intros j lj Hj. apply primes_of_ext.
    apply Hbsame. by eapply Hin_ls.
  - exists 0. simpl. rewrite app_nil_r, length_insert. repeat split; try done; lia.
Qed.


Lemma foldl_step_abs_length (L modS : Z) (T : list WheelPrime)
    (s : list (gmultiset WheelPrime) * list Z) :
  length (foldl (step_abs WHEEL L modS) s T).1 = length s.1 /\
  length (foldl (step_abs WHEEL L modS) s T).2 = length s.2.
Proof.
  revert s. induction T as [|t T IH]; intros s; cbn [foldl]; [done|].
  destruct (IH (step_abs WHEEL L modS s t)) as [IH1 IH2].
  rewrite IH1, IH2. unfold step_abs. simpl. rewrite length_alter, clear_bit_length. done.
Qed.

Lemma is_chain_None_inv (h : list Bucket) (l : list nat) : is_chain h None l -> l = [].
Proof. destruct l as [|a l]; simpl; [done|]. by intros [? _]. Qed.

(** EratBig.cpp:133-141 over the buckets [ex] taken off list 0. *)
Lemma crossOff_chain_spec (ex : list nat) (fuel bucket : nat)
    (e : EratBig) ls sk (sieve : sieve_t) :
  wf BUCKETSIZE e ls sk ex ->
  is_chain (heap e) (Some bucket) ex ->
  (forall r, crossOff_chain WHEEL BUCKETSIZE BUCKETS_PER_ALLOC fuel bucket (e, sieve) = Ok r ->
     Forall (safe WHEEL (log2SieveSize_ e) (length ls) (length sieve))
            (mjoin (bucket_at (heap e) <$> ex)) /\
     length ex <= fuel) /\
  (Forall (safe WHEEL (log2SieveSize_ e) (length ls) (length sieve))
          (mjoin (bucket_at (heap e) <$> ex)) ->
   length ex <= fuel ->
   exists e' ls' sk' sieve',
     crossOff_chain WHEEL BUCKETSIZE BUCKETS_PER_ALLOC fuel bucket (e, sieve) = Ok (e', sieve') /\
     wf BUCKETSIZE e' ls' sk' [] /\
     (primes_view e' ls', sieve')
       = foldl (step_abs WHEEL (log2SieveSize_ e) (moduloSieveSize_ e))
               (primes_view e ls, sieve) (mjoin (bucket_at (heap e) <$> ex)) /\
     grows BUCKETS_PER_ALLOC e e').
Proof.
  revert fuel bucket e ls sk sieve.
  induction ex as [|a ex IH]; intros fuel bucket e ls sk sieve Hwf Hchain; [done|].
  simpl in Hchain. destruct Hchain as [Hbucket Hchain]. injection Hbucket as ->.
  destruct (heap e !! a) as [b|] eqn:Hb; [|done].
  destruct fuel as [|fuel].
  { split; [done|]. simpl. lia. }
  cbn [fmap list_fmap mjoin list_join].
  assert (Ha_in : a ∈ a :: ex) by (by left).
  destruct (crossOff_bucket_spec a e ls sk (a :: ex) sieve Hwf Ha_in) as [Hb1 Hb2].
  pose proof (wf_nodup _ _ _ _ (wf_wf_core _ _ _ _ _ Hwf)) as Hnd.
  assert (Ha_ex : a ∉ ex).
  { apply NoDup_app in Hnd as (_ & _ & Hnd). apply NoDup_app in Hnd as (_ & _ & Hnd).
    by apply NoDup_cons in Hnd as [? _]. }
  (* what holds after the first bucket has been processed and recycled *)
  assert (Hnext :
    Forall (safe WHEEL (log2SieveSize_ e) (length ls) (length sieve)) (bucket_at (heap e) a) ->
    exists e1 e2 ls1 sk1 sieve1,
      crossOff_bucket WHEEL BUCKETSIZE BUCKETS_PER_ALLOC a (e, sieve) = Ok (e1, sieve1) /\
      heap e1 !! a = Some b /\
      e2 = set_stock (Some a)
             (set_heap (<[a := Bucket_setNext (stock_ e1) (Bucket_reset b)]> (heap e1)) e1) /\
      wf BUCKETSIZE e2 ls1 (a :: sk1) ex /\
      (primes_view e2 ls1, sieve1)
        = foldl (step_abs WHEEL (log2SieveSize_ e) (moduloSieveSize_ e))
                (primes_view e ls, sieve) (bucket_at (heap e) a) /\
      (forall x, x ∈ ex -> heap e2 !! x = heap e !! x) /\
      grows BUCKETS_PER_ALLOC e e2 /\
      log2SieveSize_ e2 = log2SieveSize_ e /\
      moduloSieveSize_ e2 = moduloSieveSize_ e /\
      length ls1 = length ls /\
      length sieve1 = length sieve).
  { intros Hsafe. destruct (Hb2 Hsafe) as (e1 & ls1 & sk1 & sieve1 & H1 & Hwf1 & Hv1 & Hf1 & Hg1).
    assert (Hb' : heap e1 !! a = Some b) by (rewrite Hf1; done).
    destruct (recycle_spec e1 ls1 sk1 ex a b Hwf1 Hb') as (Hwf2 & Hv2 & Hf2 & Hg2).
    eexists e1, _, ls1, sk1, sieve1. split; [done|]. split; [done|]. split; [reflexivity|].
    split; [done|]. split; [by rewrite Hv2|]. split.
    { intros x Hx. rewrite Hf2 by (intros ->; done). apply Hf1. by right. }
    pose proof (grows_trans _ _ _ _ Hg1 Hg2) as Hg. split; [done|].
    pose proof (wf_grows_length _ _ _ _ _ _ _ _ Hwf Hwf2 Hg) as Hl.
    destruct Hg as (k & _ & _ & _ & HL & HM). split; [done|]. split; [done|]. split; [done|].
    pose proof (foldl_step_abs_length (log2SieveSize_ e) (moduloSieveSize_ e)
                  (bucket_at (heap e) a) (primes_view e ls, sieve)) as [_ Hlen].
    rewrite <- Hv1 in Hlen. done. }
  assert (Hrest : forall e2, (forall x, x ∈ ex -> heap e2 !! x = heap e !! x) ->
            is_chain (heap e2) (next_ b) ex /\
            bucket_at (heap e2) <$> ex = bucket_at (heap e) <$> ex).
  { intros e2 Hf. split.
    - eapply is_chain_ext; [|exact Hchain]. intros x Hx. left. by apply Hf.
    - apply list_fmap_ext. intros j x Hx. unfold bucket_at. rewrite Hf; [done|].
      eapply list_elem_of_lookup_2; eassumption. }
  cbn [crossOff_chain]. split.
  - intros r H. apply bind_Ok in H as ([e1 sieve1] & H1 & H).
    pose proof (Hb1 _ H1) as Hsafe.
    destruct (Hnext Hsafe) as (e1' & e2 & ls1 & sk1 & sieve1' & H1' & Hb' & He2 & Hwf2 & Hv2
                               & Hf2 & Hg2 & HL & HM & Hl & Hs).
    rewrite H1 in H1'. injection H1' as <- <-.
    unfold deref in H. simpl in H. rewrite Hb' in H. simpl in H. rewrite <- He2 in H.
    destruct (Hrest e2 Hf2) as [Hc2 Hcont].
    destruct (next_ b) as [a'|] eqn:Hnb.
    + destruct (IH fuel a' e2 ls1 (a :: sk1) sieve1 Hwf2 Hc2) as [IH1 _].
      destruct (IH1 _ H) as [Hall Hfuel]. rewrite HL, Hl, Hs, Hcont in Hall.
      split; [by apply Forall_app|]. simpl. lia.
    + apply is_chain_None_inv in Hc2 as ->. simpl. rewrite app_nil_r. split; [done|lia].
  - intros Hall Hfuel. apply Forall_app in Hall as [Hsafe Hall].
    destruct (Hnext Hsafe) as (e1 & e2 & ls1 & sk1 & sieve1 & H1 & Hb' & He2 & Hwf2 & Hv2
                               & Hf2 & Hg2 & HL & HM & Hl & Hs).
    rewrite H1. cbn [mbind result_bind]. unfold deref. simpl. rewrite Hb'. simpl.
    rewrite <- He2. destruct (Hrest e2 Hf2) as [Hc2 Hcont].
    rewrite foldl_app, <- Hv2.
    destruct (next_ b) as [a'|] eqn:Hnb.
    + destruct (IH fuel a' e2 ls1 (a :: sk1) sieve1 Hwf2 Hc2) as [_ IH2].
      rewrite HL, HM, Hl, Hs, Hcont in IH2.
      destruct (IH2 Hall ltac:(simpl in Hfuel; lia)) as (e' & ls' & sk' & sieve' & H2 & Hwf' & Hv' & Hg').
      exists e', ls', sk', sieve'. split; [done|]. split; [done|]. split; [done|].
      eapply grows_trans; eassumption.
    + apply is_chain_None_inv in Hc2 as ->. simpl.
      exists e2, ls1, (a :: sk1), sieve1. done.
Qed.


(** EratBig.cpp:130-132: list 0 is taken off and an empty bucket takes
    its place. *)
Lemma detach_spec (fuel : nat) (e : EratBig) ls sk (sieve : sieve_t) (l0 : list nat) :
  wf BUCKETSIZE e ls sk [] ->
  ls !! 0 = Some l0 ->
  exists a0 e_p a' sk',
    crossOff_pass WHEEL BUCKETSIZE BUCKETS_PER_ALLOC fuel (e, sieve)
      = crossOff_chain WHEEL BUCKETSIZE BUCKETS_PER_ALLOC fuel a0 (e_p, sieve) /\
    wf BUCKETSIZE e_p (<[0 := [a']]> ls) sk' l0 /\
    is_chain (heap e_p) (Some a0) l0 /\
    primes_view e_p (<[0 := [a']]> ls) = <[0 := ∅]> (primes_view e ls) /\
    bucket_at (heap e_p) <$> l0 = bucket_at (heap e) <$> l0 /\
    log2SieveSize_ e_p = log2SieveSize_ e /\
    moduloSieveSize_ e_p = moduloSieveSize_ e /\
    grows BUCKETS_PER_ALLOC e e_p.
Proof.
  intros Hwf Hl0. pose proof Hwf as [Hcore Hroom Htails].
  pose proof (wf_lists _ _ _ _ Hcore) as HF.
  destruct (Forall2_lookup_r _ _ _ _ _ HF Hl0) as (p & Hp & Hc).
  pose proof (Forall_lookup_1 _ _ _ _ Hroom Hl0) as Hr.
  destruct l0 as [|a0 l0']; [done|]. simpl in Hr.
  pose proof Hc as Hc0. simpl in Hc. destruct Hc as [-> Hc].
  destruct (heap e !! a0) as [b0|] eqn:Hb0; [|done].
  set (l0 := a0 :: l0') in *.
  set (e_d := set_lists (<[0 := None]> (lists_ e)) e).
  pose proof (wf_nodup _ _ _ _ Hcore) as Hnd.
  assert (Hcore_d : wf_core e_d (<[0 := []]> ls) sk l0).
  { constructor; simpl.
    - apply Forall2_insert; done.
    - apply (wf_stock _ _ _ _ Hcore).
    - rewrite app_nil_r in Hnd. rewrite (join_insert_nil _ _ _ Hl0) in Hnd.
      eapply NoDup_Permutation_proper; [|exact Hnd].
      rewrite (Permutation_app_comm l0), <- !app_assoc. f_equiv. apply Permutation_app_comm.
    - apply (wf_stock_empty _ _ _ _ Hcore).
    - apply Forall_forall. intros x Hx. eapply chains_valid; [exact HF|].
      eapply elem_of_join_lookup; eassumption.
    - intros x Hx. apply (wf_all _ _ _ _ Hcore) in Hx. rewrite app_nil_r in Hx.
      rewrite (join_insert_nil _ _ _ Hl0) in Hx. clear -Hx. set_solver. }
  assert (Hl0_d : <[0 := []]> ls !! Z.to_nat 0 = Some ([] : list nat)).
  { apply list_lookup_insert_eq. eapply lookup_lt_Some; eassumption. }
  destruct (pushBucket_spec BUCKETS_PER_ALLOC BUCKETS_PER_ALLOC_pos e_d _ sk l0 0%Z [] Hcore_d Hl0_d)
    as (e_p & a' & sk' & Hpush & Hcore_p & Hsk & Ha' & Hempty & Hsame & Hbsame & Hlists & HL & HM).
  change (Z.to_nat 0) with 0 in *. rewrite list_insert_insert_eq in Hcore_p.
  change (heap e_d) with (heap e) in *.
  assert (Hvalid : forall (j : nat) (lj : list nat) x, ls !! j = Some lj -> x ∈ lj -> x < length (heap e)).
  { intros j lj x Hj Hx. eapply chains_valid; [exact HF|]. eapply elem_of_join_lookup; eassumption. }
  assert (Hframe_p : forall x, x ∈ l0 -> heap e_p !! x = heap e !! x).
  { intros x Hx. apply Hsame.
    - by eapply Hvalid.
    - intros ->. apply Ha'. apply elem_of_app. by right. }
  exists a0, e_p, a', sk'. split; [|split; [|split; [|split; [|split; [|split; [done|split; [done|]]]]]]].
  - unfold crossOff_pass, list_at. change (Z.to_nat 0) with 0. rewrite Hp. simpl.
    unfold deref. simpl. rewrite Hb0. simpl. fold e_d. rewrite Hpush. done.
  - constructor; [done| |].
    + apply Forall_lookup_2. intros j lj Hj. destruct (decide (j = 0)) as [->|Hne].
      * rewrite list_lookup_insert_eq in Hj by (eapply lookup_lt_Some; eassumption).
        injection Hj as <-. simpl. rewrite Hempty. simpl. lia.
      * rewrite list_lookup_insert_ne in Hj by done.
        eapply head_has_room_ext; [|eapply Forall_lookup_1; eassumption].
        intros x Hx. apply Hbsame. by eapply Hvalid.
    + apply Forall_lookup_2. intros j lj Hj. destruct (decide (j = 0)) as [->|Hne].
      * rewrite list_lookup_insert_eq in Hj by (eapply lookup_lt_Some; eassumption).
        injection Hj as <-. constructor.
      * rewrite list_lookup_insert_ne in Hj by done.
        eapply tail_nonempty_ext; [|eapply Forall_lookup_1; eassumption].
        intros x Hx. apply Hbsame. by eapply Hvalid.
  - eapply is_chain_ext; [|exact Hc0]. intros x Hx. left. by apply Hframe_p.
  - unfold primes_view. rewrite list_fmap_insert. f_equal.
    + rewrite primes_of_cons, Hempty. done.
    + apply list_fmap_ext. intros j lj Hj. apply primes_of_ext.
      intros x Hx. apply Hbsame. by eapply Hvalid.
  - apply list_fmap_ext. intros j x Hx. unfold bucket_at. rewrite Hframe_p; [done|].
    eapply list_elem_of_lookup_2; eassumption.
  - change (pointers_ e_d) with (pointers_ e) in Hsk.
    change (lists_ e_d) with (<[0 := None]> (lists_ e)) in Hlists.
    destruct Hsk as [(_ & Hh & Hpt)|(_ & _ & Hh & Hpt)].
    + exists 0. simpl. rewrite app_nil_r, Hlists, !length_insert. repeat split; try done; lia.
    + exists 1. simpl. rewrite !Nat.add_0_r, Hlists, !length_insert. repeat split; try done; lia.
Qed.

(** EratBig.cpp:130-141: ... and the buckets taken off are processed. *)
Lemma crossOff_pass_spec (fuel : nat) (e : EratBig) ls sk (sieve : sieve_t) (l0 : list nat) :
  wf BUCKETSIZE e ls sk [] ->
  ls !! 0 = Some l0 ->
  (forall r, crossOff_pass WHEEL BUCKETSIZE BUCKETS_PER_ALLOC fuel (e, sieve) = Ok r ->
     Forall (safe WHEEL (log2SieveSize_ e) (length ls) (length sieve))
            (mjoin (bucket_at (heap e) <$> l0)) /\
     length l0 <= fuel) /\
  (Forall (safe WHEEL (log2SieveSize_ e) (length ls) (length sieve))
          (mjoin (bucket_at (heap e) <$> l0)) ->
   length l0 <= fuel ->
   exists e' ls' sk' sieve',
     crossOff_pass WHEEL BUCKETSIZE BUCKETS_PER_ALLOC fuel (e, sieve) = Ok (e', sieve') /\
     wf BUCKETSIZE e' ls' sk' [] /\
     (primes_view e' ls', sieve')
       = foldl (step_abs WHEEL (log2SieveSize_ e) (moduloSieveSize_ e))
               (<[0 := ∅]> (primes_view e ls), sieve) (mjoin (bucket_at (heap e) <$> l0)) /\
     grows BUCKETS_PER_ALLOC e e').
Proof.
  intros Hwf Hl0.
  destruct (detach_spec fuel e ls sk sieve l0 Hwf Hl0)
    as (a0 & e_p & a' & sk' & Hunfold & Hwf_p & Hchain_p & Hview_p & Hcont & HL & HM & Hgrows_p).
  destruct (crossOff_chain_spec l0 fuel a0 e_p _ sk' sieve Hwf_p Hchain_p) as [Hch1 Hch2].
  rewrite HL, HM, Hcont, length_insert, Hview_p in *.
  rewrite Hunfold. split; [done|].
  intros Hall Hfuel. destruct (Hch2 Hall Hfuel) as (e' & ls' & sk'' & sieve' & H & Hwf' & Hv' & Hg').
  exists e', ls', sk'', sieve'. split; [done|]. split; [done|]. split; [done|].
  eapply grows_trans; eassumption.
Qed.

End Step.

(** ** The loops as sequences of wheel steps *)

Section Steps.

Variable WHEEL : Z -> WheelElement.
Variables L modS : Z.

Lemma foldl_step_abs_steps (T : list WheelPrime) (V : list (gmultiset WheelPrime))
    (sieve : list Z) :
  Forall (safe WHEEL L (length V) (length sieve)) T ->
  0 < length V ->
  rtc (wheel_step WHEEL L modS)
      (alter (fun X => X ⊎ list_to_set_disj T) 0 V, sieve)
      (foldl (step_abs WHEEL L modS) (V, sieve) T).
Proof.
  revert V sieve. induction T as [|t T IH]; intros V sieve Hall Hlen.
  - simpl. rewrite list_alter_id; [done|]. intros X. multiset_solver.
  - apply Forall_cons in Hall as [[Hm Htg] Hall]. cbn [foldl].
    destruct (lookup_lt_is_Some_2 V 0 Hlen) as [X0 HX0].
    eapply rtc_l; [|apply IH].
    + pose proof (wheel_step_intro WHEEL L modS
        (alter (fun X => X ⊎ list_to_set_disj (t :: T)) 0 V) sieve
        (X0 ⊎ list_to_set_disj (t :: T)) t (clear_bit WHEEL sieve t)
        (next_multiple WHEEL t) (next (WHEEL (getWheelIndex t)))) as Hstep.
      rewrite list_lookup_alter_eq, HX0 in Hstep. specialize (Hstep eq_refl).
      rewrite length_alter in Hstep.
      assert (Heq : alter (fun X => {[+ mkWheelPrime (getSievingPrime t)
                              (Z.land (next_multiple WHEEL t) modS)
                              (next (WHEEL (getWheelIndex t))) +]} ⊎ X)
                      (Z.to_nat (Z.shiftr (next_multiple WHEEL t) L))
                      (alter (fun X => X ∖ {[+ t +]}) 0
                         (alter (fun X => X ⊎ list_to_set_disj (t :: T)) 0 V))
                    = alter (fun X => X ⊎ list_to_set_disj T) 0
                        (step_abs WHEEL L modS (V, sieve) t).1).
      { unfold step_abs, moved, target. simpl.
        generalize (Z.to_nat (Z.shiftr (next_multiple WHEEL t) L)). intros tg.
        apply list_eq. intros j. rewrite !list_lookup_alter.
        repeat case_decide; simplify_eq; destruct (V !! _) as [X|]; simpl; try done; f_equal;
          multiset_solver. }
      rewrite Heq in Hstep. apply Hstep.
      * simpl. multiset_solver.
      * apply (proj2 (unsetBit_Ok WHEEL sieve t _)). done.
      * exact Htg.
    + unfold step_abs. simpl. rewrite length_alter, clear_bit_length. exact Hall.
    + unfold step_abs. simpl. by rewrite length_alter.
Qed.

End Steps.

(** ** The [while] loop of crossOff *)

Lemma crossOff_chain_fuel_mono (WHEEL : Z -> WheelElement) (BUCKETSIZE BUCKETS_PER_ALLOC : nat)
    (fuel fuel' bucket : nat) (s r : EratBig * list Z) :
  crossOff_chain WHEEL BUCKETSIZE BUCKETS_PER_ALLOC fuel bucket s = Ok r ->
  fuel <= fuel' ->
  crossOff_chain WHEEL BUCKETSIZE BUCKETS_PER_ALLOC fuel' bucket s = Ok r.
Proof.
  revert fuel' bucket s. induction fuel as [|fuel IH]; intros fuel' bucket s H Hle; [done|].
  destruct fuel' as [|fuel']; [lia|]. cbn [crossOff_chain] in *.
  destruct (crossOff_bucket _ _ _ _ _) as [[e sieve]|]; [|done]. cbn [mbind result_bind] in *.
  destruct (deref e (Some bucket)) as [[old b]|]; [|done]. cbn [mbind result_bind] in *.
  destruct (next_ b); [|done]. apply IH; [done|lia].
Qed.

Lemma crossOff_pass_fuel_mono (WHEEL : Z -> WheelElement) (BUCKETSIZE BUCKETS_PER_ALLOC : nat)
    (fuel fuel' : nat) (s r : EratBig * list Z) :
  crossOff_pass WHEEL BUCKETSIZE BUCKETS_PER_ALLOC fuel s = Ok r ->
  fuel <= fuel' ->
  crossOff_pass WHEEL BUCKETSIZE BUCKETS_PER_ALLOC fuel' s = Ok r.
Proof.
  destruct s as [e sieve]. unfold crossOff_pass. intros H Hle.
  destruct (list_at e 0) as [list|]; [|done]. cbn [mbind result_bind] in *.
  destruct (deref e list) as [[bucket b]|]; [|done]. cbn [mbind result_bind] in *.
  destruct (pushBucket _ _ _) as [e1|]; [|done]. cbn [mbind result_bind] in *.
  eapply crossOff_chain_fuel_mono; eassumption.
Qed.

Lemma crossOff_drain_fuel_mono (WHEEL : Z -> WheelElement) (BUCKETSIZE BUCKETS_PER_ALLOC : nat)
    (fuel fuel' : nat) (s r : EratBig * list Z) :
  crossOff_drain WHEEL BUCKETSIZE BUCKETS_PER_ALLOC fuel s = Ok r ->
  fuel <= fuel' ->
  crossOff_drain WHEEL BUCKETSIZE BUCKETS_PER_ALLOC fuel' s = Ok r.
Proof.
  revert fuel' s. induction fuel as [|fuel IH]; intros fuel' s H Hle; [done|].
  destruct fuel' as [|fuel']; [lia|]. cbn [crossOff_drain] in *.
  destruct (list_pending s.1) as [[|]|]; [|done|done]. cbn [mbind result_bind] in *.
  destruct (crossOff_pass _ _ _ fuel s) as [s1|] eqn:Hp; [|done].
  rewrite (crossOff_pass_fuel_mono _ _ _ fuel fuel' s s1 Hp) by lia.
  cbn [mbind result_bind] in *. apply IH; [done|lia].
Qed.

Section Drain.

Variable WHEEL : Z -> WheelElement.
Variable BUCKETSIZE : nat.
Variable BUCKETS_PER_ALLOC : nat.
Hypothesis BUCKETS_PER_ALLOC_pos : 0 < BUCKETS_PER_ALLOC.

(** The test of the loop, in terms of the buckets of list 0. *)
Lemma list_pending_spec (e : EratBig) ls sk ex (l0 : list nat) :
  wf BUCKETSIZE e ls sk ex ->
  ls !! 0 = Some l0 ->
  exists a0 l0' pending,
    l0 = a0 :: l0' /\
    lists_ e !! 0 = Some (Some a0) /\
    list_pending e = Ok pending /\
    (pending = false ->
       l0' = [] /\ heap e !! a0 = Some (mkBucket [] None)) /\
    (pending = true -> mjoin (bucket_at (heap e) <$> l0) <> []).
Proof.
  intros [Hcore Hroom Htails] Hl0.
  pose proof (wf_lists _ _ _ _ Hcore) as HF.
  destruct (Forall2_lookup_r _ _ _ _ _ HF Hl0) as (p & Hp & Hc).
  pose proof (Forall_lookup_1 _ _ _ _ Hroom Hl0) as Hr.
  pose proof (Forall_lookup_1 _ _ _ _ Htails Hl0) as Ht.
  destruct l0 as [|a0 l0']; [done|]. simpl in Hc. destruct Hc as [-> Hc].
  destruct (heap e !! a0) as [b0|] eqn:Hb0; [|done].
  exists a0, l0', (Bucket_hasNext b0 || negb (Bucket_empty b0)).
  split; [done|]. split; [done|]. split.
  { unfold list_pending, list_at. change (Z.to_nat 0) with 0. rewrite Hp. simpl.
    unfold deref. simpl. rewrite Hb0. done. }
  destruct b0 as [wps nx]. unfold Bucket_hasNext, Bucket_empty. simpl in *. split.
  - intros Hpend. destruct nx; [done|]. destruct wps; [|done].
    apply is_chain_None_inv in Hc. done.
  - intros Hpend Hnil. cbn [fmap list_fmap mjoin list_join] in Hnil.
    apply app_eq_nil in Hnil as [Ha0 Hrest].
    unfold bucket_at in Ha0. rewrite Hb0 in Ha0. simpl in Ha0. subst wps.
    destruct nx as [a1|]; [|done]. destruct l0' as [|a1' l0'']; [done|].
    unfold tail_nonempty in Ht. simpl in Ht. apply Forall_cons in Ht as [Ht _].
    simpl in Hrest. apply app_eq_nil in Hrest as [Ha1 _]. done.
Qed.

Lemma primes_view_pending (e : EratBig) ls (l0 : list nat) :
  ls !! 0 = Some l0 ->
  alter (fun X => X ⊎ list_to_set_disj (mjoin (bucket_at (heap e) <$> l0))) 0
        (<[0 := ∅]> (primes_view e ls))
  = primes_view e ls.
Proof.
  intros Hl0. apply list_eq. intros j. rewrite list_lookup_alter.
  assert (H0 : 0 < length (primes_view e ls)).
  { unfold primes_view. rewrite length_fmap. eapply lookup_lt_Some; eassumption. }
  case_decide as Hj.
  - subst j. rewrite list_lookup_insert_eq by done. unfold primes_view.
    rewrite list_lookup_fmap, Hl0. simpl. f_equal. unfold primes_of. multiset_solver.
  - by rewrite list_lookup_insert_ne.
Qed.

(** C2 and C10 rest on this: a run of the loop that returns has taken
    one wheel step for each sieving prime that was in list 0 or came
    into it, and it leaves list 0 as one empty bucket. *)
Lemma crossOff_drain_steps (fuel : nat) (e : EratBig) ls sk (sieve : list Z)
    (r : EratBig * list Z) :
  wf BUCKETSIZE e ls sk [] ->
  crossOff_drain WHEEL BUCKETSIZE BUCKETS_PER_ALLOC fuel (e, sieve) = Ok r ->
  exists ls' sk' a,
    wf BUCKETSIZE r.1 ls' sk' [] /\
    rtc (wheel_step WHEEL (log2SieveSize_ e) (moduloSieveSize_ e))
        (primes_view e ls, sieve) (primes_view r.1 ls', r.2) /\
    ls' !! 0 = Some [a] /\
    lists_ r.1 !! 0 = Some (Some a) /\
    heap r.1 !! a = Some (mkBucket [] None) /\
    grows BUCKETS_PER_ALLOC e r.1.
Proof.
  revert e ls sk sieve. induction fuel as [|fuel IH]; intros e ls sk sieve Hwf H; [done|].
  cbn [crossOff_drain] in H. apply bind_Ok in H as (pending & Hpend & H). simpl in Hpend.
  assert (Hlen : 0 < length ls).
  { unfold list_pending in Hpend. apply bind_Ok in Hpend as (p & Hp & _).
    unfold list_at in Hp. apply from_option_Ok in Hp. apply lookup_lt_Some in Hp.
    rewrite <- (Forall2_length _ _ _ (wf_lists _ _ _ _ (wf_wf_core _ _ _ _ _ Hwf))). done. }
  destruct (lookup_lt_is_Some_2 ls 0 Hlen) as [l0 Hl0].
  destruct (list_pending_spec e ls sk [] l0 Hwf Hl0)
    as (a0 & l0' & pending' & -> & Hp0 & Hpend' & Hfalse & Htrue).
  rewrite Hpend in Hpend'. injection Hpend' as <-.
  destruct pending.
  - apply bind_Ok in H as (s1 & Hpass & H).
    destruct (crossOff_pass_spec WHEEL BUCKETSIZE BUCKETS_PER_ALLOC BUCKETS_PER_ALLOC_pos
                fuel e ls sk sieve _ Hwf Hl0) as [Hp1 Hp2].
    destruct (Hp1 _ Hpass) as [Hsafe Hfuel].
    destruct (Hp2 Hsafe Hfuel) as (e1 & ls1 & sk1 & sieve1 & Hpass' & Hwf1 & Hv1 & Hg1).
    rewrite Hpass in Hpass'. injection Hpass' as ->.
    destruct (IH e1 ls1 sk1 sieve1 Hwf1 H) as (ls' & sk' & a & Hwf' & Hsteps & Hl' & Hp' & Hb' & Hg').
    exists ls', sk', a. split; [done|]. split.
    { destruct Hg1 as (k & _ & _ & _ & HL & HM). rewrite HL, HM in Hsteps.
      eapply rtc_trans; [|exact Hsteps]. rewrite Hv1.
      rewrite <- (primes_view_pending e ls _ Hl0) at 1.
      apply foldl_step_abs_steps.
      - rewrite length_insert. unfold primes_view. rewrite length_fmap. exact Hsafe.
      - rewrite length_insert. unfold primes_view. rewrite length_fmap. exact Hlen. }
    split; [done|]. split; [done|]. split; [done|]. eapply grows_trans; eassumption.
  - injection H as <-. destruct (Hfalse eq_refl) as [-> Hb0].
    exists ls, sk, a0. simpl. split; [done|]. split; [done|]. split; [done|].
    split; [done|]. split; [done|]. apply grows_refl.
Qed.

End Drain.

(** ** Sizes and the progress of a sieving prime *)

Section Sizes.

Variable WHEEL : Z -> WheelElement.
Variables wheel_size maxFactor maxSievingPrime : Z.
Variable L : Z.
Hypothesis WHEEL_ok : wheel_ok WHEEL wheel_size maxFactor.
Hypothesis L_nonneg : (0 <= L)%Z.
Hypothesis fits : (2 ^ L - 1 + maxSievingPrime * maxFactor + maxFactor < UINT_MODULUS)%Z.

Local Open Scope Z_scope.

Lemma next_multiple_exact (t : WheelPrime) :
  prime_ok wheel_size maxSievingPrime (2 ^ L - 1) t ->
  next_multiple WHEEL t
  = getMultipleIndex t
    + nextMultipleFactor (WHEEL (getWheelIndex t)) * getSievingPrime t
    + correct (WHEEL (getWheelIndex t)) /\
  getMultipleIndex t + 1 <= next_multiple WHEEL t
    <= 2 ^ L - 1 + maxSievingPrime * maxFactor + maxFactor.
Proof.
  intros (Hp & Hm & Hw). destruct (WHEEL_ok _ Hw) as (Hf & Hc & _).
  unfold next_multiple, wrap.
  set (f := nextMultipleFactor (WHEEL (getWheelIndex t))) in *.
  set (c := correct (WHEEL (getWheelIndex t))) in *.
  set (p := getSievingPrime t) in *. set (m := getMultipleIndex t) in *.
  assert (Hfp : 1 <= f * p <= maxSievingPrime * maxFactor) by nia.
  assert (Hpow : 0 < 2 ^ L) by (apply Z.pow_pos_nonneg; lia).
  rewrite (Z.mod_small (f * p)) by lia.
  rewrite (Z.mod_small (m + f * p)) by lia.
  rewrite (Z.mod_small (m + f * p + c)) by lia. lia.
Qed.

Lemma prime_ok_safe (nlists nsieve : nat) (t : WheelPrime) :
  prime_ok wheel_size maxSievingPrime (2 ^ L - 1) t ->
  2 ^ L <= Z.of_nat nsieve ->
  Z.shiftr (2 ^ L - 1 + maxSievingPrime * maxFactor + maxFactor) L < Z.of_nat nlists ->
  safe WHEEL L nlists nsieve t.
Proof.
  intros Hok Hsieve Hhor. destruct (next_multiple_exact t Hok) as [_ Hnm].
  destruct Hok as (Hp & Hm & Hw). split; [lia|]. unfold target.
  rewrite Z.shiftr_div_pow2 in * by done.
  assert (Hpow : 0 < 2 ^ L) by (apply Z.pow_pos_nonneg; lia).
  assert (next_multiple WHEEL t / 2 ^ L
          <= (2 ^ L - 1 + maxSievingPrime * maxFactor + maxFactor) / 2 ^ L)
    by (apply Z.div_le_mono; lia).
  assert (0 <= next_multiple WHEEL t / 2 ^ L) by (apply Z.div_pos; lia).
  lia.
Qed.

Lemma land_modS (x : Z) : Z.land x (2 ^ L - 1) = x mod 2 ^ L.
Proof. rewrite <- Z.land_ones by done. f_equal. rewrite Z.ones_equiv. lia. Qed.

Lemma prime_ok_moved (t : WheelPrime) :
  prime_ok wheel_size maxSievingPrime (2 ^ L - 1) t ->
  prime_ok wheel_size maxSievingPrime (2 ^ L - 1) (moved WHEEL (2 ^ L - 1) t).
Proof.
  intros (Hp & Hm & Hw). destruct (WHEEL_ok _ Hw) as (_ & _ & Hn).
  unfold moved, prime_ok. simpl. rewrite land_modS.
  assert (Hpow : 0 < 2 ^ L) by (apply Z.pow_pos_nonneg; lia).
  pose proof (Z.mod_pos_bound (next_multiple WHEEL t) (2 ^ L) Hpow). lia.
Qed.

(** The step moves a sieving prime forward: when it stays in the
    current segment, its offset has grown. *)
Lemma moved_further (t : WheelPrime) :
  prime_ok wheel_size maxSievingPrime (2 ^ L - 1) t ->
  target WHEEL L t = 0%nat ->
  getMultipleIndex t < getMultipleIndex (moved WHEEL (2 ^ L - 1) t).
Proof.
  intros Hok Htg. destruct (next_multiple_exact t Hok) as [_ Hnm].
  destruct Hok as (Hp & Hm & Hw). unfold target in Htg. unfold moved. simpl.
  rewrite land_modS. rewrite Z.shiftr_div_pow2 in Htg by done.
  assert (Hpow : 0 < 2 ^ L) by (apply Z.pow_pos_nonneg; lia).
  assert (0 <= next_multiple WHEEL t / 2 ^ L) by (apply Z.div_pos; lia).
  assert (Hq : next_multiple WHEEL t / 2 ^ L = 0) by lia.
  pose proof (Z.div_mod (next_multiple WHEEL t) (2 ^ L) ltac:(lia)) as Hdm.
  rewrite Hq in Hdm. lia.
Qed.

Lemma step_abs_ahead (k : Z) (s : list (gmultiset WheelPrime) * list Z) (t : WheelPrime) :
  ahead wheel_size maxSievingPrime (2 ^ L - 1) (k + 1) s.1 ->
  prime_ok wheel_size maxSievingPrime (2 ^ L - 1) t ->
  k <= getMultipleIndex t ->
  ahead wheel_size maxSievingPrime (2 ^ L - 1) (k + 1) (step_abs WHEEL L (2 ^ L - 1) s t).1.
Proof.
  intros [Hall Hlow] Hok Hk. unfold step_abs. simpl. split.
  - intros j X t' Hj Ht'. rewrite list_lookup_alter in Hj. case_decide as Hd.
    + subst j. apply fmap_Some in Hj as (X' & HX' & ->).
      apply gmultiset_elem_of_disj_union in Ht' as [Ht'|Ht'].
      * apply gmultiset_elem_of_singleton in Ht' as ->. by apply prime_ok_moved.
      * eapply Hall; eassumption.
    + eapply Hall; eassumption.
  - intros X t' Hj Ht'. rewrite list_lookup_alter in Hj. case_decide as Hd.
    + rewrite Hd in Hj. apply fmap_Some in Hj as (X' & HX' & ->).
      apply gmultiset_elem_of_disj_union in Ht' as [Ht'|Ht'].
      * apply gmultiset_elem_of_singleton in Ht' as ->.
        pose proof (moved_further t Hok Hd). lia.
      * eapply Hlow; eassumption.
    + eapply Hlow; eassumption.
Qed.

Lemma foldl_step_abs_ahead (k : Z) (T : list WheelPrime)
    (s : list (gmultiset WheelPrime) * list Z) :
  ahead wheel_size maxSievingPrime (2 ^ L - 1) (k + 1) s.1 ->
  Forall (fun t => prime_ok wheel_size maxSievingPrime (2 ^ L - 1) t /\
                   k <= getMultipleIndex t) T ->
  ahead wheel_size maxSievingPrime (2 ^ L - 1) (k + 1) (foldl (step_abs WHEEL L (2 ^ L - 1)) s T).1.
Proof.
  revert s. induction T as [|t T IH]; intros s Hs Hall; [done|].
  apply Forall_cons in Hall as [[Hok Hk] Hall]. cbn [foldl].
  apply IH; [|done]. by apply step_abs_ahead.
Qed.

End Sizes.

(** ** The loop of crossOff comes to an end *)

Lemma sized_grows (BUCKETS_PER_ALLOC : nat) (maxFactor maxSievingPrime : Z)
    (e e' : EratBig) (n : nat) :
  sized maxFactor maxSievingPrime e n -> grows BUCKETS_PER_ALLOC e e' ->
  sized maxFactor maxSievingPrime e' n.
Proof.
  intros [H1 H2 H3 H4 H5 H6 H7] (k & _ & _ & Hl & HL & HM).
  constructor; rewrite ?HL, ?HM, ?Hl; done.
Qed.

Section Termination.

Variable WHEEL : Z -> WheelElement.
Variable BUCKETSIZE : nat.
Variable BUCKETS_PER_ALLOC : nat.
Variables wheel_size maxFactor maxSievingPrime : Z.
Hypothesis BUCKETS_PER_ALLOC_pos : 0 < BUCKETS_PER_ALLOC.
Hypothesis WHEEL_ok : wheel_ok WHEEL wheel_size maxFactor.

Lemma crossOff_drain_total (n : nat) (e : EratBig) ls sk (sieve : list Z) (k : Z) :
  wf BUCKETSIZE e ls sk [] ->
  sized maxFactor maxSievingPrime e (length sieve) ->
  ahead wheel_size maxSievingPrime (moduloSieveSize_ e) k (primes_view e ls) ->
  (2 ^ log2SieveSize_ e <= k + Z.of_nat n)%Z ->
  exists fuel e' sieve' ls' sk',
    crossOff_drain WHEEL BUCKETSIZE BUCKETS_PER_ALLOC fuel (e, sieve) = Ok (e', sieve') /\
    wf BUCKETSIZE e' ls' sk' [] /\
    sized maxFactor maxSievingPrime e' (length sieve') /\
    all_ok wheel_size maxSievingPrime (moduloSieveSize_ e') (primes_view e' ls') /\
    grows BUCKETS_PER_ALLOC e e'.
Proof.
  revert e ls sk sieve k. induction n as [|n IH]; intros e ls sk sieve k Hwf Hsized Hahead Hk.
  all: pose proof Hsized as [Hmf Hpm HL HM Hsv Hfits Hhor].
  all: assert (Hpow : (0 < 2 ^ log2SieveSize_ e)%Z) by (apply Z.pow_pos_nonneg; lia).
  all: pose proof (Forall2_length _ _ _ (wf_lists _ _ _ _ (wf_wf_core _ _ _ _ _ Hwf))) as Hlsl.
  all: assert (Hlen : 0 < length ls)
    by (rewrite Z.shiftr_div_pow2 in Hhor by done;
        assert (0 <= (moduloSieveSize_ e + maxSievingPrime * maxFactor + maxFactor)
                     / 2 ^ log2SieveSize_ e)%Z by (apply Z.div_pos; [nia|done]); lia).
  all: destruct (lookup_lt_is_Some_2 ls 0 Hlen) as [l0 Hl0].
  all: destruct (list_pending_spec BUCKETSIZE e ls sk [] l0 Hwf Hl0)
         as (a0 & l0' & pending & -> & Hp0 & Hpend & Hfalse & Htrue).
  all: destruct Hahead as [Hall Hlow].
  all: assert (Hview0 : primes_view e ls !! 0 = Some (primes_of (heap e) (a0 :: l0')))
         by (unfold primes_view; rewrite list_lookup_fmap, Hl0; done).
  all: assert (HT : forall t, t ∈ mjoin (bucket_at (heap e) <$> a0 :: l0') ->
                prime_ok wheel_size maxSievingPrime (moduloSieveSize_ e) t /\
                (k <= getMultipleIndex t)%Z)
         by (intros t Ht; apply elem_of_list_to_set_disj in Ht;
             split; [eapply Hall|eapply Hlow]; eassumption).
  all: destruct pending.
  2,4: exists 1, e, sieve, ls, sk; cbn [crossOff_drain]; simpl; rewrite Hpend; simpl;
       split; [done|]; split; [done|]; split; [done|]; split; [done|]; apply grows_refl.
  - (* no steps are left, yet a sieving prime is pending: its offset is too large *)
    exfalso. destruct (mjoin (bucket_at (heap e) <$> a0 :: l0')) as [|t T] eqn:HTeq.
    + by apply Htrue.
    + destruct (HT t ltac:(by left)) as [(_ & Hm & _) Hkt]. lia.
  - set (T := mjoin (bucket_at (heap e) <$> a0 :: l0')) in *.
    assert (Hsafe : Forall (safe WHEEL (log2SieveSize_ e) (length ls) (length sieve)) T).
    { apply Forall_forall. intros t Ht. destruct (HT t Ht) as [Hok _]. rewrite HM in Hok.
      eapply prime_ok_safe; try eassumption; rewrite <- ?HM, ?Hlsl in *; try done. }
    destruct (crossOff_pass_spec WHEEL BUCKETSIZE BUCKETS_PER_ALLOC BUCKETS_PER_ALLOC_pos
                (length (a0 :: l0')) e ls sk sieve _ Hwf Hl0) as [_ Hp2].
    destruct (Hp2 Hsafe ltac:(done)) as (e1 & ls1 & sk1 & sieve1 & Hpass & Hwf1 & Hv1 & Hg1).
    fold T in Hv1.
    pose proof (foldl_step_abs_length WHEEL (log2SieveSize_ e) (moduloSieveSize_ e) T
                  (<[0 := ∅]> (primes_view e ls), sieve)) as [_ Hslen].
    rewrite <- Hv1 in Hslen. simpl in Hslen.
    assert (Hsized1 : sized maxFactor maxSievingPrime e1 (length sieve1)).
    { rewrite Hslen. eapply sized_grows; eassumption. }
    pose proof Hg1 as (kk & _ & _ & _ & HL1 & HM1).
    assert (Hahead1 : ahead wheel_size maxSievingPrime (moduloSieveSize_ e1) (k + 1)
                        (primes_view e1 ls1)).
    { replace (primes_view e1 ls1) with
        (foldl (step_abs WHEEL (log2SieveSize_ e) (moduloSieveSize_ e))
               (<[0 := ∅]> (primes_view e ls), sieve) T).1 by (by rewrite <- Hv1).
      rewrite HM1, HM. apply (foldl_step_abs_ahead WHEEL wheel_size maxFactor); try done.
      - by rewrite <- HM.
      - simpl. split.
        + intros j X t Hj Ht. destruct (decide (j = 0)) as [->|Hne].
          * rewrite list_lookup_insert_eq in Hj
              by (unfold primes_view; rewrite length_fmap; done).
            injection Hj as <-. multiset_solver.
          * rewrite list_lookup_insert_ne in Hj by done. rewrite <- HM. eapply Hall; eassumption.
        + intros X t Hj Ht. rewrite list_lookup_insert_eq in Hj
            by (unfold primes_view; rewrite length_fmap; done).
          injection Hj as <-. multiset_solver.
      - apply Forall_forall. intros t Ht. rewrite <- HM. by apply HT. }
    destruct (IH e1 ls1 sk1 sieve1 (k + 1)%Z Hwf1 Hsized1 Hahead1 ltac:(rewrite HL1; lia))
      as (fuel1 & e' & sieve' & ls' & sk' & Hdrain & Hwf' & Hsized' & Hall' & Hg').
    exists (S (max (length (a0 :: l0')) fuel1)), e', sieve', ls', sk'.
    split; [|split; [done|split; [done|split; [done|eapply grows_trans; eassumption]]]].
    cbn [crossOff_drain]. simpl fst. rewrite Hpend. cbn [mbind result_bind].
    rewrite (crossOff_pass_fuel_mono _ _ _ _ _ _ _ Hpass) by lia. cbn [mbind result_bind].
    eapply crossOff_drain_fuel_mono; [eassumption|lia].
Qed.

End Termination.

(** ** The rotation of [lists_] *)

Lemma rotate_eq (e : EratBig) (p0 : option nat) (rest : list (option nat)) :
  lists_ e = p0 :: rest ->
  rotate e = Ok (set_lists (rest ++ [p0]) e).
Proof.
  intros Hl. unfold rotate, list_at. rewrite Hl. simpl. f_equal. f_equal.
  rewrite Nat.sub_0_r.
  assert (Hlast : exists y, drop (length rest) (p0 :: rest) = [y]).
  { destruct (drop (length rest) (p0 :: rest)) as [|y [|z l]] eqn:Hd.
    - apply (f_equal length) in Hd. rewrite length_drop in Hd. simpl in Hd. lia.
    - by exists y.
    - apply (f_equal length) in Hd. rewrite length_drop in Hd. simpl in Hd. lia. }
  destruct Hlast as [y ->]. rewrite drop_0, length_app. simpl.
  replace (length rest + 1 - 1) with (length rest + 0) by lia.
  rewrite insert_app_r. done.
Qed.

Section Rotate.

Variable BUCKETSIZE : nat.
Variable BUCKETS_PER_ALLOC : nat.

Lemma rotate_spec (e : EratBig) (l0 : list nat) (ls : list (list nat)) sk :
  wf BUCKETSIZE e (l0 :: ls) sk [] ->
  exists p0 rest,
    lists_ e = p0 :: rest /\
    rotate e = Ok (set_lists (rest ++ [p0]) e) /\
    wf BUCKETSIZE (set_lists (rest ++ [p0]) e) (ls ++ [l0]) sk [] /\
    primes_view (set_lists (rest ++ [p0]) e) (ls ++ [l0])
      = drop 1 (primes_view e (l0 :: ls)) ++ take 1 (primes_view e (l0 :: ls)) /\
    grows BUCKETS_PER_ALLOC e (set_lists (rest ++ [p0]) e).
Proof.
  intros [[H1 H2 H3 H4 H5 H6] Hroom Htails].
  destruct (lists_ e) as [|p0 rest] eqn:Hl; [by apply Forall2_nil_cons_inv in H1|].
  apply Forall2_cons in H1 as [Hc0 H1].
  assert (Hperm : mjoin (ls ++ [l0]) ≡ₚ mjoin (l0 :: ls)).
  { rewrite join_app. simpl. rewrite app_nil_r. apply Permutation_app_comm. }
  exists p0, rest. split; [done|]. split; [by apply rotate_eq|]. split; [|split].
  - constructor; [constructor|..]; simpl.
    + apply Forall2_app; [done|]. by constructor.
    + done.
    + by rewrite Hperm.
    + done.
    + done.
    + intros a Ha. specialize (H6 a Ha). rewrite !elem_of_app in H6 |- *.
      rewrite Hperm. tauto.
    + apply Forall_cons in Hroom as [? ?]. apply Forall_app. split; [done|]. by constructor.
    + apply Forall_cons in Htails as [? ?]. apply Forall_app. split; [done|]. by constructor.
  - unfold primes_view. simpl. rewrite drop_0, fmap_app. done.
  - exists 0. simpl. rewrite app_nil_r, length_app, Hl. simpl. repeat split; try done; lia.
Qed.

End Rotate.

(** ** Powers of two *)

Local Open Scope Z_scope.

Lemma wrap_small (x : Z) : 0 <= x < UINT_MODULUS -> wrap x = x.
Proof. intros H. unfold wrap. by apply Z.mod_small. Qed.

Lemma isPowerOf2_pow2 (k : Z) :
  0 <= k -> 2 ^ k < UINT_MODULUS -> isPowerOf2 (2 ^ k) = true.
Proof.
  intros Hk Hlt. unfold isPowerOf2.
  assert (Hpos : 0 < 2 ^ k) by (apply Z.pow_pos_nonneg; lia).
  rewrite wrap_small by lia.
  replace (2 ^ k - 1) with (Z.ones k) by (rewrite Z.ones_equiv; lia).
  rewrite Z.land_ones, Z.mod_same by lia.
  destruct (Z.eqb_spec (2 ^ k) 0); [lia|done].
Qed.

Lemma isPowerOf2_inv (x : Z) :
  0 <= x < UINT_MODULUS -> isPowerOf2 x = true -> x = 2 ^ Z.log2 x.
Proof.
  intros Hx H. unfold isPowerOf2 in H. apply andb_true_iff in H as [Hne Hland].
  apply negb_true_iff, Z.eqb_neq in Hne. apply Z.eqb_eq in Hland.
  rewrite wrap_small in Hland by lia.
  assert (Hpos : 0 < x) by lia.
  destruct (Z.log2_spec x Hpos) as [Hlo Hhi].
  destruct (decide (x = 2 ^ Z.log2 x)) as [|Hneq]; [done|exfalso].
  assert (Hp2 : 0 < 2 ^ Z.log2 x) by (apply Z.pow_pos_nonneg; [lia|apply Z.log2_nonneg]).
  assert (Hlog : Z.log2 (x - 1) = Z.log2 x).
  { apply Z.log2_unique; [apply Z.log2_nonneg|]. lia. }
  assert (Hbit : Z.testbit (Z.land x (x - 1)) (Z.log2 x) = true).
  { rewrite Z.land_spec, Z.bit_log2 by done. rewrite <- Hlog.
    rewrite Z.bit_log2 by lia. done. }
  rewrite Hland, Z.bits_0 in Hbit. done.
Qed.

Lemma isPowerOf2_spec (x : Z) :
  0 <= x < UINT_MODULUS ->
  isPowerOf2 x = true <-> exists k, 0 <= k /\ x = 2 ^ k.
Proof.
  intros Hx. split.
  - intros H. exists (Z.log2 x). split; [apply Z.log2_nonneg|]. by apply isPowerOf2_inv.
  - intros (k & Hk & ->). apply isPowerOf2_pow2; [done|lia].
Qed.

Local Close Scope Z_scope.

(** ** The constructor *)

Lemma ceil_div_spec (a b : Z) :
  (0 < b)%Z -> ((ceil_div a b - 1) * b < a <= ceil_div a b * b)%Z.
Proof.
  intros Hb. unfold ceil_div.
  pose proof (Z.div_mod a b ltac:(lia)) as Hdm.
  pose proof (Z.mod_pos_bound a b Hb) as Hm.
  destruct (Z.eqb_spec (a mod b) 0); nia.
Qed.

Lemma ceil_div_shift (a b : Z) :
  (0 < b)%Z -> ((b - 1 + a) / b = ceil_div a b)%Z.
Proof.
  intros Hb. unfold ceil_div.
  pose proof (Z.div_mod a b ltac:(lia)) as Hdm.
  pose proof (Z.mod_pos_bound a b Hb) as Hm.
  destruct (Z.eqb_spec (a mod b) 0) as [H0|Hne].
  - symmetry. apply (Z.div_unique_pos _ _ _ (b - 1)); lia.
  - symmetry. apply (Z.div_unique_pos _ _ _ (a mod b - 1)); lia.
Qed.

Lemma listsSize_eq (maxFactor : Z) (soe : SieveOfEratosthenes) (k : Z) :
  (0 <= k)%Z ->
  getSieveSize soe = (2 ^ k)%Z ->
  (0 <= getSqrtStop soe)%Z ->
  (0 <= maxFactor)%Z ->
  (getSieveSize soe + (getSqrtStop soe / 30 * maxFactor + maxFactor) < UINT_MODULUS)%Z ->
  listsSize maxFactor (ilog2 (getSieveSize soe)) soe
  = (ceil_div (getSqrtStop soe / 30 * maxFactor + maxFactor) (getSieveSize soe) + 1)%Z /\
  ilog2 (getSieveSize soe) = k /\
  listsSize maxFactor (ilog2 (getSieveSize soe)) soe
  = (Z.shiftr (getSieveSize soe - 1 + (getSqrtStop soe / 30 * maxFactor + maxFactor)) k + 1)%Z.
Proof.
  intros Hk HS Hsq Hmf Hfit. unfold listsSize, ilog2, NUMBERS_PER_BYTE.
  rewrite HS in *. rewrite Z.log2_pow2 by done.
  assert (Hpow : (0 < 2 ^ k)%Z) by (apply Z.pow_pos_nonneg; lia).
  assert (Hq : (0 <= getSqrtStop soe / 30)%Z) by (apply Z.div_pos; lia).
  set (M := (getSqrtStop soe / 30 * maxFactor + maxFactor)%Z) in *.
  assert (HM : (0 <= M)%Z) by (unfold M; nia).
  assert (Hprod : (0 <= getSqrtStop soe / 30 * maxFactor <= M)%Z) by (unfold M; nia).
  rewrite (wrap_small (getSqrtStop soe / 30 * maxFactor)) by lia.
  fold M. rewrite (wrap_small M) by lia.
  rewrite (wrap_small (2 ^ k - 1)) by lia.
  rewrite (wrap_small (2 ^ k - 1 + M)) by lia.
  rewrite Z.shiftr_div_pow2 by done.
  assert (Hdiv : (0 <= (2 ^ k - 1 + M) / 2 ^ k <= 2 ^ k - 1 + M)%Z).
  { split; [apply Z.div_pos; lia|]. apply Z.div_le_upper_bound; nia. }
  rewrite wrap_small by lia.
  rewrite ceil_div_shift by done. done.
Qed.

Lemma join_replicate_nil {A : Type} (n : nat) : mjoin (replicate n ([] : list A)) = [].
Proof. induction n as [|n IH]; simpl; [done|]. exact IH. Qed.

(** The members before [init()]: [n] null pointers in [lists_]. *)
Lemma wf_core_start (n : nat) (L modS : Z) :
  wf_core (set_lists (replicate n None) (mkEratBig [] [] None [] L modS))
          (replicate n []) [] [].
Proof.
  constructor; simpl.
  - apply Forall2_same_length_lookup. split; [by rewrite !length_replicate|].
    intros j p l Hp%lookup_replicate_1 Hl%lookup_replicate_1.
    destruct Hp as [-> _], Hl as [-> _]. done.
  - done.
  - rewrite join_replicate_nil. constructor.
  - constructor.
  - constructor.
  - intros a Ha. lia.
Qed.

Section Constructor.

Variable getMaxFactor : Z.
Variable BUCKETSIZE : nat.
Variable BUCKETS_PER_ALLOC : nat.
Hypothesis BUCKETS_PER_ALLOC_pos : 0 < BUCKETS_PER_ALLOC.
Hypothesis BUCKETSIZE_pos : 0 < BUCKETSIZE.

Lemma pushBucket_grows (segment : Z) (e e' : EratBig) :
  pushBucket BUCKETS_PER_ALLOC segment e = Ok e' ->
  grows BUCKETS_PER_ALLOC e e' /\
  ((forall a, bucket_at (heap e) a = []) -> forall a, bucket_at (heap e') a = []).
Proof.
  unfold pushBucket. intros H.
  apply bind_Ok in H as (e1 & H1 & H).
  apply bind_Ok in H as ([a' b] & Hd & H).
  apply bind_Ok in H as (old & Hold & H). injection H as <-.
  unfold deref in Hd. apply bind_Ok in Hd as (a'' & Ha' & Hd).
  apply bind_Ok in Hd as (b'' & Hb & Hd). injection Hd as -> ->.
  apply from_option_Ok in Hb.
  assert (H1' : grows BUCKETS_PER_ALLOC e e1 /\
     ((forall a, bucket_at (heap e) a = []) -> forall a, bucket_at (heap e1) a = [])).
  { destruct (stock_ e).
    - injection H1 as <-. split; [apply grows_refl|done].
    - unfold allocate in H1. destruct BUCKETS_PER_ALLOC as [|n] eqn:HB; [done|].
      rewrite <- HB in *. injection H1 as <-. split.
      + exists 1. simpl. rewrite length_app, new_slab_length, !Nat.add_0_r. done.
      + simpl. intros Hall a. destruct (decide (a < length (heap e))) as [Hlt|Hge].
        * rewrite bucket_at_app by done. apply Hall.
        * apply new_slab_empty. lia. }
  destruct H1' as [Hg He]. split.
  - eapply grows_trans; [exact Hg|]. exists 0. simpl.
    rewrite app_nil_r, !length_insert. repeat split; try done; lia.
  - intros Hall a. specialize (He Hall). simpl.
    destruct (decide (a = a')) as [->|Hne].
    + rewrite bucket_at_insert_eq by (eapply lookup_lt_Some; eassumption). simpl.
      specialize (He a'). unfold bucket_at in He. by rewrite Hb in He.
    + rewrite bucket_at_insert_ne by done. apply He.
Qed.

Lemma init_from_spec (n i : nat) (e : EratBig) ls sk :
  wf_core e ls sk [] ->
  (forall a, bucket_at (heap e) a = []) ->
  length ls = i + n ->
  (forall j l, ls !! j = Some l -> if decide (j < i) then exists a, l = [a] else l = []) ->
  exists e' ls' sk',
    init_from BUCKETS_PER_ALLOC n (Z.of_nat i) e = Ok e' /\
    wf_core e' ls' sk' [] /\
    (forall a, bucket_at (heap e') a = []) /\
    (forall j l, ls' !! j = Some l -> exists a, l = [a]) /\
    grows BUCKETS_PER_ALLOC e e'.
Proof.
  revert i e ls sk. induction n as [|n IH]; intros i e ls sk Hcore Hempty Hlen Hshape.
  - exists e, ls, sk. simpl. split; [done|]. split; [done|]. split; [done|].
    split; [|apply grows_refl]. intros j l Hj. specialize (Hshape j l Hj).
    apply lookup_lt_Some in Hj. destruct (decide (j < i)); [done|lia].
  - assert (Hi : ls !! Z.to_nat (Z.of_nat i) = Some []).
    { rewrite Nat2Z.id. destruct (lookup_lt_is_Some_2 ls i ltac:(lia)) as [l Hl].
      specialize (Hshape i l Hl). destruct (decide (i < i)); [lia|]. by subst. }
    destruct (pushBucket_spec BUCKETS_PER_ALLOC BUCKETS_PER_ALLOC_pos e ls sk [] _ [] Hcore Hi)
      as (e1 & a' & sk1 & Hpush & Hcore1 & _).
    rewrite Nat2Z.id in Hcore1.
    destruct (pushBucket_grows _ _ _ Hpush) as [Hg1 He1].
    destruct (IH (S i) e1 (<[i := [a']]> ls) sk1 Hcore1 (He1 Hempty)) as
      (e' & ls' & sk' & Hinit & Hcore' & Hempty' & Hshape' & Hg').
    + rewrite length_insert. lia.
    + intros j l Hj. destruct (decide (j = i)) as [->|Hne].
      * rewrite list_lookup_insert_eq in Hj by lia. injection Hj as <-.
        destruct (decide (i < S i)); [by exists a'|lia].
      * rewrite list_lookup_insert_ne in Hj by done. specialize (Hshape j l Hj).
        destruct (decide (j < i)), (decide (j < S i)); try done; lia.
    + exists e', ls', sk'. cbn [init_from]. rewrite Hpush. cbn [mbind result_bind].
      rewrite Nat2Z.inj_succ, <- Z.add_1_r in Hinit. split; [done|]. split; [done|].
      split; [done|]. split; [done|]. eapply grows_trans; eassumption.
Qed.

(** Whatever a constructor call returns is well formed: every list is
    one empty bucket. *)
Lemma EratBig_new_wf (soe : SieveOfEratosthenes) (e : EratBig) :
  EratBig_new getMaxFactor BUCKETS_PER_ALLOC soe = Constructed e ->
  exists ls sk,
    wf BUCKETSIZE e ls sk [] /\
    slabs_ok BUCKETS_PER_ALLOC e /\
    (forall a, bucket_at (heap e) a = []) /\
    (forall j l, ls !! j = Some l -> exists a, l = [a]) /\
    isPowerOf2 (getSieveSize soe) = true /\
    log2SieveSize_ e = ilog2 (getSieveSize soe) /\
    moduloSieveSize_ e = wrap (getSieveSize soe - 1) /\
    length (lists_ e)
    = Z.to_nat (listsSize getMaxFactor (ilog2 (getSieveSize soe)) soe).
Proof.
  unfold EratBig_new. cbv zeta.
  destruct (isPowerOf2 (getSieveSize soe)) eqn:Hp2; cbn [negb]; [|done].
  unfold setListsSize, init. simpl.
  set (n := Z.to_nat (listsSize getMaxFactor (ilog2 (getSieveSize soe)) soe)).
  rewrite take_nil, Nat.sub_0_r. simpl app. rewrite length_replicate.
  set (e0 := set_lists (replicate n None)
               (mkEratBig [] [] None [] (ilog2 (getSieveSize soe))
                          (wrap (getSieveSize soe - 1)))).
  pose proof (wf_core_start n (ilog2 (getSieveSize soe)) (wrap (getSieveSize soe - 1))) as Hcore0.
  fold e0 in Hcore0.
  destruct (init_from_spec n 0 e0 (replicate n []) [] Hcore0) as
    (e' & ls & sk & Hinit & Hcore & Hempty & Hshape & Hg).
  { intros a. unfold bucket_at. done. }
  { by rewrite length_replicate. }
  { intros j l Hl%lookup_replicate_1. destruct Hl as [-> _].
    destruct (decide (j < 0)); [lia|done]. }
  change (Z.of_nat 0) with 0%Z in Hinit. rewrite Hinit. intros [= <-].
  exists ls, sk. split.
  { constructor; [done| |].
    - apply Forall_lookup_2. intros j l Hl. destruct (Hshape j l Hl) as [a ->].
      simpl. rewrite Hempty. simpl. done.
    - apply Forall_lookup_2. intros j l Hl. destruct (Hshape j l Hl) as [a ->]. constructor. }
  split.
  { eapply grows_slabs_ok; [exact Hg|]. split; simpl; done. }
  split; [done|]. split; [done|]. split; [done|].
  destruct Hg as (kk & _ & _ & Hl & HL & HM). simpl in Hl, HL, HM.
  rewrite length_replicate in Hl. done.
Qed.

(** A constructor call for a power of two returns an object, unless the
    allocation of the first slab is the fault of a slab size of 0. *)
Lemma EratBig_new_Constructed (soe : SieveOfEratosthenes) :
  isPowerOf2 (getSieveSize soe) = true ->
  exists e, EratBig_new getMaxFactor BUCKETS_PER_ALLOC soe = Constructed e.
Proof.
  intros Hp2. unfold EratBig_new. cbv zeta. rewrite Hp2. cbn [negb].
  unfold setListsSize, init. simpl.
  set (n := Z.to_nat (listsSize getMaxFactor (ilog2 (getSieveSize soe)) soe)).
  rewrite take_nil, Nat.sub_0_r. simpl app. rewrite length_replicate.
  set (e0 := set_lists (replicate n None)
               (mkEratBig [] [] None [] (ilog2 (getSieveSize soe))
                          (wrap (getSieveSize soe - 1)))).
  pose proof (wf_core_start n (ilog2 (getSieveSize soe)) (wrap (getSieveSize soe - 1))) as Hcore0.
  fold e0 in Hcore0.
  destruct (init_from_spec n 0 e0 (replicate n []) [] Hcore0) as
    (e' & ls & sk & Hinit & _).
  { intros a. unfold bucket_at. done. }
  { by rewrite length_replicate. }
  { intros j l Hl%lookup_replicate_1. destruct Hl as [-> _].
    destruct (decide (j < 0)); [lia|done]. }
  change (Z.of_nat 0) with 0%Z in Hinit. rewrite Hinit. by exists e'.
Qed.

End Constructor.

(** ** Calls that return keep the object well formed *)

Section Calls.

Variable WHEEL : Z -> WheelElement.
Variable getMaxFactor : Z.
Variable BUCKETSIZE : nat.
Variable BUCKETS_PER_ALLOC : nat.
Hypothesis BUCKETS_PER_ALLOC_pos : 0 < BUCKETS_PER_ALLOC.
Hypothesis BUCKETSIZE_pos : 0 < BUCKETSIZE.

Lemma storeOrPush_Ok_inv (segment : Z) (t : WheelPrime) (e e' : EratBig) ls sk ex :
  wf BUCKETSIZE e ls sk ex ->
  storeOrPush BUCKETSIZE BUCKETS_PER_ALLOC segment t e = Ok e' ->
  Z.to_nat segment < length ls.
Proof.
  intros Hwf H. unfold storeOrPush in H. apply bind_Ok in H as (p & Hp & _).
  unfold list_at in Hp. apply from_option_Ok, lookup_lt_Some in Hp.
  by rewrite <- (Forall2_length _ _ _ (wf_lists _ _ _ _ (wf_wf_core _ _ _ _ _ Hwf))).
Qed.

Lemma storeSievingPrime_wf (p m w : Z) (e e' : EratBig) ls sk :
  wf BUCKETSIZE e ls sk [] ->
  storeSievingPrime BUCKETSIZE BUCKETS_PER_ALLOC p m w e = Ok e' ->
  exists ls' sk',
    wf BUCKETSIZE e' ls' sk' [] /\
    primes_view e' ls'
    = alter (fun X => {[+ mkWheelPrime p (Z.land m (moduloSieveSize_ e)) w +]} ⊎ X)
            (Z.to_nat (Z.shiftr m (log2SieveSize_ e))) (primes_view e ls) /\
    grows BUCKETS_PER_ALLOC e e'.
Proof.
  intros Hwf H. unfold storeSievingPrime in H.
  pose proof (storeOrPush_Ok_inv _ _ _ _ _ _ _ Hwf H) as Hseg.
  destruct (storeOrPush_view BUCKETSIZE BUCKETS_PER_ALLOC BUCKETS_PER_ALLOC_pos e ls sk []
              _ (mkWheelPrime p (Z.land m (moduloSieveSize_ e)) w) Hwf Hseg)
    as (e1 & ls' & sk' & H1 & Hwf' & Hv & _ & Hg).
  rewrite H in H1. injection H1 as <-. by exists ls', sk'.
Qed.

Lemma crossOff_wf (fuel : nat) (e e' : EratBig) (sieve sieve' : list Z) ls sk :
  wf BUCKETSIZE e ls sk [] ->
  crossOff WHEEL BUCKETSIZE BUCKETS_PER_ALLOC fuel (e, sieve) = Ok (e', sieve') ->
  exists mid lsm skm a rest ls' sk',
    crossOff_drain WHEEL BUCKETSIZE BUCKETS_PER_ALLOC fuel (e, sieve) = Ok (mid, sieve') /\
    wf BUCKETSIZE mid lsm skm [] /\
    rtc (wheel_step WHEEL (log2SieveSize_ e) (moduloSieveSize_ e))
        (primes_view e ls, sieve) (primes_view mid lsm, sieve') /\
    lsm = [a] :: rest /\
    lists_ mid !! 0 = Some (Some a) /\
    heap mid !! a = Some (mkBucket [] None) /\
    e' = set_lists (drop 1 (lists_ mid) ++ [Some a]) mid /\
    ls' = rest ++ [[a]] /\
    wf BUCKETSIZE e' ls' sk' [] /\
    primes_view e' ls' = drop 1 (primes_view mid lsm) ++ take 1 (primes_view mid lsm) /\
    grows BUCKETS_PER_ALLOC e mid /\
    grows BUCKETS_PER_ALLOC mid e' /\
    grows BUCKETS_PER_ALLOC e e'.
Proof.
  intros Hwf H. unfold crossOff in H.
  apply bind_Ok in H as ([mid sieve1] & Hdrain & H).
  apply bind_Ok in H as (e1 & Hrot & H). injection H as -> ->.
  destruct (crossOff_drain_steps WHEEL BUCKETSIZE BUCKETS_PER_ALLOC BUCKETS_PER_ALLOC_pos
              fuel e ls sk sieve _ Hwf Hdrain)
    as (lsm & skm & a & Hwfm & Hsteps & Hl0 & Hp0 & Hb & Hg).
  simpl in *. destruct lsm as [|l0 rest]; [done|]. simpl in Hl0. injection Hl0 as ->.
  destruct (rotate_spec BUCKETSIZE BUCKETS_PER_ALLOC mid [a] rest skm Hwfm)
    as (p0 & prest & Hlists & Hrot' & Hwf' & Hv' & Hg').
  rewrite Hrot in Hrot'. injection Hrot' as ->.
  rewrite Hlists in Hp0. simpl in Hp0. injection Hp0 as ->.
  exists mid, ([a] :: rest), skm, a, rest, (rest ++ [[a]]), skm.
  rewrite Hlists. simpl. rewrite drop_0.
  repeat (split; [done|]). eapply grows_trans; eassumption.
Qed.

Lemma reachable_wf (e : EratBig) :
  reachable WHEEL getMaxFactor BUCKETSIZE BUCKETS_PER_ALLOC e ->
  exists ls sk, wf BUCKETSIZE e ls sk [] /\ slabs_ok BUCKETS_PER_ALLOC e.
Proof.
  induction 1 as [soe e Hnew|e p m w e' _ IH Hst|e fuel sieve e' sieve' _ IH Hc].
  - destruct (EratBig_new_wf getMaxFactor BUCKETSIZE BUCKETS_PER_ALLOC
                BUCKETS_PER_ALLOC_pos BUCKETSIZE_pos soe e Hnew) as (ls & sk & Hwf & Hs & _).
    by exists ls, sk.
  - destruct IH as (ls & sk & Hwf & Hs).
    destruct (storeSievingPrime_wf _ _ _ _ _ _ _ Hwf Hst) as (ls' & sk' & Hwf' & _ & Hg).
    exists ls', sk'. split; [done|]. eapply grows_slabs_ok; eassumption.
  - destruct IH as (ls & sk & Hwf & Hs).
    destruct (crossOff_wf _ _ _ _ _ _ _ Hwf Hc)
      as (mid & lsm & skm & a & rest & ls' & sk' & _ & _ & _ & _ & _ & _ & _ & _ & Hwf' & _ & _ & _ & Hg).
    exists ls', sk'. split; [done|]. eapply grows_slabs_ok; eassumption.
Qed.

End Calls.

(** ** The object in the hands of the driver *)

Lemma sized_mono (maxFactor maxSievingPrime : Z) (e : EratBig) (n n' : nat) :
  sized maxFactor maxSievingPrime e n -> n <= n' -> sized maxFactor maxSievingPrime e n'.
Proof. intros [H1 H2 H3 H4 H5 H6 H7] Hn. constructor; try done. lia. Qed.

Lemma all_ok_rotate (wheel_size maxSievingPrime modS : Z) (V : list (gmultiset WheelPrime)) :
  all_ok wheel_size maxSievingPrime modS V ->
  all_ok wheel_size maxSievingPrime modS (drop 1 V ++ take 1 V).
Proof.
  intros Hall j X t Hj Ht. apply list_elem_of_lookup_2 in Hj.
  apply elem_of_app in Hj as [Hj|Hj].
  - apply list_elem_of_lookup in Hj as (i & Hi). rewrite lookup_drop in Hi. eapply Hall; eassumption.
  - apply list_elem_of_lookup in Hj as (i & Hi). apply lookup_take_Some in Hi as [Hi _].
    eapply Hall; eassumption.
Qed.

Section Driver.

Variable WHEEL : Z -> WheelElement.
Variable getMaxFactor : Z.
Variable BUCKETSIZE : nat.
Variable BUCKETS_PER_ALLOC : nat.
Variable wheel_size : Z.
Hypothesis BUCKETS_PER_ALLOC_pos : 0 < BUCKETS_PER_ALLOC.
Hypothesis BUCKETSIZE_pos : 0 < BUCKETSIZE.
Hypothesis WHEEL_ok : wheel_ok WHEEL wheel_size getMaxFactor.

(** From a state with sizes that fit and sieving primes as they should
    be, crossOff returns when given enough fuel. *)
Lemma crossOff_total (maxSievingPrime : Z) (e : EratBig) ls sk (sieve : list Z) :
  wf BUCKETSIZE e ls sk [] ->
  sized getMaxFactor maxSievingPrime e (length sieve) ->
  all_ok wheel_size maxSievingPrime (moduloSieveSize_ e) (primes_view e ls) ->
  exists fuel e' sieve' ls' sk',
    crossOff WHEEL BUCKETSIZE BUCKETS_PER_ALLOC fuel (e, sieve) = Ok (e', sieve') /\
    wf BUCKETSIZE e' ls' sk' [] /\
    sized getMaxFactor maxSievingPrime e' (length sieve') /\
    all_ok wheel_size maxSievingPrime (moduloSieveSize_ e') (primes_view e' ls').
Proof.
  intros Hwf Hsized Hall.
  destruct (crossOff_drain_total WHEEL BUCKETSIZE BUCKETS_PER_ALLOC wheel_size getMaxFactor
              maxSievingPrime BUCKETS_PER_ALLOC_pos WHEEL_ok
              (Z.to_nat (2 ^ log2SieveSize_ e)) e ls sk sieve 0%Z Hwf Hsized)
    as (fuel & mid & sieve' & lsm & skm & Hdrain & Hwfm & Hsizedm & Hallm & Hgm).
  { split; [done|]. intros X t HX Ht. destruct (Hall 0 X t HX Ht) as (_ & ? & _). lia. }
  { pose proof (sized_log _ _ _ _ Hsized).
    assert (0 < 2 ^ log2SieveSize_ e)%Z by (apply Z.pow_pos_nonneg; lia). lia. }
  assert (Hcross : exists r, crossOff WHEEL BUCKETSIZE BUCKETS_PER_ALLOC fuel (e, sieve) = Ok r).
  { unfold crossOff. rewrite Hdrain. cbn [mbind result_bind].
    destruct (crossOff_drain_steps WHEEL BUCKETSIZE BUCKETS_PER_ALLOC BUCKETS_PER_ALLOC_pos
                fuel e ls sk sieve _ Hwf Hdrain) as (lsm' & skm' & a & Hwfm' & _ & Hl0 & _).
    destruct lsm' as [|l0 rest]; [done|].
    destruct (rotate_spec BUCKETSIZE BUCKETS_PER_ALLOC mid l0 rest skm' Hwfm')
      as (p0 & prest & _ & Hrot & _).
    simpl in Hrot. rewrite Hrot. eauto. }
  destruct Hcross as [[e' sieve''] Hcross].
  destruct (crossOff_wf WHEEL BUCKETSIZE BUCKETS_PER_ALLOC BUCKETS_PER_ALLOC_pos
              fuel e e' sieve sieve'' ls sk Hwf Hcross)
    as (mid' & lsm' & skm' & a & rest & ls' & sk' & Hdrain' & Hwfm' & _ & _ & _ & _ & He'
        & _ & Hwf' & Hv' & _ & Hg' & _).
  rewrite Hdrain in Hdrain'. injection Hdrain' as <- <-.
  assert (lsm' = lsm) as ->.
  { eapply chains_det; eapply wf_lists, wf_wf_core; eassumption. }
  exists fuel, e', sieve', ls', sk'. split; [done|]. split; [done|]. split.
  - eapply sized_grows; eassumption.
  - destruct Hg' as (kk & _ & _ & _ & _ & HM). rewrite HM, Hv'. by apply all_ok_rotate.
Qed.

(** The driver's calls keep the sizes and the sieving primes as they
    should be. *)
Lemma crossOff_keeps (maxSievingPrime : Z) (fuel : nat) (e e' : EratBig) ls sk
    (sieve sieve' : list Z) :
  wf BUCKETSIZE e ls sk [] ->
  sized getMaxFactor maxSievingPrime e (length sieve) ->
  all_ok wheel_size maxSievingPrime (moduloSieveSize_ e) (primes_view e ls) ->
  crossOff WHEEL BUCKETSIZE BUCKETS_PER_ALLOC fuel (e, sieve) = Ok (e', sieve') ->
  exists ls' sk',
    wf BUCKETSIZE e' ls' sk' [] /\
    sized getMaxFactor maxSievingPrime e' (length sieve') /\
    all_ok wheel_size maxSievingPrime (moduloSieveSize_ e') (primes_view e' ls').
Proof.
  intros Hwf Hsized Hall Hc.
  destruct (crossOff_total maxSievingPrime e ls sk sieve Hwf Hsized Hall)
    as (fuel0 & e0 & sieve0 & ls' & sk' & Hc0 & Hwf' & Hsized' & Hall').
  assert (Hmono : forall f f' r,
            crossOff WHEEL BUCKETSIZE BUCKETS_PER_ALLOC f (e, sieve) = Ok r -> f <= f' ->
            crossOff WHEEL BUCKETSIZE BUCKETS_PER_ALLOC f' (e, sieve) = Ok r).
  { intros f f' r Hr Hle. unfold crossOff in *.
    apply bind_Ok in Hr as (s1 & Hd & Hr).
    by rewrite (crossOff_drain_fuel_mono _ _ _ _ _ _ _ Hd Hle). }
  pose proof (Hmono _ (max fuel fuel0) _ Hc ltac:(lia)) as H1.
  pose proof (Hmono _ (max fuel fuel0) _ Hc0 ltac:(lia)) as H2.
  rewrite H1 in H2. injection H2 as -> ->. by exists ls', sk'.
Qed.


Lemma sieving_inv (soe : SieveOfEratosthenes) (e : EratBig) :
  sieving WHEEL getMaxFactor BUCKETSIZE BUCKETS_PER_ALLOC wheel_size soe e ->
  exists ls sk,
    wf BUCKETSIZE e ls sk [] /\
    sized getMaxFactor (getSqrtStop soe / 30) e (Z.to_nat (getSieveSize soe)) /\
    all_ok wheel_size (getSqrtStop soe / 30) (moduloSieveSize_ e) (primes_view e ls).
Proof.
  induction 1 as [k e Hk HS Hsq Hmf Hfit Hnew
                 |e p m w e' _ IH Hp Hw Hst
                 |e fuel sieve e' sieve' _ IH Hlen Hc].
  - destruct (EratBig_new_wf getMaxFactor BUCKETSIZE BUCKETS_PER_ALLOC
                BUCKETS_PER_ALLOC_pos BUCKETSIZE_pos soe e Hnew)
      as (ls & sk & Hwf & _ & Hempty & _ & _ & HL & HM & Hlists).
    destruct (listsSize_eq getMaxFactor soe k Hk HS Hsq Hmf Hfit) as (_ & Hlog & Hsize).
    assert (Hpow : (0 < 2 ^ k)%Z) by (apply Z.pow_pos_nonneg; lia).
    assert (Hq : (0 <= getSqrtStop soe / 30)%Z) by (apply Z.div_pos; lia).
    assert (HMnn : (0 <= getSqrtStop soe / 30 * getMaxFactor + getMaxFactor)%Z) by nia.
    rewrite Hlog in HL, Hsize, Hlists. rewrite HS, wrap_small in HM by lia.
    exists ls, sk. split; [done|]. split.
    + constructor; rewrite ?HL, ?HM; try done; try lia.
      rewrite Hlists, Hsize, HS.
      assert (0 <= Z.shiftr (2 ^ k - 1 + (getSqrtStop soe / 30 * getMaxFactor + getMaxFactor)) k)%Z
        by (apply Z.shiftr_nonneg; lia).
      rewrite Z2Nat.id by lia.
      replace (2 ^ k - 1 + getSqrtStop soe / 30 * getMaxFactor + getMaxFactor)%Z
        with (2 ^ k - 1 + (getSqrtStop soe / 30 * getMaxFactor + getMaxFactor))%Z by lia.
      lia.
    + intros j X t Hj Ht. unfold primes_view in Hj. rewrite list_lookup_fmap in Hj.
      apply fmap_Some in Hj as (l & _ & ->). unfold primes_of in Ht.
      apply elem_of_list_to_set_disj, list_elem_of_join in Ht as (ts & Ht & Hts).
      apply list_elem_of_fmap in Hts as (a & -> & _). rewrite Hempty in Ht.
      by apply elem_of_nil in Ht.
  - destruct IH as (ls & sk & Hwf & Hsized & Hall).
    destruct (storeSievingPrime_wf BUCKETSIZE BUCKETS_PER_ALLOC BUCKETS_PER_ALLOC_pos
                _ _ _ _ _ _ _ Hwf Hst) as (ls' & sk' & Hwf' & Hv & Hg).
    exists ls', sk'. split; [done|]. split; [eapply sized_grows; eassumption|].
    pose proof Hg as (kk & _ & _ & _ & _ & HM). rewrite HM, Hv.
    intros j X t Hj Ht. rewrite list_lookup_alter in Hj. case_decide as Hd.
    + apply fmap_Some in Hj as (X' & HX' & ->).
      apply gmultiset_elem_of_disj_union in Ht as [Ht|Ht]; [|eapply Hall; eassumption].
      apply gmultiset_elem_of_singleton in Ht as ->.
      pose proof (sized_log _ _ _ _ Hsized) as HL.
      rewrite (sized_mod _ _ _ _ Hsized), land_modS by done.
      assert (Hpow : (0 < 2 ^ log2SieveSize_ e)%Z) by (apply Z.pow_pos_nonneg; lia).
      pose proof (Z.mod_pos_bound m _ Hpow). unfold prime_ok. simpl. lia.
    + eapply Hall; eassumption.
  - destruct IH as (ls & sk & Hwf & Hsized & Hall).
    assert (Hsized1 : sized getMaxFactor (getSqrtStop soe / 30) e (length sieve)).
    { eapply sized_mono; [eassumption|]. lia. }
    destruct (crossOff_keeps _ _ _ _ _ _ _ _ Hwf Hsized1 Hall Hc)
      as (ls' & sk' & Hwf' & Hsized' & Hall').
    exists ls', sk'. split; [done|]. split; [|done].
    destruct (crossOff_wf WHEEL BUCKETSIZE BUCKETS_PER_ALLOC BUCKETS_PER_ALLOC_pos
                fuel e e' sieve sieve' ls sk Hwf Hc)
      as (mid' & lsm' & skm' & a & rest & ls'' & sk'' & _ & _ & _ & _ & _ & _ & _
          & _ & _ & _ & _ & _ & Hg).
    eapply sized_grows; eassumption.
Qed.

End Driver.

(** ** No call dereferences a null pointer *)

Lemma pointer_safe_bind {A B : Type} (r : result A) (k : A -> result B) :
  pointer_safe r ->
  (forall a, r = Ok a -> pointer_safe (k a)) ->
  pointer_safe (r ≫= k).
Proof. destruct r as [a|f]; simpl; [|done]. intros _ H. by apply H. Qed.

Lemma unsetBit_safe (WHEEL : Z -> WheelElement) (sieve : list Z) (p m w : Z) :
  pointer_safe (unsetBit WHEEL sieve p m w).
Proof. unfold unsetBit. by destruct (sieve !! Z.to_nat m). Qed.

Section Safe.

Variable WHEEL : Z -> WheelElement.
Variable BUCKETSIZE : nat.
Variable BUCKETS_PER_ALLOC : nat.
Hypothesis BUCKETS_PER_ALLOC_pos : 0 < BUCKETS_PER_ALLOC.

Lemma storeOrPush_safe (segment : Z) (t : WheelPrime) (e : EratBig) ls sk ex :
  wf BUCKETSIZE e ls sk ex ->
  pointer_safe (storeOrPush BUCKETSIZE BUCKETS_PER_ALLOC segment t e) /\
  forall e', storeOrPush BUCKETSIZE BUCKETS_PER_ALLOC segment t e = Ok e' ->
    exists ls' sk', wf BUCKETSIZE e' ls' sk' ex /\
      (forall x, x ∈ ex -> heap e' !! x = heap e !! x) /\
      log2SieveSize_ e' = log2SieveSize_ e /\
      moduloSieveSize_ e' = moduloSieveSize_ e.
Proof.
  intros Hwf.
  pose proof (Forall2_length _ _ _ (wf_lists _ _ _ _ (wf_wf_core _ _ _ _ _ Hwf))) as Hlen.
  destruct (decide (Z.to_nat segment < length ls)) as [Hlt|Hge].
  - destruct (storeOrPush_view BUCKETSIZE BUCKETS_PER_ALLOC BUCKETS_PER_ALLOC_pos
                e ls sk ex segment t Hwf Hlt) as (e1 & ls' & sk' & H1 & Hwf' & _ & Hf & Hg).
    rewrite H1. split; [done|]. intros e' [= <-]. exists ls', sk'.
    destruct Hg as (k & _ & _ & _ & HL & HM). done.
  - assert (H : storeOrPush BUCKETSIZE BUCKETS_PER_ALLOC segment t e = Err BadIndex).
    { unfold storeOrPush, list_at. rewrite lookup_ge_None_2 by lia. done. }
    rewrite H. done.
Qed.

Lemma crossOff_one_safe (bucket i : nat) (t : WheelPrime) (e : EratBig) ls sk ex (sieve : list Z) :
  wf BUCKETSIZE e ls sk ex ->
  bucket_at (heap e) bucket !! i = Some t ->
  pointer_safe (crossOff_one WHEEL BUCKETSIZE BUCKETS_PER_ALLOC bucket i (e, sieve)).
Proof.
  intros Hwf Ht.
  assert (Hread : read_slot e bucket i = Ok t).
  { unfold read_slot, bucket_at in *. destruct (heap e !! bucket); simpl; [|done]. by rewrite Ht. }
  unfold crossOff_one. rewrite Hread. cbn [mbind result_bind].
  apply pointer_safe_bind; [apply unsetBit_safe|]. intros [[sieve1 m1] w1] _.
  apply pointer_safe_bind; [|done]. unfold route. eapply storeOrPush_safe; eassumption.
Qed.

Lemma crossOff_two_safe (bucket i : nat) (t0 t1 : WheelPrime) (e : EratBig) ls sk ex
    (sieve : list Z) :
  wf BUCKETSIZE e ls sk ex ->
  bucket_at (heap e) bucket !! i = Some t0 ->
  bucket_at (heap e) bucket !! (i + 1) = Some t1 ->
  pointer_safe (crossOff_two WHEEL BUCKETSIZE BUCKETS_PER_ALLOC bucket i (e, sieve)) /\
  forall e' sieve',
    crossOff_two WHEEL BUCKETSIZE BUCKETS_PER_ALLOC bucket i (e, sieve) = Ok (e', sieve') ->
    exists ls' sk', wf BUCKETSIZE e' ls' sk' ex /\
      (forall x, x ∈ ex -> heap e' !! x = heap e !! x).
Proof.
  intros Hwf Ht0 Ht1.
  assert (Hread : forall j t, bucket_at (heap e) bucket !! j = Some t -> read_slot e bucket j = Ok t).
  { intros j t Ht. unfold read_slot, bucket_at in *.
    destruct (heap e !! bucket); simpl; [|done]. by rewrite Ht. }
  unfold crossOff_two. rewrite (Hread _ _ Ht0), (Hread _ _ Ht1). cbn [mbind result_bind].
  destruct (unsetBit WHEEL sieve _ _ _) as [[[sieve1 m0] w0]|f] eqn:Hu0.
  2:{ pose proof (unsetBit_safe WHEEL sieve (getSievingPrime t0) (getMultipleIndex t0)
                    (getWheelIndex t0)) as Hs. rewrite Hu0 in Hs. done. }
  cbn [mbind result_bind].
  destruct (unsetBit WHEEL sieve1 _ _ _) as [[[sieve2 m1] w1]|f] eqn:Hu1.
  2:{ pose proof (unsetBit_safe WHEEL sieve1 (getSievingPrime t1) (getMultipleIndex t1)
                    (getWheelIndex t1)) as Hs. rewrite Hu1 in Hs. done. }
  cbn [mbind result_bind].
  match goal with |- context [storeOrPush _ _ ?s ?t e] =>
    destruct (storeOrPush_safe s t e ls sk ex Hwf) as [Hs0 Hk0];
    destruct (storeOrPush BUCKETSIZE BUCKETS_PER_ALLOC s t e) as [e1|f] eqn:Hst0 end; [|done].
  destruct (Hk0 e1 eq_refl) as (ls1 & sk1 & Hwf1 & Hf1 & _).
  cbn [mbind result_bind].
  match goal with |- context [storeOrPush _ _ ?s ?t e1] =>
    destruct (storeOrPush_safe s t e1 ls1 sk1 ex Hwf1) as [Hs1 Hk1];
    destruct (storeOrPush BUCKETSIZE BUCKETS_PER_ALLOC s t e1) as [e2|f] eqn:Hst1 end; [|done].
  destruct (Hk1 e2 eq_refl) as (ls2 & sk2 & Hwf2 & Hf2 & _).
  cbn [mbind result_bind]. split; [done|]. intros e' sieve' [= <- <-].
  exists ls2, sk2. split; [done|]. intros x Hx. rewrite Hf2, Hf1; done.
Qed.

Lemma crossOff_pairs_safe (n i bucket : nat) (ts : list WheelPrime)
    (e : EratBig) ls sk ex (sieve : list Z) :
  wf BUCKETSIZE e ls sk ex ->
  bucket ∈ ex ->
  bucket_at (heap e) bucket = ts ->
  i + 2 * n <= length ts ->
  pointer_safe (crossOff_pairs WHEEL BUCKETSIZE BUCKETS_PER_ALLOC n bucket i (length ts) (e, sieve)) /\
  forall wPrime e' sieve',
    crossOff_pairs WHEEL BUCKETSIZE BUCKETS_PER_ALLOC n bucket i (length ts) (e, sieve)
      = Ok (wPrime, (e', sieve')) ->
    wPrime = i + 2 * n /\
    exists ls' sk', wf BUCKETSIZE e' ls' sk' ex /\ bucket_at (heap e') bucket = ts.
Proof.
  revert i e ls sk sieve. induction n as [|n IH]; intros i e ls sk sieve Hwf Hin Hts Hlen.
  - simpl. split; [done|]. intros w e' sieve' [= <- <- <-]. split; [lia|]. by exists ls, sk.
  - cbn [crossOff_pairs]. destruct (Nat.leb_spec (i + 2) (length ts)) as [_|]; [|lia].
    destruct (lookup_lt_is_Some_2 ts i ltac:(lia)) as [t0 Ht0].
    destruct (lookup_lt_is_Some_2 ts (i + 1) ltac:(lia)) as [t1 Ht1].
    rewrite <- Hts in Ht0, Ht1.
    destruct (crossOff_two_safe bucket i t0 t1 e ls sk ex sieve Hwf Ht0 Ht1) as [Hs Hk].
    destruct (crossOff_two _ _ _ _ _ _) as [[e1 sieve1]|f]; [|done].
    destruct (Hk e1 sieve1 eq_refl) as (ls1 & sk1 & Hwf1 & Hf1).
    cbn [mbind result_bind].
    assert (Hts1 : bucket_at (heap e1) bucket = ts).
    { unfold bucket_at in *. by rewrite Hf1. }
    destruct (IH (i + 2) e1 ls1 sk1 sieve1 Hwf1 Hin Hts1 ltac:(lia)) as [IH1 IH2].
    split; [done|]. intros w e' sieve' H. destruct (IH2 _ _ _ H) as [-> Hrest].
    split; [lia|done].
Qed.

Lemma crossOff_bucket_safe (bucket : nat) (e : EratBig) ls sk ex (sieve : list Z) :
  wf BUCKETSIZE e ls sk ex ->
  bucket ∈ ex ->
  pointer_safe (crossOff_bucket WHEEL BUCKETSIZE BUCKETS_PER_ALLOC bucket (e, sieve)).
Proof.
  intros Hwf Hin. unfold crossOff_bucket. simpl.
  pose proof (wf_detached _ _ _ _ (wf_wf_core _ _ _ _ _ Hwf)) as Hd.
  rewrite Forall_forall in Hd. pose proof (Hd _ Hin) as Hlt.
  destruct (lookup_lt_is_Some_2 _ _ Hlt) as [b Hb]. rewrite Hb. cbn [from_option mbind result_bind].
  assert (Hts : bucket_at (heap e) bucket = wheelPrimes_ b) by (unfold bucket_at; by rewrite Hb).
  pose proof (Nat.div_mod_eq (length (wheelPrimes_ b)) 2) as Hdm.
  assert (Hm : length (wheelPrimes_ b) mod 2 < 2) by (apply Nat.mod_upper_bound; lia).
  destruct (crossOff_pairs_safe (length (wheelPrimes_ b) / 2) 0 bucket (wheelPrimes_ b)
              e ls sk ex sieve Hwf Hin Hts ltac:(lia)) as [Hs Hk].
  apply pointer_safe_bind; [done|]. intros [w [e1 sieve1]] H.
  destruct (Hk _ _ _ H) as [-> (ls1 & sk1 & Hwf1 & Hts1)].
  destruct (Nat.eqb_spec (0 + 2 * (length (wheelPrimes_ b) / 2)) (length (wheelPrimes_ b)));
    [done|].
  destruct (lookup_lt_is_Some_2 (wheelPrimes_ b) (0 + 2 * (length (wheelPrimes_ b) / 2))
              ltac:(lia)) as [t Ht].
  eapply crossOff_one_safe; [eassumption|]. rewrite Hts1. exact Ht.
Qed.


Lemma crossOff_chain_safe (ex : list nat) (fuel bucket : nat)
    (e : EratBig) ls sk (sieve : list Z) :
  wf BUCKETSIZE e ls sk ex ->
  is_chain (heap e) (Some bucket) ex ->
  pointer_safe (crossOff_chain WHEEL BUCKETSIZE BUCKETS_PER_ALLOC fuel bucket (e, sieve)).
Proof.
  revert fuel bucket e ls sk sieve.
  induction ex as [|a ex IH]; intros fuel bucket e ls sk sieve Hwf Hchain; [done|].
  simpl in Hchain. destruct Hchain as [Hbucket Hchain]. injection Hbucket as ->.
  destruct (heap e !! a) as [b|] eqn:Hb; [|done].
  destruct fuel as [|fuel]; [done|]. cbn [crossOff_chain].
  assert (Ha_in : a ∈ a :: ex) by (by left).
  apply pointer_safe_bind; [by eapply crossOff_bucket_safe|]. intros [e1 sieve1] H1.
  destruct (crossOff_bucket_spec WHEEL BUCKETSIZE BUCKETS_PER_ALLOC BUCKETS_PER_ALLOC_pos
              a e ls sk (a :: ex) sieve Hwf Ha_in) as [Hb1 Hb2].
  destruct (Hb2 (Hb1 _ H1)) as (e1' & ls1 & sk1 & sieve1' & H1' & Hwf1 & _ & Hf1 & _).
  rewrite H1 in H1'. injection H1' as <- <-.
  assert (Hb' : heap e1 !! a = Some b) by (rewrite Hf1; done).
  unfold deref. simpl. rewrite Hb'. simpl.
  destruct (recycle_spec BUCKETSIZE BUCKETS_PER_ALLOC e1 ls1 sk1 ex a b Hwf1 Hb')
    as (Hwf2 & _ & Hf2 & _).
  destruct (next_ b) as [a'|] eqn:Hnb; [|done].
  eapply IH; [exact Hwf2|].
  pose proof (wf_nodup _ _ _ _ (wf_wf_core _ _ _ _ _ Hwf)) as Hnd.
  assert (Ha_ex : a ∉ ex).
  { apply NoDup_app in Hnd as (_ & _ & Hnd). apply NoDup_app in Hnd as (_ & _ & Hnd).
    by apply NoDup_cons in Hnd as [? _]. }
  eapply is_chain_ext; [|exact Hchain]. intros x Hx. left.
  rewrite Hf2 by (intros ->; done). apply Hf1. by right.
Qed.

Lemma crossOff_drain_safe (fuel : nat) (e : EratBig) ls sk (sieve : list Z) :
  wf BUCKETSIZE e ls sk [] ->
  pointer_safe (crossOff_drain WHEEL BUCKETSIZE BUCKETS_PER_ALLOC fuel (e, sieve)).
Proof.
  revert e ls sk sieve. induction fuel as [|fuel IH]; intros e ls sk sieve Hwf; [done|].
  cbn [crossOff_drain]. simpl fst.
  pose proof (Forall2_length _ _ _ (wf_lists _ _ _ _ (wf_wf_core _ _ _ _ _ Hwf))) as Hlen.
  destruct (ls !! 0) as [l0|] eqn:Hl0.
  - destruct (list_pending_spec BUCKETSIZE e ls sk [] l0 Hwf Hl0)
      as (a0 & l0' & pending & -> & _ & Hpend & _).
    rewrite Hpend. cbn [mbind result_bind]. destruct pending; [|done].
    destruct (detach_spec WHEEL BUCKETSIZE BUCKETS_PER_ALLOC BUCKETS_PER_ALLOC_pos
                fuel e ls sk sieve _ Hwf Hl0)
      as (a0' & e_p & a' & sk' & Hunfold & Hwf_p & Hchain_p & _).
    apply pointer_safe_bind.
    + rewrite Hunfold. eapply crossOff_chain_safe; eassumption.
    + intros [e1 sieve1] H1.
      destruct (crossOff_pass_spec WHEEL BUCKETSIZE BUCKETS_PER_ALLOC BUCKETS_PER_ALLOC_pos
                  fuel e ls sk sieve _ Hwf Hl0) as [Hp1 Hp2].
      destruct (Hp1 _ H1) as [Hsafe Hfuel].
      destruct (Hp2 Hsafe Hfuel) as (e1' & ls1 & sk1 & sieve1' & H1' & Hwf1 & _).
      rewrite H1 in H1'. injection H1' as <- <-. eapply IH; eassumption.
  - assert (H : list_pending e = Err BadIndex).
    { unfold list_pending, list_at. change (Z.to_nat 0) with 0.
      apply lookup_ge_None in Hl0. rewrite lookup_ge_None_2 by lia. done. }
    rewrite H. done.
Qed.

Lemma crossOff_safe (fuel : nat) (e : EratBig) ls sk (sieve : list Z) :
  wf BUCKETSIZE e ls sk [] ->
  pointer_safe (crossOff WHEEL BUCKETSIZE BUCKETS_PER_ALLOC fuel (e, sieve)).
Proof.
  intros Hwf. unfold crossOff.
  apply pointer_safe_bind; [by eapply crossOff_drain_safe|]. intros [mid sieve'] Hd.
  apply pointer_safe_bind; [|done].
  unfold rotate, list_at. by destruct (lists_ mid !! Z.to_nat 0).
Qed.

Lemma storeSievingPrime_safe (p m w : Z) (e : EratBig) ls sk :
  wf BUCKETSIZE e ls sk [] ->
  pointer_safe (storeSievingPrime BUCKETSIZE BUCKETS_PER_ALLOC p m w e).
Proof. intros Hwf. unfold storeSievingPrime. eapply storeOrPush_safe; eassumption. Qed.

End Safe.

(** With a largest wheel factor of at most 10 nothing wraps around in
    [setListsSize], whatever sieve size [2^k] and [sqrtStop] a [uint_t]
    holds. *)
Lemma uint_sizes_fit (soe : SieveOfEratosthenes) (maxFactor k : Z) :
  (0 <= k)%Z ->
  getSieveSize soe = (2 ^ k)%Z ->
  (getSieveSize soe < UINT_MODULUS)%Z ->
  (0 <= getSqrtStop soe < UINT_MODULUS)%Z ->
  (0 <= maxFactor <= 10)%Z ->
  (getSieveSize soe + (getSqrtStop soe / 30 * maxFactor + maxFactor) < UINT_MODULUS)%Z.
Proof.
  intros Hk HS Hlt Hsq Hmf. unfold UINT_MODULUS in *.
  assert (k < 32)%Z as Hk32.
  { rewrite HS in Hlt. apply Z.pow_lt_mono_r_iff in Hlt; lia. }
  assert (2 ^ k <= 2 ^ 31)%Z as Hle by (apply Z.pow_le_mono_r; lia).
  assert (0 <= getSqrtStop soe / 30 <= 143165576)%Z as Hq.
  { split; [apply Z.div_pos; lia|].
    assert (getSqrtStop soe / 30 < 143165577)%Z; [|lia].
    apply Z.div_lt_upper_bound; [lia|]. change (2 ^ 32)%Z with 4294967296%Z in Hsq. lia. }
  rewrite HS. change (2 ^ 31)%Z with 2147483648%Z in Hle.
  change (2 ^ 32)%Z with 4294967296%Z. nia.
Qed.

(** * What the specification says of EratBig *)

Section Statements.

Variable WHEEL : Z -> WheelElement.
Variable getMaxFactor : Z.
Variable BUCKETSIZE : nat.
Variable BUCKETS_PER_ALLOC : nat.
Hypothesis BUCKETS_PER_ALLOC_pos : 0 < BUCKETS_PER_ALLOC.
Hypothesis BUCKETSIZE_pos : 0 < BUCKETSIZE.

(** In the hands of the sieve driver [crossOff] returns: with some
    bound on the rounds of its loops, and as well with every larger
    one. *)
Lemma crossOff_returns (wheel_size : Z) (soe : SieveOfEratosthenes) (e : EratBig)
    (sieve : list Z) :
  wheel_ok WHEEL wheel_size getMaxFactor ->
  sieving WHEEL getMaxFactor BUCKETSIZE BUCKETS_PER_ALLOC wheel_size soe e ->
  (getSieveSize soe <= Z.of_nat (length sieve))%Z ->
  exists fuel e' sieve',
    forall fuel', fuel <= fuel' ->
      crossOff WHEEL BUCKETSIZE BUCKETS_PER_ALLOC fuel' (e, sieve) = Ok (e', sieve').
Proof.
  intros Hwheel Hsieving Hsieve.
  destruct (sieving_inv WHEEL getMaxFactor BUCKETSIZE BUCKETS_PER_ALLOC wheel_size
              BUCKETS_PER_ALLOC_pos BUCKETSIZE_pos Hwheel soe e Hsieving)
    as (ls & sk & Hwf & Hsized & Hall).
  assert (Hsized1 : sized getMaxFactor (getSqrtStop soe / 30) e (length sieve)).
  { eapply sized_mono; [eassumption|]. lia. }
  destruct (crossOff_total WHEEL getMaxFactor BUCKETSIZE BUCKETS_PER_ALLOC wheel_size
              BUCKETS_PER_ALLOC_pos BUCKETSIZE_pos Hwheel _ e ls sk sieve
              Hwf Hsized1 Hall)
    as (fuel & e' & sieve' & ls' & sk' & Hrun & _).
  exists fuel, e', sieve'. intros fuel' Hle.
  unfold crossOff in *.
  destruct (crossOff_drain WHEEL BUCKETSIZE BUCKETS_PER_ALLOC fuel (e, sieve))
    as [r|f] eqn:Hd; [|done].
  by rewrite (crossOff_drain_fuel_mono _ _ _ _ _ _ _ Hd Hle).
Qed.

(** C1. [storeSievingPrime(sievingPrime, multipleIndex, wheelIndex)] with
    [multipleIndex >> log2SieveSize_ < lists_.size()], from every state
    the object can be in: with [segment = multipleIndex >> L] and [a]
    the first bucket of [lists_[segment]], the call returns, the triple
    [(sievingPrime, multipleIndex & (S-1), wheelIndex)] is the new last
    entry of bucket [a], every other bucket holds what it held, and the
    list of [segment] has gained this triple and no list anything else.
    When the store has filled [a], an empty bucket [a'] has become the
    first bucket of [lists_[segment]], before [a]: the first bucket of
    the stock, or, the stock being empty, the first bucket of a new slab
    of [BUCKETS_PER_ALLOC] buckets that [pointers_] records. Otherwise
    the lists and the stock are made of the same buckets as before. *)
Theorem storeSievingPrime_stores (e : EratBig) (sievingPrime multipleIndex wheelIndex : Z) :
  reachable WHEEL getMaxFactor BUCKETSIZE BUCKETS_PER_ALLOC e ->
  (0 <= multipleIndex)%Z ->
  Z.to_nat (Z.shiftr multipleIndex (log2SieveSize_ e)) < length (lists_ e) ->
  let segment := Z.to_nat (Z.shiftr multipleIndex (log2SieveSize_ e)) in
  let t := mkWheelPrime sievingPrime (Z.land multipleIndex (moduloSieveSize_ e)) wheelIndex in
  exists ls sk a l e' ls' sk',
    wf BUCKETSIZE e ls sk [] /\
    ls !! segment = Some (a :: l) /\
    storeSievingPrime BUCKETSIZE BUCKETS_PER_ALLOC sievingPrime multipleIndex wheelIndex e
      = Ok e' /\
    wf BUCKETSIZE e' ls' sk' [] /\
    bucket_at (heap e') a = bucket_at (heap e) a ++ [t] /\
    (forall x, x < length (heap e) -> x <> a ->
       bucket_at (heap e') x = bucket_at (heap e) x) /\
    primes_view e' ls' = alter (fun X => {[+ t +]} ⊎ X) segment (primes_view e ls) /\
    (S (length (bucket_at (heap e) a)) <> BUCKETSIZE /\ ls' = ls /\ sk' = sk /\
       heap e' !! a = Some (mkBucket (bucket_at (heap e) a ++ [t]) (head l)) /\
       lists_ e' !! segment = Some (Some a) /\
       pointers_ e' = pointers_ e
     \/
     S (length (bucket_at (heap e) a)) = BUCKETSIZE /\
     exists a',
       ls' = <[segment := a' :: a :: l]> ls /\
       lists_ e' !! segment = Some (Some a') /\
       heap e' !! a' = Some (mkBucket [] (Some a)) /\
       (sk = a' :: sk' /\ pointers_ e' = pointers_ e \/
        sk = [] /\ a' :: sk' = seq (length (heap e)) BUCKETS_PER_ALLOC /\
          length (heap e') = length (heap e) + BUCKETS_PER_ALLOC /\
          pointers_ e' = pointers_ e ++ [length (heap e)])).
Proof.
  intros Hreach Hm Hseg segment t.
  destruct (reachable_wf WHEEL getMaxFactor BUCKETSIZE BUCKETS_PER_ALLOC
              BUCKETS_PER_ALLOC_pos BUCKETSIZE_pos e Hreach) as (ls & sk & Hwf & _).
  pose proof (Forall2_length _ _ _ (wf_lists _ _ _ _ (wf_wf_core _ _ _ _ _ Hwf))) as Hlen.
  destruct (lookup_lt_is_Some_2 ls segment ltac:(lia)) as [l0 Hl0].
  pose proof (Forall_lookup_1 _ _ _ _ (wf_room _ _ _ _ _ Hwf) Hl0) as Hr.
  destruct l0 as [|a l]; [done|]. clear Hr.
  destruct (storeOrPush_spec BUCKETSIZE BUCKETS_PER_ALLOC BUCKETS_PER_ALLOC_pos
              e ls sk [] (Z.shiftr multipleIndex (log2SieveSize_ e)) t a l Hwf Hl0)
    as (e' & ls' & sk' & Hst & Hwf' & Hba & Hbx & _ & Hcase & _).
  destruct (storeSievingPrime_wf BUCKETSIZE BUCKETS_PER_ALLOC BUCKETS_PER_ALLOC_pos
              sievingPrime multipleIndex wheelIndex e e' ls sk Hwf Hst)
    as (ls'' & sk'' & Hwf'' & Hview & _).
  assert (ls'' = ls') as ->.
  { eapply chains_det; eapply wf_lists, wf_wf_core; eassumption. }
  exists ls, sk, a, l, e', ls', sk'.
  split; [done|]. split; [done|]. split; [done|]. split; [done|]. split; [done|].
  split; [done|]. split; [done|].
  pose proof (wf_lists _ _ _ _ (wf_wf_core _ _ _ _ _ Hwf')) as HF'.
  fold segment in Hcase.
  destruct Hcase as [(Hnf & -> & -> & Hh & Hp)|(Hf & a' & -> & Ha' & Hsk)].
  - left. destruct (Forall2_lookup_r _ _ _ _ _ HF' Hl0) as (p & Hp' & Hc).
    simpl in Hc. destruct Hc as [-> Hc].
    destruct (heap e' !! a) as [b|] eqn:Hb; [|done].
    repeat (split; [done|]). split; [|done].
    unfold bucket_at in Hba at 1. rewrite Hb in Hba. destruct b as [wps nx]. simpl in *.
    subst wps. f_equal. f_equal. destruct l as [|a1 l1]; simpl in *; [done|]. by destruct Hc.
  - right. split; [done|]. exists a'. split; [done|].
    assert (Hl' : <[segment := a' :: a :: l]> ls !! segment = Some (a' :: a :: l)).
    { apply list_lookup_insert_eq. eapply lookup_lt_Some; eassumption. }
    destruct (Forall2_lookup_r _ _ _ _ _ HF' Hl') as (p & Hp' & Hc).
    simpl in Hc. destruct Hc as [-> Hc].
    destruct (heap e' !! a') as [b|] eqn:Hb; [|done]. destruct Hc as [Hn _].
    split; [done|]. split.
    + unfold bucket_at in Ha'. rewrite Hb in Ha'. destruct b as [wps nx]. simpl in *.
      by subst.
    + destruct Hsk as [(? & _ & ?)|(? & ? & ? & ?)]; [by left|by right].
Qed.

(** C2. [crossOff(sieve)] from every state the object can be in, when
    it returns: the [while] loop has been left with state [mid] and the
    sieve array [sieve'], and from the lists and the sieve array at
    entry to those of [mid] leads a sequence of wheel steps, each of
    which takes one triple [(p, m, w)] out of list 0, clears the bits
    of the wheel's mask of [w] in [sieve[m]], computes [(m', w')] and
    puts [(p, m' & (S-1), w')] into list [m' >> L]. List 0 of [mid]
    holds no triple, so every triple of list 0, those put there on the
    way included, has been taken out by one step: [lists_[0]] of [mid]
    is one empty bucket with no next bucket, the test of the loop is
    false there, and only then is [lists_] rotated. In the hands of the
    sieve driver the call does return. *)
Theorem crossOff_one_step_each (e : EratBig) (sieve : list Z) :
  reachable WHEEL getMaxFactor BUCKETSIZE BUCKETS_PER_ALLOC e ->
  (forall fuel e' sieve',
     crossOff WHEEL BUCKETSIZE BUCKETS_PER_ALLOC fuel (e, sieve) = Ok (e', sieve') ->
     exists ls sk mid lsm skm a,
       wf BUCKETSIZE e ls sk [] /\
       crossOff_drain WHEEL BUCKETSIZE BUCKETS_PER_ALLOC fuel (e, sieve)
         = Ok (mid, sieve') /\
       wf BUCKETSIZE mid lsm skm [] /\
       rtc (wheel_step WHEEL (log2SieveSize_ e) (moduloSieveSize_ e))
           (primes_view e ls, sieve) (primes_view mid lsm, sieve') /\
       primes_view mid lsm !! 0 = Some ∅ /\
       lsm !! 0 = Some [a] /\
       lists_ mid !! 0 = Some (Some a) /\
       heap mid !! a = Some (mkBucket [] None) /\
       list_pending mid = Ok false /\
       rotate mid = Ok e') /\
  (forall wheel_size soe,
     wheel_ok WHEEL wheel_size getMaxFactor ->
     sieving WHEEL getMaxFactor BUCKETSIZE BUCKETS_PER_ALLOC wheel_size soe e ->
     (getSieveSize soe <= Z.of_nat (length sieve))%Z ->
     exists fuel e' sieve',
       crossOff WHEEL BUCKETSIZE BUCKETS_PER_ALLOC fuel (e, sieve) = Ok (e', sieve')).
Proof.
  intros Hreach. split; [|intros wheel_size soe Hwheel Hsieving Hsieve].
  2: { destruct (crossOff_returns wheel_size soe e sieve Hwheel Hsieving Hsieve)
         as (fuel & e' & sieve' & Hrun). exists fuel, e', sieve'. by apply Hrun. }
  intros fuel e' sieve' Hrun.
  destruct (reachable_wf WHEEL getMaxFactor BUCKETSIZE BUCKETS_PER_ALLOC
              BUCKETS_PER_ALLOC_pos BUCKETSIZE_pos e Hreach) as (ls & sk & Hwf & _).
  destruct (crossOff_wf WHEEL BUCKETSIZE BUCKETS_PER_ALLOC BUCKETS_PER_ALLOC_pos
              fuel e e' sieve sieve' ls sk Hwf Hrun)
    as (mid & lsm & skm & a & rest & ls' & sk' & Hdrain & Hwfm & Hsteps & -> & Ha & Hb
        & _).
  exists ls, sk, mid, ([a] :: rest), skm, a.
  assert (Hempty : bucket_at (heap mid) a = []) by (unfold bucket_at; by rewrite Hb).
  assert (Hpend : list_pending mid = Ok false).
  { unfold list_pending, list_at. change (Z.to_nat 0) with 0. rewrite Ha. simpl.
    unfold deref. simpl. rewrite Hb. done. }
  repeat (split; [done|]). split.
  { simpl. unfold primes_of. simpl. rewrite Hempty. done. }
  repeat (split; [done|]).
  unfold crossOff in Hrun. rewrite Hdrain in Hrun. simpl in Hrun.
  destruct (rotate mid) as [e2|f]; simpl in Hrun; by simplify_eq.
Qed.

(** C5. The loop of [crossOff(Bucket&, sieve)] that takes two sieving
    primes per round, and the last one alone when their number is odd,
    does what the plain loop over the sieving primes of the bucket does,
    one at a time and in order: from every state the two end with the
    same sieve array and the same object (so the same sieving primes in
    every list of [lists_] and the same [stock_]), or both fault. *)
Theorem crossOff_bucket_unrolled (bucket : nat) (s : EratBig * sieve_t) :
  same_outcome
    (crossOff_bucket WHEEL BUCKETSIZE BUCKETS_PER_ALLOC bucket s)
    (crossOff_bucket_naive WHEEL BUCKETSIZE BUCKETS_PER_ALLOC bucket s).
Proof. apply crossOff_bucket_plain. Qed.

(** C7. In every state the object can be in: the slabs [pointers_]
    records lie one behind the other, each of [BUCKETS_PER_ALLOC]
    buckets, and cover the heap, so every bucket is in a recorded slab;
    the destructor hands to [delete[]] the entries of [pointers_], each
    once; every bucket is in one of the lists or in the stock, and the
    buckets of the stock are empty. A call of [storeSievingPrime] or of
    [crossOff] that returns leaves a heap with the buckets it had, and
    whole slabs of [BUCKETS_PER_ALLOC] more, each recorded at the end of
    [pointers_], from which nothing is taken. *)
Theorem buckets_freed_by_destructor_only (e : EratBig) :
  reachable WHEEL getMaxFactor BUCKETSIZE BUCKETS_PER_ALLOC e ->
  slabs_ok BUCKETS_PER_ALLOC e /\
  EratBig_delete e = pointers_ e /\
  NoDup (EratBig_delete e) /\
  (forall a, a < length (heap e) ->
     exists p, p ∈ pointers_ e /\ p <= a < p + BUCKETS_PER_ALLOC) /\
  (exists ls sk,
     wf BUCKETSIZE e ls sk [] /\
     (forall a, a < length (heap e) -> a ∈ mjoin ls \/ a ∈ sk) /\
     (forall a, a ∈ sk -> exists nx, heap e !! a = Some (mkBucket [] nx))) /\
  (forall sievingPrime multipleIndex wheelIndex e',
     storeSievingPrime BUCKETSIZE BUCKETS_PER_ALLOC sievingPrime multipleIndex wheelIndex e
       = Ok e' ->
     grows BUCKETS_PER_ALLOC e e' /\ length (heap e) <= length (heap e')) /\
  (forall fuel sieve e' sieve',
     crossOff WHEEL BUCKETSIZE BUCKETS_PER_ALLOC fuel (e, sieve) = Ok (e', sieve') ->
     grows BUCKETS_PER_ALLOC e e' /\ length (heap e) <= length (heap e')).
Proof.
  intros Hreach.
  destruct (reachable_wf WHEEL getMaxFactor BUCKETSIZE BUCKETS_PER_ALLOC
              BUCKETS_PER_ALLOC_pos BUCKETSIZE_pos e Hreach) as (ls & sk & Hwf & Hslabs).
  assert (Hdel : EratBig_delete e = pointers_ e).
  { unfold EratBig_delete. induction (pointers_ e) as [|p ps IH]; simpl; congruence. }
  destruct Hslabs as [Hptrs Hheap].
  split; [done|]. split; [done|]. split.
  { rewrite Hdel, Hptrs. apply NoDup_fmap_2_strong; [|apply NoDup_seq].
    intros x y _ _ Hxy. nia. }
  split.
  { intros a Ha. exists (a / BUCKETS_PER_ALLOC * BUCKETS_PER_ALLOC).
    pose proof (Nat.div_mod_eq a BUCKETS_PER_ALLOC) as Hdm.
    pose proof (Nat.mod_upper_bound a BUCKETS_PER_ALLOC ltac:(lia)) as Hm.
    split; [|lia]. rewrite Hptrs. apply list_elem_of_fmap.
    exists (a / BUCKETS_PER_ALLOC). split; [done|]. apply elem_of_seq.
    split; [lia|]. simpl. apply Nat.Div0.div_lt_upper_bound. lia. }
  split.
  { exists ls, sk. split; [done|]. pose proof (wf_wf_core _ _ _ _ _ Hwf) as Hcore. split.
    - intros a Ha. pose proof (wf_all _ _ _ _ Hcore a Ha) as Hin.
      rewrite app_nil_r in Hin. by apply elem_of_app in Hin.
    - intros a Ha.
      pose proof (proj1 (Forall_forall _ _) (wf_stock_empty _ _ _ _ Hcore) a Ha) as Hemp.
      pose proof (wf_nodup _ _ _ _ Hcore) as Hnd.
      assert (Hlt : a < length (heap e)).
      { eapply wf_core_valid; [exact Hcore|].
        apply elem_of_app. right. apply elem_of_app. by left. }
      destruct (lookup_lt_is_Some_2 (heap e) a Hlt) as [[wps nx] Hb].
      unfold bucket_at in Hemp. rewrite Hb in Hemp. simpl in Hemp. subst wps. by exists nx. }
  split.
  - intros p m w e' Hst.
    destruct (storeSievingPrime_wf BUCKETSIZE BUCKETS_PER_ALLOC BUCKETS_PER_ALLOC_pos
                p m w e e' ls sk Hwf Hst) as (ls' & sk' & _ & _ & Hg).
    split; [done|]. destruct Hg as (k & -> & _). lia.
  - intros fuel sieve e' sieve' Hrun.
    destruct (crossOff_wf WHEEL BUCKETSIZE BUCKETS_PER_ALLOC BUCKETS_PER_ALLOC_pos
                fuel e e' sieve sieve' ls sk Hwf Hrun)
      as (mid' & lsm' & skm' & a & rest & ls'' & sk'' & _ & _ & _ & _ & _ & _ & _
          & _ & _ & _ & _ & _ & Hg).
    split; [done|]. destruct Hg as (k & -> & _). lia.
Qed.

(** C9. In every state the object can be in, every entry of [lists_]
    points to a bucket of the heap, none is null. So
    [storeSievingPrime] and [crossOff], with whatever arguments,
    dereference no null or dangling pointer and write behind no bucket,
    and [storeSievingPrime] returns whenever
    [multipleIndex >> log2SieveSize_ < lists_.size()]. An object as the
    constructor returns it has in every entry of [lists_] a bucket of
    its own that is empty and has no next bucket. *)
Theorem lists_entries_not_null (e : EratBig) :
  reachable WHEEL getMaxFactor BUCKETSIZE BUCKETS_PER_ALLOC e ->
  (forall i, i < length (lists_ e) ->
     exists a b, lists_ e !! i = Some (Some a) /\ heap e !! a = Some b) /\
  (forall sievingPrime multipleIndex wheelIndex,
     pointer_safe (storeSievingPrime BUCKETSIZE BUCKETS_PER_ALLOC
                     sievingPrime multipleIndex wheelIndex e)) /\
  (forall sievingPrime multipleIndex wheelIndex,
     Z.to_nat (Z.shiftr multipleIndex (log2SieveSize_ e)) < length (lists_ e) ->
     exists e', storeSievingPrime BUCKETSIZE BUCKETS_PER_ALLOC
                  sievingPrime multipleIndex wheelIndex e = Ok e') /\
  (forall fuel sieve,
     pointer_safe (crossOff WHEEL BUCKETSIZE BUCKETS_PER_ALLOC fuel (e, sieve))) /\
  (forall soe e0,
     EratBig_new getMaxFactor BUCKETS_PER_ALLOC soe = Constructed e0 ->
     forall i, i < length (lists_ e0) ->
       exists a, lists_ e0 !! i = Some (Some a) /\
                 heap e0 !! a = Some (mkBucket [] None) /\
                 forall j, j <> i -> lists_ e0 !! j <> Some (Some a)).
Proof.
  intros Hreach.
  destruct (reachable_wf WHEEL getMaxFactor BUCKETSIZE BUCKETS_PER_ALLOC
              BUCKETS_PER_ALLOC_pos BUCKETSIZE_pos e Hreach) as (ls & sk & Hwf & _).
  pose proof (wf_wf_core _ _ _ _ _ Hwf) as Hcore.
  pose proof (wf_lists _ _ _ _ Hcore) as HF.
  pose proof (Forall2_length _ _ _ HF) as Hlen.
  assert (Hhead : forall i, i < length (lists_ e) ->
            exists a l b, ls !! i = Some (a :: l) /\ lists_ e !! i = Some (Some a) /\
                          heap e !! a = Some b).
  { intros i Hi. destruct (lookup_lt_is_Some_2 ls i ltac:(lia)) as [l0 Hl0].
    pose proof (Forall_lookup_1 _ _ _ _ (wf_room _ _ _ _ _ Hwf) Hl0) as Hr.
    destruct l0 as [|a l]; [done|].
    destruct (Forall2_lookup_r _ _ _ _ _ HF Hl0) as (p & Hp & Hc).
    simpl in Hc. destruct Hc as [-> Hc].
    destruct (heap e !! a) as [b|] eqn:Hb; [|done]. by exists a, l, b. }
  split.
  { intros i Hi. destruct (Hhead i Hi) as (a & l & b & _ & ? & ?). by exists a, b. }
  split.
  { intros p m w. eapply storeSievingPrime_safe; eassumption. }
  split.
  { intros p m w Hseg. destruct (Hhead _ Hseg) as (a & l & b & Hl0 & _ & _).
    destruct (storeOrPush_spec BUCKETSIZE BUCKETS_PER_ALLOC BUCKETS_PER_ALLOC_pos
                e ls sk [] (Z.shiftr m (log2SieveSize_ e))
                (mkWheelPrime p (Z.land m (moduloSieveSize_ e)) w) a l Hwf Hl0)
      as (e' & ls' & sk' & Hst & _).
    by exists e'. }
  split.
  { intros fuel sieve. eapply crossOff_safe; eassumption. }
  intros soe e0 Hnew i Hi.
  destruct (EratBig_new_wf getMaxFactor BUCKETSIZE BUCKETS_PER_ALLOC
              BUCKETS_PER_ALLOC_pos BUCKETSIZE_pos soe e0 Hnew)
    as (ls0 & sk0 & Hwf0 & _ & Hempty & Hone & _).
  pose proof (wf_wf_core _ _ _ _ _ Hwf0) as Hcore0.
  pose proof (wf_lists _ _ _ _ Hcore0) as HF0.
  pose proof (Forall2_length _ _ _ HF0) as Hlen0.
  destruct (lookup_lt_is_Some_2 ls0 i ltac:(lia)) as [l0 Hl0].
  destruct (Hone i l0 Hl0) as [a ->].
  destruct (Forall2_lookup_r _ _ _ _ _ HF0 Hl0) as (p & Hp & Hc).
  simpl in Hc. destruct Hc as [-> Hc].
  destruct (heap e0 !! a) as [[wps nx]|] eqn:Hb; [|done]. simpl in Hc. subst nx.
  pose proof (Hempty a) as Ha. unfold bucket_at in Ha. rewrite Hb in Ha. simpl in Ha.
  subst wps. exists a. split; [done|]. split; [done|].
  intros j Hj Hpj.
  destruct (Forall2_lookup_l _ _ _ _ _ HF0 Hpj) as (lj & Hlj & Hcj).
  destruct (Hone j lj Hlj) as [a' ->]. simpl in Hcj. destruct Hcj as [Heq _].
  simplify_eq.
  pose proof (wf_nodup _ _ _ _ Hcore0) as Hnd. apply NoDup_app in Hnd as (Hnd & _ & _).
  eapply (NoDup_join_disjoint ls0 i j); eauto; by left.
Qed.


End Statements.

Section Construction.

Variable getMaxFactor : Z.
Variable BUCKETS_PER_ALLOC : nat.

(** C4. The constructor, for a sieve size that [uint_t] holds. When the
    sieve size is not a power of two it throws [std::invalid_argument],
    and at the throw [lists_] has no entry, [pointers_] records no slab,
    the heap has no bucket and [stock_] is null: the error comes before
    [setListsSize] and before every allocation. When the sieve size is a
    power of two it does not throw [std::invalid_argument], and with
    [BUCKETS_PER_ALLOC > 0] it returns the object. *)
Theorem EratBig_new_power_of_2 (soe : SieveOfEratosthenes) :
  (0 <= getSieveSize soe < UINT_MODULUS)%Z ->
  (~ is_pow2 (getSieveSize soe) ->
     exists what members,
       EratBig_new getMaxFactor BUCKETS_PER_ALLOC soe = InvalidArgument what members /\
       lists_ members = [] /\ pointers_ members = [] /\
       heap members = [] /\ stock_ members = None) /\
  (is_pow2 (getSieveSize soe) ->
     (forall what members,
        EratBig_new getMaxFactor BUCKETS_PER_ALLOC soe <> InvalidArgument what members) /\
     (0 < BUCKETS_PER_ALLOC ->
      exists e, EratBig_new getMaxFactor BUCKETS_PER_ALLOC soe = Constructed e)).
Proof.
  intros Hrange. pose proof (isPowerOf2_spec (getSieveSize soe) Hrange) as Hspec.
  split.
  - intros Hnot. unfold EratBig_new.
    destruct (isPowerOf2 (getSieveSize soe)) eqn:Hp.
    + exfalso. apply Hnot. by apply Hspec.
    + simpl. eexists _, _. split; [reflexivity|]. done.
  - intros Hpow. apply Hspec in Hpow. split.
    + intros what members. unfold EratBig_new. rewrite Hpow. simpl.
      by destruct (init _).
    + intros Hpos.
      exact (EratBig_new_Constructed getMaxFactor 1 BUCKETS_PER_ALLOC Hpos Nat.lt_0_1
               soe Hpow).
Qed.

(** C6. The constructor, for a sieve size [S = 2^k], with
    [maxNextMultiple = sqrtStop / 30 * getMaxFactor() + getMaxFactor()]
    and [S + maxNextMultiple] below [2^32], so that nothing wraps around
    in [uint_t]: it returns an object whose [lists_] has
    [ceil (maxNextMultiple / S) + 1] entries, which is the value
    [((S - 1 + maxNextMultiple) >> log2 S) + 1] of [setListsSize];
    [ceil_div] is the least [c] with [maxNextMultiple <= c * S]. *)
Theorem lists_size_horizon (soe : SieveOfEratosthenes) (k : Z) :
  0 < BUCKETS_PER_ALLOC ->
  (0 <= k)%Z ->
  getSieveSize soe = (2 ^ k)%Z ->
  (0 <= getSqrtStop soe)%Z ->
  (0 <= getMaxFactor)%Z ->
  (getSieveSize soe + (getSqrtStop soe / 30 * getMaxFactor + getMaxFactor)
   < UINT_MODULUS)%Z ->
  let maxNextMultiple := (getSqrtStop soe / 30 * getMaxFactor + getMaxFactor)%Z in
  exists e,
    EratBig_new getMaxFactor BUCKETS_PER_ALLOC soe = Constructed e /\
    Z.of_nat (length (lists_ e)) = (ceil_div maxNextMultiple (getSieveSize soe) + 1)%Z /\
    Z.of_nat (length (lists_ e))
    = (Z.shiftr (getSieveSize soe - 1 + maxNextMultiple) (ilog2 (getSieveSize soe)) + 1)%Z /\
    listsSize getMaxFactor (ilog2 (getSieveSize soe)) soe
    = (ceil_div maxNextMultiple (getSieveSize soe) + 1)%Z /\
    ((ceil_div maxNextMultiple (getSieveSize soe) - 1) * getSieveSize soe
     < maxNextMultiple <= ceil_div maxNextMultiple (getSieveSize soe) * getSieveSize soe)%Z.
Proof.
  intros Hpos Hk HS Hsq Hmf Hfit M.
  assert (Hpow : (0 < 2 ^ k)%Z) by (apply Z.pow_pos_nonneg; lia).
  assert (Hp2 : isPowerOf2 (getSieveSize soe) = true).
  { apply isPowerOf2_spec; [|by exists k].
    assert (0 <= getSqrtStop soe / 30)%Z by (apply Z.div_pos; lia). nia. }
  destruct (EratBig_new_Constructed getMaxFactor 1 BUCKETS_PER_ALLOC Hpos Nat.lt_0_1 soe Hp2)
    as [e He].
  destruct (EratBig_new_wf getMaxFactor 1 BUCKETS_PER_ALLOC Hpos Nat.lt_0_1 soe e He)
    as (ls & sk & _ & _ & _ & _ & _ & _ & _ & Hlen).
  destruct (listsSize_eq getMaxFactor soe k Hk HS Hsq Hmf Hfit) as (Hceil & Hlog & Hshift).
  fold M in Hceil, Hshift.
  pose proof (ceil_div_spec M (getSieveSize soe) ltac:(lia)) as Hc.
  assert (0 <= ceil_div M (getSieveSize soe))%Z.
  { assert (0 <= M)%Z.
    { assert (0 <= getSqrtStop soe / 30)%Z by (apply Z.div_pos; lia). unfold M. nia. }
    nia. }
  exists e. split; [done|]. rewrite Hlen, Hlog.
  rewrite Hlog in Hceil, Hshift.
  split; [rewrite Z2Nat.id; lia|]. split; [rewrite Z2Nat.id; lia|]. done.
Qed.

End Construction.

(** * The small instance *)

Lemma small_wheel_ok : wheel_ok small_wheel 4 2.
Proof.
  intros w Hw. assert (w = 0 \/ w = 1 \/ w = 2 \/ w = 3)%Z as Hc by lia.
  destruct Hc as [-> | [-> | [-> | ->]]]; vm_compute; intuition congruence.
Qed.

Lemma small_new_eq : EratBig_new 2 3 small_soe = Constructed small_new.
Proof. reflexivity. Qed.

Lemma small_one_eq : storeSievingPrime 2 3 1 0 0 small_new = Ok small_one.
Proof. reflexivity. Qed.

Lemma small_two_eq : storeSievingPrime 2 3 2 5 1 small_one = Ok small_two.
Proof. reflexivity. Qed.

Lemma small_crossed_eq :
  crossOff small_wheel 2 3 10 (small_two, small_sieve) = Ok small_crossed.
Proof. reflexivity. Qed.

Lemma small_new_reachable : reachable small_wheel 2 2 3 small_new.
Proof. apply (reachable_new _ _ _ _ small_soe). reflexivity. Qed.

Lemma small_two_reachable : reachable small_wheel 2 2 3 small_two.
Proof.
  apply (reachable_store _ _ _ _ small_one 2 5 1); [|reflexivity].
  apply (reachable_store _ _ _ _ small_new 1 0 0); [|reflexivity].
  apply small_new_reachable.
Qed.

Lemma small_crossed_reachable : reachable small_wheel 2 2 3 small_crossed.1.
Proof.
  apply (reachable_crossOff _ _ _ _ small_two 10 small_sieve _ small_crossed.2);
    [|reflexivity].
  apply small_two_reachable.
Qed.

Lemma small_two_sieving : sieving small_wheel 2 2 3 4 small_soe small_two.
Proof.
  apply (sieving_store _ _ _ _ _ _ small_one 2 5 1); [|done|done|reflexivity].
  apply (sieving_store _ _ _ _ _ _ small_new 1 0 0); [|done|done|reflexivity].
  apply (sieving_new _ _ _ _ _ _ 3); done.
Qed.

Lemma storeSievingPrime_stores_small :
  reachable small_wheel 2 2 3 small_one /\
  exists a e',
    storeSievingPrime 2 3 2 5 1 small_one = Ok e' /\
    bucket_at (heap e') a = bucket_at (heap small_one) a ++ [mkWheelPrime 2 5 1].
Proof.
  assert (Hr : reachable small_wheel 2 2 3 small_one).
  { apply (reachable_store _ _ _ _ small_new 1 0 0); [|reflexivity].
    apply small_new_reachable. }
  split; [exact Hr|].
  destruct (storeSievingPrime_stores small_wheel 2 2 3 ltac:(lia) ltac:(lia)
              small_one 2 5 1 Hr ltac:(lia) ltac:(vm_compute; lia))
    as (ls & sk & a & l & e' & ls' & sk' & _ & _ & Hst & _ & Hb & _).
  exists a, e'. split; [exact Hst|exact Hb].
Defined.

Lemma crossOff_one_step_each_small :
  reachable small_wheel 2 2 3 small_two /\
  exists mid a,
    crossOff_drain small_wheel 2 3 10 (small_two, small_sieve) = Ok (mid, small_crossed.2) /\
    lists_ mid !! 0 = Some (Some a) /\
    heap mid !! a = Some (mkBucket [] None) /\
    rotate mid = Ok small_crossed.1.
Proof.
  split; [exact small_two_reachable|].
  destruct (crossOff_one_step_each small_wheel 2 2 3 ltac:(lia) ltac:(lia)
              small_two small_sieve small_two_reachable) as [Hpost _].
  destruct (Hpost 10 small_crossed.1 small_crossed.2 ltac:(reflexivity))
    as (ls & sk & mid & lsm & skm & a & _ & Hd & _ & _ & _ & _ & Ha & Hb & _ & Hrot).
  exists mid, a. split; [exact Hd|]. split; [exact Ha|]. split; [exact Hb|exact Hrot].
Defined.

Lemma EratBig_new_power_of_2_small :
  (0 <= getSieveSize (mkSoe 12 60) < UINT_MODULUS)%Z /\
  (~ is_pow2 12 ->
   exists what members,
     EratBig_new 2 3 (mkSoe 12 60) = InvalidArgument what members /\
     lists_ members = [] /\ pointers_ members = [] /\
     heap members = [] /\ stock_ members = None) /\
  (0 <= getSieveSize small_soe < UINT_MODULUS)%Z /\
  (is_pow2 8 -> exists e, EratBig_new 2 3 small_soe = Constructed e).
Proof.
  assert (H12 : (0 <= getSieveSize (mkSoe 12 60) < UINT_MODULUS)%Z)
    by (vm_compute; split; congruence).
  assert (H8 : (0 <= getSieveSize small_soe < UINT_MODULUS)%Z)
    by (vm_compute; split; congruence).
  split; [exact H12|]. split.
  { exact (proj1 (EratBig_new_power_of_2 2 3 (mkSoe 12 60) H12)). }
  split; [exact H8|].
  intros Hp. apply (proj2 (EratBig_new_power_of_2 2 3 small_soe H8) Hp). lia.
Defined.

Lemma lists_size_horizon_small :
  exists e,
    EratBig_new 2 3 small_soe = Constructed e /\
    Z.of_nat (length (lists_ e)) = (ceil_div 6 8 + 1)%Z.
Proof.
  destruct (lists_size_horizon 2 3 small_soe 3 ltac:(lia) ltac:(lia) ltac:(reflexivity)
              ltac:(simpl; lia) ltac:(lia) ltac:(vm_compute; reflexivity))
    as (e & He & Hlen & _).
  exists e. split; [exact He|exact Hlen].
Defined.

Lemma buckets_freed_by_destructor_only_small :
  reachable small_wheel 2 2 3 small_crossed.1 /\
  slabs_ok 3 small_crossed.1 /\
  EratBig_delete small_crossed.1 = pointers_ small_crossed.1.
Proof.
  split; [exact small_crossed_reachable|].
  destruct (buckets_freed_by_destructor_only small_wheel 2 2 3 ltac:(lia) ltac:(lia)
              small_crossed.1 small_crossed_reachable) as (Hs & Hd & _).
  split; [exact Hs|exact Hd].
Defined.

Lemma lists_entries_not_null_small :
  reachable small_wheel 2 2 3 small_crossed.1 /\
  forall i, i < length (lists_ small_crossed.1) ->
    exists a b, lists_ small_crossed.1 !! i = Some (Some a) /\
                heap small_crossed.1 !! a = Some b.
Proof.
  split; [exact small_crossed_reachable|].
  exact (proj1 (lists_entries_not_null small_wheel 2 2 3 ltac:(lia) ltac:(lia)
                  small_crossed.1 small_crossed_reachable)).
Defined.


(** * More on the calls of EratBig *)

(** ** Wheel steps, seen from the lists *)

Lemma only_cleared_refl (sieve : sieve_t) : only_cleared sieve sieve.
Proof.
  split; [done|]. intros i b b' Hb Hb'. simplify_eq. apply Z.land_diag.
Qed.

Lemma only_cleared_trans (s1 s2 s3 : sieve_t) :
  only_cleared s1 s2 -> only_cleared s2 s3 -> only_cleared s1 s3.
Proof.
  intros [Hl1 H1] [Hl2 H2]. split; [congruence|].
  intros i b b' Hb Hb'.
  destruct (lookup_lt_is_Some_2 s2 i) as [b2 Hb2].
  { rewrite Hl1. eapply lookup_lt_Some; eassumption. }
  pose proof (H1 i b b2 Hb Hb2) as E1. pose proof (H2 i b2 b' Hb2 Hb') as E2.
  rewrite <- E2, <- Z.land_assoc, E1. done.
Qed.

Lemma only_cleared_clear_bit (WHEEL : Z -> WheelElement) (sieve : sieve_t) (t : WheelPrime) :
  only_cleared sieve (clear_bit WHEEL sieve t).
Proof.
  unfold clear_bit. split; [by rewrite length_alter|].
  intros i b b' Hb Hb'. rewrite list_lookup_alter in Hb'. case_decide.
  - subst i. rewrite Hb in Hb'. simpl in Hb'. simplify_eq.
    apply Z.bits_inj'. intros n Hn.
    rewrite Z.land_spec, Z.ldiff_spec.
    by destruct (Z.testbit b n), (Z.testbit _ n).
  - rewrite Hb in Hb'. simplify_eq. apply Z.land_diag.
Qed.

Lemma only_cleared_mask (sieve sieve' : sieve_t) (i : nat) (b b' mask : Z) :
  only_cleared sieve sieve' ->
  sieve !! i = Some b -> sieve' !! i = Some b' ->
  Z.land b mask = 0%Z -> Z.land b' mask = 0%Z.
Proof.
  intros [_ H] Hb Hb' Hm. rewrite <- (H i b b' Hb Hb'), <- Z.land_assoc, Hm.
  apply Z.land_0_r.
Qed.

Lemma land_le_r (a b : Z) : (0 <= b)%Z -> (0 <= Z.land a b <= b)%Z.
Proof.
  intros Hb. split; [apply Z.land_nonneg; lia|].
  pose proof (Z.add_lor_land (Z.ldiff b a) (Z.land b a)) as H.
  rewrite Z.lor_ldiff_and in H.
  assert (Z.land (Z.ldiff b a) (Z.land b a) = 0)%Z as H0.
  { apply Z.bits_inj'. intros n Hn.
    rewrite !Z.land_spec, Z.ldiff_spec, Z.bits_0.
    by destruct (Z.testbit b n), (Z.testbit a n). }
  rewrite H0 in H.
  assert (0 <= Z.ldiff b a)%Z by (apply Z.ldiff_nonneg; lia).
  rewrite (Z.land_comm a b). lia.
Qed.

Lemma view_primes_perm (V V' : list (gmultiset WheelPrime)) :
  V ≡ₚ V' -> view_primes V = view_primes V'.
Proof.
  induction 1 as [|X V V' _ IH|X Y V|V V' V'' _ IH1 _ IH2]; simpl.
  - done.
  - by rewrite IH.
  - multiset_solver.
  - congruence.
Qed.

Lemma view_primes_alter_add (V : list (gmultiset WheelPrime)) (i : nat) (t : WheelPrime) :
  i < length V ->
  view_primes (alter (fun X => {[+ t +]} ⊎ X) i V)
  = {[+ getSievingPrime t +]} ⊎ view_primes V.
Proof.
  revert i. induction V as [|X V IH]; intros i Hi; simpl in *; [lia|].
  destruct i as [|i]; simpl.
  - rewrite gmultiset_map_disj_union, gmultiset_map_singleton. multiset_solver.
  - specialize (IH i ltac:(lia)). unfold alter in IH. rewrite IH. multiset_solver.
Qed.

Lemma view_primes_alter_remove (V : list (gmultiset WheelPrime)) (X0 : gmultiset WheelPrime)
    (t : WheelPrime) :
  V !! 0 = Some X0 -> t ∈ X0 ->
  {[+ getSievingPrime t +]} ⊎ view_primes (alter (fun X => X ∖ {[+ t +]}) 0 V)
  = view_primes V.
Proof.
  intros HV Ht. destruct V as [|X V]; simplify_eq/=.
  assert (X0 = {[+ t +]} ⊎ X0 ∖ {[+ t +]}) as HX.
  { apply gmultiset_disj_union_difference'. done. }
  rewrite HX at 2. rewrite gmultiset_map_disj_union, gmultiset_map_singleton.
  multiset_solver.
Qed.

Section Views.

Variable WHEEL : Z -> WheelElement.
Variables L modS : Z.

(** What one wheel step does to the lists and to the sieve array. *)
Lemma wheel_step_inv (x y : list (gmultiset WheelPrime) * sieve_t) :
  wheel_step WHEEL L modS x y ->
  exists X0 t,
    x.1 !! 0 = Some X0 /\ t ∈ X0 /\
    Z.to_nat (getMultipleIndex t) < length x.2 /\
    target WHEEL L t < length x.1 /\
    y.1 = alter (fun X => {[+ moved WHEEL modS t +]} ⊎ X) (target WHEEL L t)
                (alter (fun X => X ∖ {[+ t +]}) 0 x.1) /\
    y.2 = clear_bit WHEEL x.2 t.
Proof.
  intros [A sieve X0 t sieve' m' w' HA Ht Hu Hlt].
  apply unsetBit_Ok in Hu as [Hidx Heq]. simplify_eq. simpl.
  exists X0, t. done.
Qed.

Lemma wheel_step_facts (x y : list (gmultiset WheelPrime) * sieve_t) :
  wheel_step WHEEL L modS x y ->
  length y.1 = length x.1 /\
  only_cleared x.2 y.2 /\
  (forall j X, 0 < j -> x.1 !! j = Some X -> exists Y, y.1 !! j = Some Y /\ X ⊆ Y) /\
  view_primes y.1 = view_primes x.1 /\
  ((0 <= modS)%Z -> offsets_ok modS x.1 ->
   offsets_ok modS y.1 /\
   forall i, (modS < Z.of_nat i)%Z -> y.2 !! i = x.2 !! i).
Proof.
  intros Hstep. destruct (wheel_step_inv x y Hstep) as (X0 & t & HX0 & Ht & Hidx & Htg & -> & ->).
  split; [by rewrite !length_alter|]. split; [apply only_cleared_clear_bit|]. split.
  { intros j X Hj HX. rewrite !list_lookup_alter.
    repeat case_decide; simplify_eq; try lia; rewrite HX; simpl;
      eexists; (split; [done|]); multiset_solver. }
  split.
  { rewrite view_primes_alter_add by (by rewrite length_alter).
    change (getSievingPrime (moved WHEEL modS t)) with (getSievingPrime t).
    eapply view_primes_alter_remove; eassumption. }
  intros HmodS Hok. split.
  - intros j X t' Hj Ht'. rewrite !list_lookup_alter in Hj.
    assert (Hmoved : (0 <= getMultipleIndex (moved WHEEL modS t) <= modS)%Z)
      by (by apply land_le_r).
    repeat case_decide; simplify_eq.
    + destruct (x.1 !! 0) as [X1|] eqn:HX1; simplify_eq/=.
      apply gmultiset_elem_of_disj_union in Ht' as [Ht'|Ht'].
      * by apply gmultiset_elem_of_singleton in Ht' as ->.
      * eapply (Hok 0); [eassumption|]. multiset_solver.
    + destruct (x.1 !! target WHEEL L t) as [X1|] eqn:HX1; simplify_eq/=.
      apply gmultiset_elem_of_disj_union in Ht' as [Ht'|Ht'].
      * by apply gmultiset_elem_of_singleton in Ht' as ->.
      * eapply Hok; eassumption.
    + destruct (x.1 !! 0) as [X1|] eqn:HX1; simplify_eq/=.
      eapply (Hok 0); [eassumption|]. multiset_solver.
    + eapply Hok; eassumption.
  - intros i Hi. unfold clear_bit. rewrite list_lookup_alter_ne; [done|].
    pose proof (Hok 0 X0 t HX0 Ht). lia.
Qed.

End Views.

Section ViewSteps.

Variable WHEEL : Z -> WheelElement.
Variables L modS : Z.

Lemma wheel_steps_facts (x y : list (gmultiset WheelPrime) * sieve_t) :
  rtc (wheel_step WHEEL L modS) x y ->
  length y.1 = length x.1 /\
  only_cleared x.2 y.2 /\
  (forall j X, 0 < j -> x.1 !! j = Some X -> exists Y, y.1 !! j = Some Y /\ X ⊆ Y) /\
  view_primes y.1 = view_primes x.1 /\
  ((0 <= modS)%Z -> offsets_ok modS x.1 ->
   offsets_ok modS y.1 /\
   forall i, (modS < Z.of_nat i)%Z -> y.2 !! i = x.2 !! i).
Proof.
  induction 1 as [x|x z y Hstep _ IH].
  - split; [done|]. split; [apply only_cleared_refl|]. split; [|done].
    intros j X _ HX. by exists X.
  - destruct (wheel_step_facts WHEEL L modS x z Hstep) as (Hl1 & Hc1 & Hg1 & Hv1 & Ho1).
    destruct IH as (Hl2 & Hc2 & Hg2 & Hv2 & Ho2).
    split; [congruence|]. split; [eapply only_cleared_trans; eassumption|]. split.
    { intros j X Hj HX. destruct (Hg1 j X Hj HX) as (Y & HY & HXY).
      destruct (Hg2 j Y Hj HY) as (Y' & HY' & HYY'). exists Y'. split; [done|].
      multiset_solver. }
    split; [congruence|]. intros HmodS Hok.
    destruct (Ho1 HmodS Hok) as [Hok1 Hf1]. destruct (Ho2 HmodS Hok1) as [Hok2 Hf2].
    split; [done|]. intros i Hi. by rewrite Hf2, Hf1.
Qed.

(** When list 0 has been emptied, the bit of every sieving prime it
    held has been cleared. *)
Lemma wheel_steps_cleared (x y : list (gmultiset WheelPrime) * sieve_t) :
  rtc (wheel_step WHEEL L modS) x y ->
  forall X0 t,
    x.1 !! 0 = Some X0 -> t ∈ X0 -> y.1 !! 0 = Some ∅ ->
    exists b', y.2 !! Z.to_nat (getMultipleIndex t) = Some b' /\
               Z.land b' (unsetBit_ (WHEEL (getWheelIndex t))) = 0%Z.
Proof.
  induction 1 as [x|x z y Hstep Hrest IH]; intros X0 t HX0 Ht Hy.
  - rewrite HX0 in Hy. simplify_eq. multiset_solver.
  - destruct (wheel_step_inv WHEEL L modS x z Hstep)
      as (X1 & t0 & HX1 & Ht0 & Hidx & Htg & Hz1 & Hz2).
    rewrite HX0 in HX1. simplify_eq.
    destruct (decide (t0 = t)) as [->|Hne].
    + destruct (wheel_steps_facts z y Hrest) as (_ & Hc & _).
      destruct (lookup_lt_is_Some_2 x.2 _ Hidx) as [b Hb].
      assert (Hzb : z.2 !! Z.to_nat (getMultipleIndex t)
                    = Some (Z.ldiff b (unsetBit_ (WHEEL (getWheelIndex t))))).
      { rewrite Hz2. unfold clear_bit. rewrite list_lookup_alter_eq, Hb. done. }
      destruct (lookup_lt_is_Some_2 y.2 (Z.to_nat (getMultipleIndex t))) as [b' Hb'].
      { rewrite (proj1 Hc). eapply lookup_lt_Some; eassumption. }
      exists b'. split; [done|].
      eapply only_cleared_mask; [exact Hc|exact Hzb|exact Hb'|].
      apply Z.bits_inj'. intros n Hn.
      rewrite Z.land_spec, Z.ldiff_spec, Z.bits_0.
      by destruct (Z.testbit b n), (Z.testbit _ n).
    + assert (Hin : exists X', z.1 !! 0 = Some X' /\ t ∈ X').
      { rewrite Hz1, !list_lookup_alter. repeat case_decide; simplify_eq;
          rewrite ?HX0; simpl; eexists; (split; [done|]); multiset_solver. }
      destruct Hin as (X' & HX' & Ht'). eapply IH; eassumption.
Qed.

(** When list 0 has been emptied, every sieving prime it held whose
    wheel step leads to a later segment is in the list of that
    segment, as the step has left it. *)
Lemma wheel_steps_routed (x y : list (gmultiset WheelPrime) * sieve_t) :
  rtc (wheel_step WHEEL L modS) x y ->
  forall X0 t,
    x.1 !! 0 = Some X0 -> t ∈ X0 -> y.1 !! 0 = Some ∅ ->
    0 < target WHEEL L t ->
    target WHEEL L t < length x.1 /\
    exists Y, y.1 !! target WHEEL L t = Some Y /\ moved WHEEL modS t ∈ Y.
Proof.
  induction 1 as [x|x z y Hstep Hrest IH]; intros X0 t HX0 Ht Hy Htg.
  - rewrite HX0 in Hy. simplify_eq. multiset_solver.
  - destruct (wheel_step_inv WHEEL L modS x z Hstep)
      as (X1 & t0 & HX1 & Ht0 & Hidx & Htg0 & Hz1 & Hz2).
    rewrite HX0 in HX1. simplify_eq.
    destruct (wheel_step_facts WHEEL L modS x z Hstep) as (Hlen & _).
    destruct (decide (t0 = t)) as [->|Hne].
    + split; [done|].
      destruct (wheel_steps_facts z y Hrest) as (_ & _ & Hgrow & _).
      destruct (lookup_lt_is_Some_2 x.1 _ Htg0) as [X Hx].
      assert (Hz : z.1 !! target WHEEL L t
                   = Some ({[+ moved WHEEL modS t +]} ⊎ X)).
      { rewrite Hz1, list_lookup_alter_eq, list_lookup_alter_ne by lia. by rewrite Hx. }
      destruct (Hgrow _ _ Htg Hz) as (Y & HY & Hsub). exists Y. split; [done|].
      multiset_solver.
    + assert (Hin : exists X', z.1 !! 0 = Some X' /\ t ∈ X').
      { rewrite Hz1, !list_lookup_alter. repeat case_decide; simplify_eq;
          rewrite ?HX0; simpl; eexists; (split; [done|]); multiset_solver. }
      destruct Hin as (X' & HX' & Ht').
      destruct (IH X' t HX' Ht' Hy Htg) as [Hlt HY]. split; [|done]. by rewrite <- Hlen.
Qed.

End ViewSteps.

(** ** The lists read from the heap *)

Lemma chain_primes_chain (fuel : nat) (h : list Bucket) (p : ptr) (l : list addr) :
  is_chain h p l -> length l <= fuel ->
  chain_primes fuel h p = mjoin (bucket_at h <$> l).
Proof.
  revert fuel p. induction l as [|a l IH]; intros fuel p Hc Hlen; simpl in *.
  - subst p. by destruct fuel.
  - destruct Hc as [-> Hc]. destruct fuel as [|fuel]; [lia|]. simpl.
    unfold bucket_at at 1. destruct (h !! a) as [b|]; [|done].
    rewrite (IH fuel (next_ b)); [done|done|lia].
Qed.

Lemma NoDup_bounded_length (l : list nat) (n : nat) :
  NoDup l -> Forall (fun a => a < n) l -> length l <= n.
Proof.
  intros Hnd Hall. assert (length l <= length (seq 0 n)) as H; [|by rewrite length_seq in H].
  apply submseteq_length, NoDup_submseteq; [done|].
  intros x Hx. apply elem_of_seq. rewrite Forall_forall in Hall.
  specialize (Hall x Hx). lia.
Qed.

Lemma list_primes_view (e : EratBig) ls sk ex (j : nat) (l : list addr) :
  wf_core e ls sk ex -> ls !! j = Some l ->
  list_primes e j = mjoin (bucket_at (heap e) <$> l) /\
  list_to_set_disj (list_primes e j) = primes_of (heap e) l.
Proof.
  intros Hcore Hl. pose proof (wf_lists _ _ _ _ Hcore) as HF.
  destruct (Forall2_lookup_r _ _ _ _ _ HF Hl) as (p & Hp & Hc).
  assert (Heq : list_primes e j = mjoin (bucket_at (heap e) <$> l)).
  { unfold list_primes. rewrite Hp. simpl. apply chain_primes_chain; [done|].
    apply NoDup_bounded_length; [|by eapply is_chain_valid].
    pose proof (wf_nodup _ _ _ _ Hcore) as Hnd. apply NoDup_app in Hnd as (Hnd & _ & _).
    eapply NoDup_join_lookup; eassumption. }
  split; [done|]. by rewrite Heq.
Qed.

Lemma list_primes_elem (e : EratBig) ls sk ex (j : nat) (t : WheelPrime) :
  wf_core e ls sk ex -> j < length ls ->
  exists X, primes_view e ls !! j = Some X /\ (t ∈ list_primes e j <-> t ∈ X).
Proof.
  intros Hcore Hj. destruct (lookup_lt_is_Some_2 ls j Hj) as [l Hl].
  destruct (list_primes_view e ls sk ex j l Hcore Hl) as [_ Heq].
  exists (primes_of (heap e) l). split.
  - unfold primes_view. by rewrite list_lookup_fmap, Hl.
  - rewrite <- Heq. by rewrite elem_of_list_to_set_disj.
Qed.

Lemma list_primes_out (e : EratBig) (j : nat) :
  length (lists_ e) <= j -> list_primes e j = [].
Proof.
  intros Hj. unfold list_primes. rewrite lookup_ge_None_2 by done. simpl.
  by destruct (length (heap e)).
Qed.

(** ** The sieving primes of the heap and of the lists *)

Lemma gmultiset_map_list (xs : list WheelPrime) :
  gmultiset_map getSievingPrime (list_to_set_disj xs)
  = list_to_set_disj (getSievingPrime <$> xs).
Proof.
  induction xs as [|x xs IH]; simpl.
  - apply gmultiset_map_empty.
  - by rewrite gmultiset_map_disj_union, gmultiset_map_singleton, IH.
Qed.

Lemma buckets_by_address (h : list Bucket) :
  wheelPrimes_ <$> h = bucket_at h <$> seq 0 (length h).
Proof.
  apply list_eq. intros i. rewrite !list_lookup_fmap. unfold bucket_at.
  destruct (decide (i < length h)) as [Hi|Hi].
  - rewrite lookup_seq_lt by done. simpl.
    destruct (lookup_lt_is_Some_2 h i Hi) as [b Hb]. by rewrite Hb.
  - rewrite lookup_seq_ge by lia. by rewrite lookup_ge_None_2 by lia.
Qed.

Lemma primes_at_cons (h : list Bucket) (a : addr) (l : list addr) :
  list_to_set_disj (C := gmultiset Z) (getSievingPrime <$> mjoin (bucket_at h <$> a :: l))
  = list_to_set_disj (getSievingPrime <$> bucket_at h a)
    ⊎ list_to_set_disj (getSievingPrime <$> mjoin (bucket_at h <$> l)).
Proof.
  change (mjoin (bucket_at h <$> a :: l)) with (bucket_at h a ++ mjoin (bucket_at h <$> l)).
  by rewrite fmap_app, list_to_set_disj_app.
Qed.

(** The sieving primes of the buckets at the addresses [l]. *)
Lemma primes_at_perm (h : list Bucket) (l l' : list addr) :
  l ≡ₚ l' ->
  list_to_set_disj (C := gmultiset Z) (getSievingPrime <$> mjoin (bucket_at h <$> l))
  = list_to_set_disj (getSievingPrime <$> mjoin (bucket_at h <$> l')).
Proof.
  induction 1 as [|x l l' _ IH|x y l|l l' l'' _ IH1 _ IH2].
  - done.
  - by rewrite !primes_at_cons, IH.
  - rewrite !primes_at_cons. multiset_solver.
  - congruence.
Qed.

Lemma primes_at_join (h : list Bucket) (ls : list (list addr)) :
  list_to_set_disj (C := gmultiset Z) (getSievingPrime <$> mjoin (bucket_at h <$> mjoin ls))
  = view_primes (primes_of h <$> ls).
Proof.
  induction ls as [|l ls IH]; [done|].
  change (mjoin (l :: ls)) with (l ++ mjoin ls).
  change (view_primes (primes_of h <$> l :: ls))
    with (gmultiset_map getSievingPrime (primes_of h l) ⊎ view_primes (primes_of h <$> ls)).
  rewrite fmap_app, join_app, fmap_app, list_to_set_disj_app, IH.
  unfold primes_of. by rewrite gmultiset_map_list.
Qed.

Lemma empty_buckets_join (h : list Bucket) (l : list addr) :
  Forall (fun a => bucket_at h a = []) l -> mjoin (bucket_at h <$> l) = [].
Proof.
  induction 1 as [|a l Ha _ IH]; [done|].
  change (mjoin (bucket_at h <$> a :: l)) with (bucket_at h a ++ mjoin (bucket_at h <$> l)).
  by rewrite Ha, IH.
Qed.

(** The buckets of the heap are those of the lists and of the stock. *)
Lemma heap_partition (e : EratBig) ls sk :
  wf_core e ls sk [] -> seq 0 (length (heap e)) ≡ₚ mjoin ls ++ sk.
Proof.
  intros Hcore.
  pose proof (wf_nodup _ _ _ _ Hcore) as Hnd. rewrite app_nil_r in Hnd.
  apply NoDup_Permutation; [apply NoDup_seq|done|]. intros x. split.
  - intros Hx. apply elem_of_seq in Hx.
    pose proof (wf_all _ _ _ _ Hcore x ltac:(lia)) as Hin. by rewrite app_nil_r in Hin.
  - intros Hx. apply elem_of_seq. split; [lia|]. simpl.
    eapply wf_core_valid; [exact Hcore|]. by rewrite app_nil_r.
Qed.

Lemma stored_primes_view (e : EratBig) ls sk :
  wf_core e ls sk [] ->
  list_to_set_disj (getSievingPrime <$> stored_primes e)
  = view_primes (primes_view e ls).
Proof.
  intros Hcore. unfold stored_primes. rewrite buckets_by_address.
  rewrite (primes_at_perm _ _ _ (heap_partition e ls sk Hcore)).
  rewrite fmap_app, join_app, fmap_app, list_to_set_disj_app, primes_at_join.
  rewrite (empty_buckets_join _ _ (wf_stock_empty _ _ _ _ Hcore)). simpl. unfold primes_view. multiset_solver.
Qed.

(** A sieving prime of a bucket is a sieving prime of a list. *)
Lemma stored_in_view (e : EratBig) ls sk (a : addr) (b : Bucket) (t : WheelPrime) :
  wf_core e ls sk [] ->
  heap e !! a = Some b ->
  t ∈ wheelPrimes_ b ->
  exists j X, primes_view e ls !! j = Some X /\ t ∈ X.
Proof.
  intros Hcore Hb Ht.
  assert (Hat : bucket_at (heap e) a = wheelPrimes_ b) by (unfold bucket_at; by rewrite Hb).
  pose proof (wf_all _ _ _ _ Hcore a ltac:(eapply lookup_lt_Some; eassumption)) as Hin.
  rewrite app_nil_r in Hin. apply elem_of_app in Hin as [Hin|Hin].
  - apply list_elem_of_join in Hin as (l & Ha & Hl).
    apply list_elem_of_lookup_1 in Hl as [j Hj].
    exists j, (primes_of (heap e) l). split.
    + unfold primes_view. by rewrite list_lookup_fmap, Hj.
    + unfold primes_of. apply elem_of_list_to_set_disj, list_elem_of_join.
      exists (bucket_at (heap e) a). split; [by rewrite Hat|].
      apply list_elem_of_fmap. by exists a.
  - pose proof (proj1 (Forall_forall _ _) (wf_stock_empty _ _ _ _ Hcore) a Hin) as Hemp.
    simpl in Hemp. rewrite Hat in Hemp. rewrite Hemp in Ht. by apply elem_of_nil in Ht.
Qed.

Lemma elements_list_to_set_disj (l : list Z) :
  elements (list_to_set_disj l : gmultiset Z) ≡ₚ l.
Proof.
  induction l as [|x l IH]; simpl.
  - by rewrite gmultiset_elements_empty.
  - by rewrite gmultiset_elements_disj_union, gmultiset_elements_singleton, IH.
Qed.

Lemma list_to_set_disj_perm_inv (l k : list Z) :
  list_to_set_disj l =@{gmultiset Z} list_to_set_disj k -> l ≡ₚ k.
Proof.
  intros H. by rewrite <- (elements_list_to_set_disj l), H, elements_list_to_set_disj.
Qed.

Lemma is_chain_head (h : list Bucket) (p : ptr) (l : list addr) :
  is_chain h p l -> p = head l.
Proof. destruct l; simpl; [done|]. by intros [-> _]. Qed.

Lemma offsets_ok_rotate (modS : Z) (V : list (gmultiset WheelPrime)) :
  offsets_ok modS V -> offsets_ok modS (drop 1 V ++ take 1 V).
Proof.
  intros Hok j X t Hj Ht. apply lookup_app_Some in Hj as [Hj|[_ Hj]].
  - rewrite lookup_drop in Hj. eapply Hok; eassumption.
  - apply lookup_take_Some in Hj as [Hj _]. eapply Hok; eassumption.
Qed.

Section Offsets.

Variable WHEEL : Z -> WheelElement.
Variable getMaxFactor : Z.
Variable BUCKETSIZE : nat.
Variable BUCKETS_PER_ALLOC : nat.
Hypothesis BUCKETS_PER_ALLOC_pos : 0 < BUCKETS_PER_ALLOC.
Hypothesis BUCKETSIZE_pos : 0 < BUCKETSIZE.

(** Every multiple index that is stored has been cut down with
    [& moduloSieveSize_]. *)
Lemma reachable_offsets (e : EratBig) :
  reachable WHEEL getMaxFactor BUCKETSIZE BUCKETS_PER_ALLOC e ->
  exists ls sk,
    wf BUCKETSIZE e ls sk [] /\
    (0 <= moduloSieveSize_ e)%Z /\
    offsets_ok (moduloSieveSize_ e) (primes_view e ls).
Proof.
  induction 1 as [soe e Hnew|e p m w e' _ IH Hst|e fuel sieve e' sieve' _ IH Hc].
  - destruct (EratBig_new_wf getMaxFactor BUCKETSIZE BUCKETS_PER_ALLOC
                BUCKETS_PER_ALLOC_pos BUCKETSIZE_pos soe e Hnew)
      as (ls & sk & Hwf & _ & Hempty & _ & _ & _ & HM & _).
    exists ls, sk. split; [done|]. split.
    { rewrite HM. unfold wrap, UINT_MODULUS. apply Z.mod_pos_bound. done. }
    intros j X t Hj Ht. unfold primes_view in Hj. rewrite list_lookup_fmap in Hj.
    apply fmap_Some in Hj as (l & _ & ->). unfold primes_of in Ht.
    apply elem_of_list_to_set_disj, list_elem_of_join in Ht as (ts & Ht & Hts).
    apply list_elem_of_fmap in Hts as (a & -> & _). rewrite Hempty in Ht.
    by apply elem_of_nil in Ht.
  - destruct IH as (ls & sk & Hwf & HM & Hok).
    destruct (storeSievingPrime_wf BUCKETSIZE BUCKETS_PER_ALLOC BUCKETS_PER_ALLOC_pos
                _ _ _ _ _ _ _ Hwf Hst) as (ls' & sk' & Hwf' & Hv & Hg).
    exists ls', sk'. split; [done|].
    pose proof Hg as (kk & _ & _ & _ & _ & HM'). rewrite HM', Hv. split; [done|].
    intros j X t Hj Ht. rewrite list_lookup_alter in Hj. case_decide as Hd.
    + apply fmap_Some in Hj as (X' & HX' & ->).
      apply gmultiset_elem_of_disj_union in Ht as [Ht|Ht]; [|eapply Hok; eassumption].
      apply gmultiset_elem_of_singleton in Ht as ->. simpl. by apply land_le_r.
    + eapply Hok; eassumption.
  - destruct IH as (ls & sk & Hwf & HM & Hok).
    destruct (crossOff_wf WHEEL BUCKETSIZE BUCKETS_PER_ALLOC BUCKETS_PER_ALLOC_pos
                fuel e e' sieve sieve' ls sk Hwf Hc)
      as (mid & lsm & skm & a & rest & ls' & sk' & _ & _ & Hsteps & _ & _ & _ & _
          & _ & Hwf' & Hv & _ & _ & Hg).
    exists ls', sk'. split; [done|].
    pose proof Hg as (kk & _ & _ & _ & _ & HM'). rewrite HM', Hv. split; [done|].
    apply offsets_ok_rotate.
    destruct (wheel_steps_facts _ _ _ _ _ Hsteps) as (_ & _ & _ & _ & Ho).
    by destruct (Ho HM Hok).
Qed.

End Offsets.

(** * More of what the calls do *)

Section MoreCalls.

Variable WHEEL : Z -> WheelElement.
Variable getMaxFactor : Z.
Variable BUCKETSIZE : nat.
Variable BUCKETS_PER_ALLOC : nat.
Hypothesis BUCKETS_PER_ALLOC_pos : 0 < BUCKETS_PER_ALLOC.
Hypothesis BUCKETSIZE_pos : 0 < BUCKETSIZE.

(** X1. [storeSievingPrime] does not compare [segment] with
    [lists_.size()]: in every state the object can be in it returns
    exactly when [multipleIndex >> log2SieveSize_] is an index of
    [lists_], and otherwise its first step is the read of [lists_]
    behind its end. *)
Theorem storeSievingPrime_returns_iff (e : EratBig) (sievingPrime multipleIndex wheelIndex : Z) :
  reachable WHEEL getMaxFactor BUCKETSIZE BUCKETS_PER_ALLOC e ->
  ((exists e', storeSievingPrime BUCKETSIZE BUCKETS_PER_ALLOC
                sievingPrime multipleIndex wheelIndex e = Ok e')
   <-> Z.to_nat (Z.shiftr multipleIndex (log2SieveSize_ e)) < length (lists_ e)) /\
  (length (lists_ e) <= Z.to_nat (Z.shiftr multipleIndex (log2SieveSize_ e)) ->
   storeSievingPrime BUCKETSIZE BUCKETS_PER_ALLOC sievingPrime multipleIndex wheelIndex e
   = Err BadIndex).
Proof.
  intros Hreach.
  destruct (reachable_wf WHEEL getMaxFactor BUCKETSIZE BUCKETS_PER_ALLOC
              BUCKETS_PER_ALLOC_pos BUCKETSIZE_pos e Hreach) as (ls & sk & Hwf & _).
  pose proof (Forall2_length _ _ _ (wf_lists _ _ _ _ (wf_wf_core _ _ _ _ _ Hwf))) as Hlen.
  split; [split|].
  - intros [e' Hst]. rewrite Hlen. eapply storeOrPush_Ok_inv; eassumption.
  - intros Hseg. destruct (lookup_lt_is_Some_2 ls _ ltac:(rewrite <- Hlen; exact Hseg))
      as [l0 Hl0].
    pose proof (Forall_lookup_1 _ _ _ _ (wf_room _ _ _ _ _ Hwf) Hl0) as Hr.
    destruct l0 as [|a l]; [done|].
    destruct (storeOrPush_spec BUCKETSIZE BUCKETS_PER_ALLOC BUCKETS_PER_ALLOC_pos
                e ls sk [] (Z.shiftr multipleIndex (log2SieveSize_ e))
                (mkWheelPrime sievingPrime (Z.land multipleIndex (moduloSieveSize_ e))
                              wheelIndex) a l Hwf Hl0)
      as (e' & ls' & sk' & Hst & _).
    by exists e'.
  - intros Hout. unfold storeSievingPrime, storeOrPush, list_at.
    by rewrite lookup_ge_None_2.
Qed.

(** X2. [pushBucket(segment)], in every state the object can be in and
    for an index of [lists_]: it returns; [lists_[segment]] is a bucket
    that holds no sieving prime and whose next bucket is the one
    [lists_[segment]] was before; no other entry of [lists_] and no
    other bucket is written, and every list holds the sieving primes it
    held. The bucket is the first of the stock, or, the stock being
    empty, the first of a new slab of [BUCKETS_PER_ALLOC] buckets that
    [pointers_] records. *)
Theorem pushBucket_links (e : EratBig) (segment : Z) :
  reachable WHEEL getMaxFactor BUCKETSIZE BUCKETS_PER_ALLOC e ->
  Z.to_nat segment < length (lists_ e) ->
  exists e' a',
    pushBucket BUCKETS_PER_ALLOC segment e = Ok e' /\
    lists_ e' = <[Z.to_nat segment := Some a']> (lists_ e) /\
    heap e' !! a' = Some (mkBucket [] (default None (lists_ e !! Z.to_nat segment))) /\
    (forall x, x < length (heap e) -> x <> a' -> heap e' !! x = heap e !! x) /\
    (forall j, list_primes e' j = list_primes e j) /\
    (stock_ e = Some a' /\ length (heap e') = length (heap e) /\
       pointers_ e' = pointers_ e
     \/
     stock_ e = None /\ a' = length (heap e) /\
       length (heap e') = length (heap e) + BUCKETS_PER_ALLOC /\
       pointers_ e' = pointers_ e ++ [length (heap e)]).
Proof.
  intros Hreach Hseg.
  destruct (reachable_wf WHEEL getMaxFactor BUCKETSIZE BUCKETS_PER_ALLOC
              BUCKETS_PER_ALLOC_pos BUCKETSIZE_pos e Hreach) as (ls & sk & Hwf & _).
  pose proof (wf_wf_core _ _ _ _ _ Hwf) as Hcore.
  pose proof (wf_lists _ _ _ _ Hcore) as HF.
  pose proof (Forall2_length _ _ _ HF) as Hlen.
  destruct (lookup_lt_is_Some_2 ls (Z.to_nat segment) ltac:(lia)) as [l Hl].
  destruct (pushBucket_spec BUCKETS_PER_ALLOC BUCKETS_PER_ALLOC_pos e ls sk [] segment l
              Hcore Hl)
    as (e' & a' & sk' & Hpush & Hcore' & Hcase & Hfresh & Hemp & Hkeep & Hkeep' & Hlists & _).
  exists e', a'. split; [done|]. split; [done|].
  pose proof (wf_lists _ _ _ _ Hcore') as HF'.
  assert (Hl' : <[Z.to_nat segment := a' :: l]> ls !! Z.to_nat segment = Some (a' :: l)).
  { apply list_lookup_insert_eq. lia. }
  destruct (Forall2_lookup_r _ _ _ _ _ HF Hl) as (p & Hp & Hc).
  destruct (Forall2_lookup_r _ _ _ _ _ HF' Hl') as (p' & Hp' & Hc').
  simpl in Hc'. destruct Hc' as [-> Hc'].
  destruct (heap e' !! a') as [[wps nx]|] eqn:Hb; [|done]. simpl in Hc'.
  split.
  { unfold bucket_at in Hemp. rewrite Hb in Hemp. simpl in Hemp. subst wps.
    rewrite Hp. simpl. apply is_chain_head in Hc, Hc'. by subst. }
  split; [done|]. split.
  { intros j. destruct (decide (j < length ls)) as [Hj|Hj].
    - destruct (lookup_lt_is_Some_2 ls j Hj) as [lj Hlj].
      destruct (list_primes_view e ls sk [] j lj Hcore Hlj) as [-> _].
      assert (Hsame : forall x, x ∈ lj -> bucket_at (heap e') x = bucket_at (heap e) x).
      { intros x Hx. apply Hkeep'. eapply wf_core_valid; [exact Hcore|].
        apply elem_of_app. left. eapply elem_of_join_lookup; eassumption. }
      assert (Hmap : mjoin (bucket_at (heap e') <$> lj) = mjoin (bucket_at (heap e) <$> lj)).
      { f_equal. apply list_fmap_ext. intros i x Hx. apply Hsame.
        eapply list_elem_of_lookup_2; eassumption. }
      destruct (decide (j = Z.to_nat segment)) as [->|Hne].
      + assert (lj = l) as -> by congruence.
        destruct (list_primes_view e' _ sk' [] _ _ Hcore' Hl') as [-> _].
        change (mjoin (bucket_at (heap e') <$> a' :: l))
          with (bucket_at (heap e') a' ++ mjoin (bucket_at (heap e') <$> l)).
        by rewrite Hemp, Hmap.
      + assert (Hlj' : <[Z.to_nat segment := a' :: l]> ls !! j = Some lj).
        { by rewrite list_lookup_insert_ne. }
        by destruct (list_primes_view e' _ sk' [] _ _ Hcore' Hlj') as [-> _].
    - rewrite !list_primes_out; [done|lia|].
      rewrite Hlists, length_insert. lia. }
  pose proof (wf_stock _ _ _ _ Hcore) as Hsk. apply is_chain_head in Hsk.
  destruct Hcase as [(-> & ? & ?)|(-> & Hseq & ? & ?)]; [by left|right].
  split; [done|]. split; [|done].
  destruct BUCKETS_PER_ALLOC; [lia|]. simpl in Hseq. by simplify_eq.
Qed.

(** X3. [crossOff(sieve)] when [lists_[0]] holds no sieving prime, in
    every state the object can be in with a [lists_] that is not empty:
    the [while] loop is not entered, so no byte of the sieve array is
    read or written, no bucket is touched and nothing is allocated; the
    call only moves the entries of [lists_] one place down, the first
    becoming the last. *)
Theorem crossOff_idle (e : EratBig) (sieve : sieve_t) (fuel : nat) :
  reachable WHEEL getMaxFactor BUCKETSIZE BUCKETS_PER_ALLOC e ->
  0 < length (lists_ e) ->
  list_primes e 0 = [] ->
  crossOff WHEEL BUCKETSIZE BUCKETS_PER_ALLOC (S fuel) (e, sieve)
  = Ok (set_lists (drop 1 (lists_ e) ++ take 1 (lists_ e)) e, sieve).
Proof.
  intros Hreach Hlen Hnone.
  destruct (reachable_wf WHEEL getMaxFactor BUCKETSIZE BUCKETS_PER_ALLOC
              BUCKETS_PER_ALLOC_pos BUCKETSIZE_pos e Hreach) as (ls & sk & Hwf & _).
  pose proof (wf_wf_core _ _ _ _ _ Hwf) as Hcore.
  pose proof (Forall2_length _ _ _ (wf_lists _ _ _ _ Hcore)) as HL.
  destruct (lookup_lt_is_Some_2 ls 0 ltac:(lia)) as [l0 Hl0].
  destruct (list_pending_spec BUCKETSIZE e ls sk [] l0 Hwf Hl0)
    as (a0 & l0' & pending & -> & Ha0 & Hpend & _ & Htrue).
  destruct (list_primes_view e ls sk [] 0 _ Hcore Hl0) as [Heq _].
  rewrite Hnone in Heq.
  destruct pending; [by destruct (Htrue eq_refl)|].
  unfold crossOff. simpl. rewrite Hpend. simpl.
  destruct (lists_ e) as [|p0 rest] eqn:Hlists; [simpl in Hlen; lia|].
  rewrite (rotate_eq e p0 rest Hlists). simpl. by rewrite drop_0.
Qed.

(** X4. [crossOff(sieve)] clears bits and sets none, in every state the
    object can be in: when it returns, the sieve array has the size it
    had, every byte has its bits among those it had, and the bytes
    behind index [moduloSieveSize_] are as they were. *)
Theorem crossOff_only_clears (e e' : EratBig) (sieve sieve' : sieve_t) (fuel : nat) :
  reachable WHEEL getMaxFactor BUCKETSIZE BUCKETS_PER_ALLOC e ->
  crossOff WHEEL BUCKETSIZE BUCKETS_PER_ALLOC fuel (e, sieve) = Ok (e', sieve') ->
  length sieve' = length sieve /\
  (forall i b b', sieve !! i = Some b -> sieve' !! i = Some b' ->
     Z.land b' b = b' /\
     forall n, Z.testbit b' n = true -> Z.testbit b n = true) /\
  (forall i, (moduloSieveSize_ e < Z.of_nat i)%Z -> sieve' !! i = sieve !! i).
Proof.
  intros Hreach Hrun.
  destruct (reachable_offsets WHEEL getMaxFactor BUCKETSIZE BUCKETS_PER_ALLOC
              BUCKETS_PER_ALLOC_pos BUCKETSIZE_pos e Hreach) as (ls & sk & Hwf & HM & Hok).
  destruct (crossOff_wf WHEEL BUCKETSIZE BUCKETS_PER_ALLOC BUCKETS_PER_ALLOC_pos
              fuel e e' sieve sieve' ls sk Hwf Hrun)
    as (mid & lsm & skm & a & rest & ls' & sk' & _ & _ & Hsteps & _).
  destruct (wheel_steps_facts _ _ _ _ _ Hsteps) as (_ & [Hlen Hc] & _ & _ & Ho).
  destruct (Ho HM Hok) as [_ Hframe]. simpl in *.
  split; [done|]. split; [|done].
  intros i b b' Hb Hb'. pose proof (Hc i b b' Hb Hb') as Hland. split; [done|].
  intros n Hn. rewrite <- Hland, Z.land_spec in Hn. by apply andb_true_iff in Hn as [_ ?].
Qed.

(** X5. [crossOff(sieve)] crosses off the multiple of every sieving
    prime that [lists_[0]] holds at the call, in every state the object
    can be in: when it returns, for each such triple
    [(sievingPrime, multipleIndex, wheelIndex)] the index
    [multipleIndex] is inside the sieve array and the bits of the
    wheel's mask of [wheelIndex] are clear in [sieve[multipleIndex]]. *)
Theorem crossOff_clears_current (e e' : EratBig) (sieve sieve' : sieve_t) (fuel : nat)
    (t : WheelPrime) :
  reachable WHEEL getMaxFactor BUCKETSIZE BUCKETS_PER_ALLOC e ->
  crossOff WHEEL BUCKETSIZE BUCKETS_PER_ALLOC fuel (e, sieve) = Ok (e', sieve') ->
  t ∈ list_primes e 0 ->
  Z.to_nat (getMultipleIndex t) < length sieve /\
  exists b',
    sieve' !! Z.to_nat (getMultipleIndex t) = Some b' /\
    Z.land b' (unsetBit_ (WHEEL (getWheelIndex t))) = 0%Z.
Proof.
  intros Hreach Hrun Ht.
  destruct (reachable_wf WHEEL getMaxFactor BUCKETSIZE BUCKETS_PER_ALLOC
              BUCKETS_PER_ALLOC_pos BUCKETSIZE_pos e Hreach) as (ls & sk & Hwf & _).
  pose proof (wf_wf_core _ _ _ _ _ Hwf) as Hcore.
  pose proof (Forall2_length _ _ _ (wf_lists _ _ _ _ Hcore)) as HL.
  destruct (crossOff_wf WHEEL BUCKETSIZE BUCKETS_PER_ALLOC BUCKETS_PER_ALLOC_pos
              fuel e e' sieve sieve' ls sk Hwf Hrun)
    as (mid & lsm & skm & a & rest & ls' & sk' & _ & _ & Hsteps & -> & _ & Hb & _).
  assert (Hj : 0 < length ls).
  { destruct (decide (0 < length ls)); [done|].
    rewrite list_primes_out in Ht by lia. by apply elem_of_nil in Ht. }
  destruct (list_primes_elem e ls sk [] 0 t Hcore Hj) as (X0 & HX0 & Hiff).
  assert (Hempty : primes_view mid ([a] :: rest) !! 0 = Some ∅).
  { simpl. unfold primes_of, bucket_at. simpl. by rewrite Hb. }
  destruct (wheel_steps_cleared _ _ _ _ _ Hsteps X0 t HX0 (proj1 Hiff Ht) Hempty)
    as (b' & Hb' & Hclear).
  destruct (wheel_steps_facts _ _ _ _ _ Hsteps) as (_ & [Hlen _] & _).
  simpl in *. split; [|by exists b'].
  rewrite <- Hlen. eapply lookup_lt_Some; eassumption.
Qed.

(** X6. [crossOff(sieve)] brings every list one segment nearer, in
    every state the object can be in: when it returns, a triple that
    [lists_[j+1]] held at the call is held by [lists_[j]], as it
    was. *)
Theorem crossOff_lists_move_down (e e' : EratBig) (sieve sieve' : sieve_t) (fuel : nat)
    (j : nat) (t : WheelPrime) :
  reachable WHEEL getMaxFactor BUCKETSIZE BUCKETS_PER_ALLOC e ->
  crossOff WHEEL BUCKETSIZE BUCKETS_PER_ALLOC fuel (e, sieve) = Ok (e', sieve') ->
  t ∈ list_primes e (S j) ->
  t ∈ list_primes e' j.
Proof.
  intros Hreach Hrun Ht.
  destruct (reachable_wf WHEEL getMaxFactor BUCKETSIZE BUCKETS_PER_ALLOC
              BUCKETS_PER_ALLOC_pos BUCKETSIZE_pos e Hreach) as (ls & sk & Hwf & _).
  pose proof (wf_wf_core _ _ _ _ _ Hwf) as Hcore.
  pose proof (Forall2_length _ _ _ (wf_lists _ _ _ _ Hcore)) as HL.
  destruct (crossOff_wf WHEEL BUCKETSIZE BUCKETS_PER_ALLOC BUCKETS_PER_ALLOC_pos
              fuel e e' sieve sieve' ls sk Hwf Hrun)
    as (mid & lsm & skm & a & rest & ls' & sk' & _ & Hwfm & Hsteps & -> & _ & _ & _
        & -> & Hwf' & Hv & _).
  assert (Hj : S j < length ls).
  { destruct (decide (S j < length ls)); [done|].
    rewrite list_primes_out in Ht by lia. by apply elem_of_nil in Ht. }
  destruct (list_primes_elem e ls sk [] (S j) t Hcore Hj) as (X & HX & Hiff).
  destruct (wheel_steps_facts _ _ _ _ _ Hsteps) as (Hlen & _ & Hgrow & _).
  simpl in Hlen, Hgrow.
  destruct (Hgrow (S j) X ltac:(lia) HX) as (Y & HY & HXY).
  pose proof (wf_wf_core _ _ _ _ _ Hwf') as Hcore'.
  unfold primes_view in Hlen. rewrite !length_fmap in Hlen. simpl in Hlen.
  assert (Hj' : j < length (rest ++ [[a]])) by (rewrite length_app; simpl; lia).
  destruct (list_primes_elem e' _ sk' [] j t Hcore' Hj') as (Z' & HZ' & Hiff').
  apply Hiff'. rewrite Hv in HZ'.
  rewrite lookup_app_l in HZ'.
  2: { rewrite length_drop. unfold primes_view. rewrite length_fmap. simpl. lia. }
  rewrite lookup_drop in HZ'. simpl in HZ', HY. rewrite HY in HZ'. simplify_eq.
  apply Hiff in Ht. multiset_solver.
Qed.

(** X7. No sieving prime is lost or made twice, in every state the
    object can be in: a [crossOff] that returns leaves in the buckets
    the sieving primes they held, each as often as before, and a
    [storeSievingPrime] that returns adds its [sievingPrime] once. *)
Theorem sieving_primes_kept (e : EratBig) :
  reachable WHEEL getMaxFactor BUCKETSIZE BUCKETS_PER_ALLOC e ->
  (forall fuel sieve e' sieve',
     crossOff WHEEL BUCKETSIZE BUCKETS_PER_ALLOC fuel (e, sieve) = Ok (e', sieve') ->
     getSievingPrime <$> stored_primes e' ≡ₚ getSievingPrime <$> stored_primes e) /\
  (forall sievingPrime multipleIndex wheelIndex e',
     storeSievingPrime BUCKETSIZE BUCKETS_PER_ALLOC sievingPrime multipleIndex wheelIndex e
       = Ok e' ->
     getSievingPrime <$> stored_primes e'
     ≡ₚ sievingPrime :: (getSievingPrime <$> stored_primes e)).
Proof.
  intros Hreach.
  destruct (reachable_wf WHEEL getMaxFactor BUCKETSIZE BUCKETS_PER_ALLOC
              BUCKETS_PER_ALLOC_pos BUCKETSIZE_pos e Hreach) as (ls & sk & Hwf & _).
  pose proof (wf_wf_core _ _ _ _ _ Hwf) as Hcore.
  split.
  - intros fuel sieve e' sieve' Hrun.
    destruct (crossOff_wf WHEEL BUCKETSIZE BUCKETS_PER_ALLOC BUCKETS_PER_ALLOC_pos
                fuel e e' sieve sieve' ls sk Hwf Hrun)
      as (mid & lsm & skm & a & rest & ls' & sk' & _ & _ & Hsteps & _ & _ & _ & _
          & _ & Hwf' & Hv & _).
    apply list_to_set_disj_perm_inv.
    rewrite (stored_primes_view e ls sk Hcore).
    rewrite (stored_primes_view e' ls' sk' (wf_wf_core _ _ _ _ _ Hwf')), Hv.
    destruct (wheel_steps_facts _ _ _ _ _ Hsteps) as (_ & _ & _ & Hvp & _).
    simpl in Hvp. rewrite <- Hvp. apply view_primes_perm.
    rewrite <- (take_drop 1 (primes_view mid lsm)) at 3. apply Permutation_app_comm.
  - intros p m w e' Hst.
    destruct (storeSievingPrime_wf BUCKETSIZE BUCKETS_PER_ALLOC BUCKETS_PER_ALLOC_pos
                p m w e e' ls sk Hwf Hst) as (ls' & sk' & Hwf' & Hv & _).
    apply list_to_set_disj_perm_inv.
    rewrite list_to_set_disj_cons, (stored_primes_view e ls sk Hcore).
    rewrite (stored_primes_view e' ls' sk' (wf_wf_core _ _ _ _ _ Hwf')), Hv.
    apply view_primes_alter_add. unfold primes_view. rewrite length_fmap.
    eapply storeOrPush_Ok_inv; eassumption.
Qed.

(** X8. In every state the object can be in, the multiple index of
    every sieving prime in a bucket is at least 0 and at most
    [moduloSieveSize_]: [storeSievingPrime] and [crossOff(Bucket&,
    sieve)] only store what [& moduloSieveSize_] has cut down. *)
Theorem stored_offsets_in_segment (e : EratBig) (a : addr) (b : Bucket) (t : WheelPrime) :
  reachable WHEEL getMaxFactor BUCKETSIZE BUCKETS_PER_ALLOC e ->
  heap e !! a = Some b ->
  t ∈ wheelPrimes_ b ->
  (0 <= getMultipleIndex t <= moduloSieveSize_ e)%Z.
Proof.
  intros Hreach Hb Ht.
  destruct (reachable_offsets WHEEL getMaxFactor BUCKETSIZE BUCKETS_PER_ALLOC
              BUCKETS_PER_ALLOC_pos BUCKETSIZE_pos e Hreach) as (ls & sk & Hwf & HM & Hok).
  destruct (stored_in_view e ls sk a b t (wf_wf_core _ _ _ _ _ Hwf) Hb Ht)
    as (j & X & Hj & HX).
  eapply Hok; eassumption.
Qed.

End MoreCalls.

(** ** The slabs of the constructor *)

Lemma join_singletons_length (ls : list (list addr)) :
  (forall j l, ls !! j = Some l -> exists a, l = [a]) ->
  length (mjoin ls) = length ls.
Proof.
  induction ls as [|l ls IH]; intros Hshape; [done|].
  destruct (Hshape 0 l eq_refl) as [a ->]. simpl. f_equal.
  apply IH. intros j l' Hj. exact (Hshape (S j) l' Hj).
Qed.

Section ConstructorSlabs.

Variable getMaxFactor : Z.
Variable BUCKETS_PER_ALLOC : nat.
Hypothesis BUCKETS_PER_ALLOC_pos : 0 < BUCKETS_PER_ALLOC.

(** [init] takes a new slab only when the stock is empty. *)
Lemma init_from_stock (n i : nat) (e : EratBig) ls sk :
  wf_core e ls sk [] ->
  length ls = i + n ->
  length sk < BUCKETS_PER_ALLOC ->
  exists e' ls' sk',
    init_from BUCKETS_PER_ALLOC n (Z.of_nat i) e = Ok e' /\
    wf_core e' ls' sk' [] /\
    length sk' < BUCKETS_PER_ALLOC.
Proof.
  revert i e ls sk. induction n as [|n IH]; intros i e ls sk Hcore Hlen Hsk.
  - by exists e, ls, sk.
  - destruct (lookup_lt_is_Some_2 ls (Z.to_nat (Z.of_nat i)) ltac:(lia)) as [l Hl].
    destruct (pushBucket_spec BUCKETS_PER_ALLOC BUCKETS_PER_ALLOC_pos e ls sk [] _ l Hcore Hl)
      as (e1 & a' & sk1 & Hpush & Hcore1 & Hcase & _).
    destruct (IH (S i) e1 _ sk1 Hcore1) as (e' & ls' & sk' & Hinit & Hcore' & Hsk').
    + rewrite length_insert. lia.
    + destruct Hcase as [(-> & _)|(_ & Hseq & _)]; [simpl in Hsk; lia|].
      apply (f_equal length) in Hseq. rewrite length_seq in Hseq. simpl in Hseq. lia.
    + exists e', ls', sk'. cbn [init_from]. rewrite Hpush. cbn [mbind result_bind].
      rewrite Nat2Z.inj_succ, <- Z.add_1_r in Hinit. done.
Qed.

(** X9. The constructor takes no more slabs than it needs: the object
    it returns has [ceil (lists_.size() / BUCKETS_PER_ALLOC)] slabs of
    [BUCKETS_PER_ALLOC] buckets, one bucket for every entry of [lists_]
    and fewer than [BUCKETS_PER_ALLOC] left in the stock, and no bucket
    holds a sieving prime. *)
Theorem EratBig_new_slabs (soe : SieveOfEratosthenes) (e : EratBig) :
  EratBig_new getMaxFactor BUCKETS_PER_ALLOC soe = Constructed e ->
  length (heap e) = length (pointers_ e) * BUCKETS_PER_ALLOC /\
  length (lists_ e) <= length (heap e) < length (lists_ e) + BUCKETS_PER_ALLOC /\
  length (pointers_ e)
  = (length (lists_ e) + BUCKETS_PER_ALLOC - 1) / BUCKETS_PER_ALLOC /\
  stored_primes e = [].
Proof.
  intros Hnew.
  destruct (EratBig_new_wf getMaxFactor 1 BUCKETS_PER_ALLOC BUCKETS_PER_ALLOC_pos
              Nat.lt_0_1 soe e Hnew)
    as (ls & sk & Hwf & [_ Hheap] & Hempty & Hshape & _).
  pose proof (wf_wf_core _ _ _ _ _ Hwf) as Hcore.
  assert (Hsk : length sk < BUCKETS_PER_ALLOC).
  { revert Hnew. unfold EratBig_new. cbv zeta.
    destruct (isPowerOf2 (getSieveSize soe)); cbn [negb]; [|done].
    unfold setListsSize, init. simpl.
    set (n := Z.to_nat (listsSize getMaxFactor (ilog2 (getSieveSize soe)) soe)).
    rewrite take_nil, Nat.sub_0_r. simpl app. rewrite length_replicate.
    pose proof (wf_core_start n (ilog2 (getSieveSize soe)) (wrap (getSieveSize soe - 1)))
      as Hcore0.
    destruct (init_from_stock n 0 _ (replicate n []) [] Hcore0)
      as (e' & ls' & sk' & Hinit & Hcore' & Hsk').
    { by rewrite length_replicate. }
    { simpl. lia. }
    change (Z.of_nat 0) with 0%Z in Hinit. rewrite Hinit. intros [= <-].
    by rewrite (is_chain_det _ _ _ _ (wf_stock _ _ _ _ Hcore) (wf_stock _ _ _ _ Hcore')). }
  pose proof (Permutation_length (heap_partition e ls sk Hcore)) as Hcount.
  rewrite length_seq, length_app, (join_singletons_length ls Hshape) in Hcount.
  pose proof (Forall2_length _ _ _ (wf_lists _ _ _ _ Hcore)) as HL.
  split; [done|]. split; [lia|]. split.
  - apply Nat.div_unique
      with (r := length (lists_ e) + BUCKETS_PER_ALLOC - 1
                 - length (pointers_ e) * BUCKETS_PER_ALLOC); lia.
  - unfold stored_primes. rewrite buckets_by_address.
    apply empty_buckets_join, Forall_forall. intros a _. apply Hempty.
Qed.

End ConstructorSlabs.

Section MoreSteps.

Variable WHEEL : Z -> WheelElement.
Variable getMaxFactor : Z.
Variable BUCKETSIZE : nat.
Variable BUCKETS_PER_ALLOC : nat.
Hypothesis BUCKETS_PER_ALLOC_pos : 0 < BUCKETS_PER_ALLOC.
Hypothesis BUCKETSIZE_pos : 0 < BUCKETSIZE.

(** X10. [crossOff(sieve)] moves every sieving prime of [lists_[0]] on
    to the segment of its next multiple, in every state the object can
    be in. When it returns, for a triple that [lists_[0]] held at the
    call and whose wheel step leads [k > 0] segments ahead: [k] is an
    index of [lists_], and the list that was [lists_[k]] at the call,
    [lists_[k-1]] now, holds the sieving prime with its next multiple
    index [& moduloSieveSize_] and its next wheel index. *)
Theorem crossOff_routes (e e' : EratBig) (sieve sieve' : sieve_t) (fuel : nat)
    (t : WheelPrime) :
  reachable WHEEL getMaxFactor BUCKETSIZE BUCKETS_PER_ALLOC e ->
  crossOff WHEEL BUCKETSIZE BUCKETS_PER_ALLOC fuel (e, sieve) = Ok (e', sieve') ->
  t ∈ list_primes e 0 ->
  0 < target WHEEL (log2SieveSize_ e) t ->
  target WHEEL (log2SieveSize_ e) t < length (lists_ e) /\
  moved WHEEL (moduloSieveSize_ e) t
    ∈ list_primes e' (target WHEEL (log2SieveSize_ e) t - 1).
Proof.
  intros Hreach Hrun Ht Htg.
  destruct (reachable_wf WHEEL getMaxFactor BUCKETSIZE BUCKETS_PER_ALLOC
              BUCKETS_PER_ALLOC_pos BUCKETSIZE_pos e Hreach) as (ls & sk & Hwf & _).
  pose proof (wf_wf_core _ _ _ _ _ Hwf) as Hcore.
  pose proof (Forall2_length _ _ _ (wf_lists _ _ _ _ Hcore)) as HL.
  destruct (crossOff_wf WHEEL BUCKETSIZE BUCKETS_PER_ALLOC BUCKETS_PER_ALLOC_pos
              fuel e e' sieve sieve' ls sk Hwf Hrun)
    as (mid & lsm & skm & a & rest & ls' & sk' & _ & Hwfm & Hsteps & -> & _ & Hb & _
        & -> & Hwf' & Hv & _).
  assert (Hj : 0 < length ls).
  { destruct (decide (0 < length ls)); [done|].
    rewrite list_primes_out in Ht by lia. by apply elem_of_nil in Ht. }
  destruct (list_primes_elem e ls sk [] 0 t Hcore Hj) as (X0 & HX0 & Hiff).
  assert (Hempty : primes_view mid ([a] :: rest) !! 0 = Some ∅).
  { simpl. unfold primes_of, bucket_at. simpl. by rewrite Hb. }
  destruct (wheel_steps_routed _ _ _ _ _ Hsteps X0 t HX0 (proj1 Hiff Ht) Hempty Htg)
    as (Hlt & Y & HY & HYt).
  cbn [fst snd] in Hlt, HY. unfold primes_view in Hlt. rewrite length_fmap in Hlt.
  split; [lia|].
  destruct (wheel_steps_facts _ _ _ _ _ Hsteps) as (Hlen & _).
  simpl in Hlen. unfold primes_view in Hlen. rewrite !length_fmap in Hlen. simpl in Hlen.
  pose proof (wf_wf_core _ _ _ _ _ Hwf') as Hcore'.
  set (k := target WHEEL (log2SieveSize_ e) t) in *.
  assert (Hk' : k - 1 < length (rest ++ [[a]])) by (rewrite length_app; simpl; lia).
  destruct (list_primes_elem e' _ sk' [] (k - 1) (moved WHEEL (moduloSieveSize_ e) t)
              Hcore' Hk') as (Z' & HZ' & Hiff').
  apply Hiff'. rewrite Hv in HZ'.
  rewrite lookup_app_l in HZ'.
  2: { rewrite length_drop. unfold primes_view. rewrite length_fmap. simpl. lia. }
  rewrite lookup_drop in HZ'. replace (1 + (k - 1)) with k in HZ' by lia.
  rewrite HY in HZ'. by simplify_eq.
Qed.

(** X11. A sieving prime that [storeSievingPrime] has put into list 0
    is crossed off by the next [crossOff], in every state the object
    can be in: when [multipleIndex >> log2SieveSize_] is 0 and both
    calls return, the bits of the wheel's mask of [wheelIndex] are
    clear in [sieve[multipleIndex & moduloSieveSize_]]. *)
Theorem store_then_crossOff (e e1 e2 : EratBig) (sievingPrime multipleIndex wheelIndex : Z)
    (sieve sieve' : sieve_t) (fuel : nat) :
  reachable WHEEL getMaxFactor BUCKETSIZE BUCKETS_PER_ALLOC e ->
  Z.to_nat (Z.shiftr multipleIndex (log2SieveSize_ e)) = 0 ->
  storeSievingPrime BUCKETSIZE BUCKETS_PER_ALLOC sievingPrime multipleIndex wheelIndex e
    = Ok e1 ->
  crossOff WHEEL BUCKETSIZE BUCKETS_PER_ALLOC fuel (e1, sieve) = Ok (e2, sieve') ->
  exists b',
    sieve' !! Z.to_nat (Z.land multipleIndex (moduloSieveSize_ e)) = Some b' /\
    Z.land b' (unsetBit_ (WHEEL wheelIndex)) = 0%Z.
Proof.
  intros Hreach Hseg Hst Hrun.
  destruct (reachable_wf WHEEL getMaxFactor BUCKETSIZE BUCKETS_PER_ALLOC
              BUCKETS_PER_ALLOC_pos BUCKETSIZE_pos e Hreach) as (ls & sk & Hwf & _).
  destruct (storeSievingPrime_wf BUCKETSIZE BUCKETS_PER_ALLOC BUCKETS_PER_ALLOC_pos
              _ _ _ _ _ _ _ Hwf Hst) as (ls1 & sk1 & Hwf1 & Hv & _).
  pose proof (storeOrPush_Ok_inv BUCKETSIZE BUCKETS_PER_ALLOC _ _ _ _ _ _ _ Hwf Hst) as Hlt.
  rewrite Hseg in Hv, Hlt.
  destruct (crossOff_wf WHEEL BUCKETSIZE BUCKETS_PER_ALLOC BUCKETS_PER_ALLOC_pos
              fuel e1 e2 sieve sieve' ls1 sk1 Hwf1 Hrun)
    as (mid & lsm & skm & a & rest & ls' & sk' & _ & _ & Hsteps & -> & _ & Hb & _).
  assert (Hempty : primes_view mid ([a] :: rest) !! 0 = Some ∅).
  { simpl. unfold primes_of, bucket_at. simpl. by rewrite Hb. }
  set (t := mkWheelPrime sievingPrime (Z.land multipleIndex (moduloSieveSize_ e)) wheelIndex)
    in *.
  destruct (lookup_lt_is_Some_2 (primes_view e ls) 0) as [X HX].
  { unfold primes_view. by rewrite length_fmap. }
  assert (HX1 : primes_view e1 ls1 !! 0 = Some ({[+ t +]} ⊎ X)).
  { rewrite Hv, list_lookup_alter_eq, HX. done. }
  destruct (wheel_steps_cleared _ _ _ _ _ Hsteps _ t HX1 ltac:(multiset_solver) Hempty)
    as (b' & Hb' & Hclear).
  by exists b'.
Qed.

(** X12. [setListsSize] makes [lists_] long enough for the sieve
    driver: with a wheel table whose factors are positive and at most
    [getMaxFactor()], every sieving prime in a bucket is at least 1 and
    at most [sqrtStop / 30], its wheel index is one of the table, and
    the segment of its next multiple is an index of [lists_]. *)
Theorem horizon_suffices (wheel_size : Z) (soe : SieveOfEratosthenes) (e : EratBig)
    (a : addr) (b : Bucket) (t : WheelPrime) :
  wheel_ok WHEEL wheel_size getMaxFactor ->
  sieving WHEEL getMaxFactor BUCKETSIZE BUCKETS_PER_ALLOC wheel_size soe e ->
  heap e !! a = Some b ->
  t ∈ wheelPrimes_ b ->
  (1 <= getSievingPrime t <= getSqrtStop soe / 30)%Z /\
  (0 <= getWheelIndex t < wheel_size)%Z /\
  Z.to_nat (Z.shiftr (next_multiple WHEEL t) (log2SieveSize_ e)) < length (lists_ e).
Proof.
  intros Hwheel Hsieving Hb Ht.
  destruct (sieving_inv WHEEL getMaxFactor BUCKETSIZE BUCKETS_PER_ALLOC wheel_size
              BUCKETS_PER_ALLOC_pos BUCKETSIZE_pos Hwheel soe e Hsieving)
    as (ls & sk & Hwf & Hsized & Hall).
  destruct (stored_in_view e ls sk a b t (wf_wf_core _ _ _ _ _ Hwf) Hb Ht)
    as (j & X & Hj & HX).
  pose proof (Hall j X t Hj HX) as Hok.
  split; [apply Hok|]. split; [apply Hok|].
  rewrite (sized_mod _ _ _ _ Hsized) in Hok.
  pose proof (sized_fits _ _ _ _ Hsized) as Hfits.
  pose proof (sized_horizon _ _ _ _ Hsized) as Hhor.
  rewrite (sized_mod _ _ _ _ Hsized) in Hfits, Hhor.
  destruct (prime_ok_safe WHEEL wheel_size getMaxFactor (getSqrtStop soe / 30)
              (log2SieveSize_ e) Hwheel (sized_log _ _ _ _ Hsized) Hfits
              (length (lists_ e)) (Z.to_nat (getSieveSize soe)) t Hok
              (sized_sieve _ _ _ _ Hsized) Hhor) as [_ Htarget].
  exact Htarget.
Qed.

End MoreSteps.

(** ** The small instance again *)

Lemma small_far_reachable : reachable small_wheel 2 2 3 small_far.
Proof.
  apply (reachable_store _ _ _ _ small_new 1 9 0); [|reflexivity].
  apply small_new_reachable.
Qed.

Lemma storeSievingPrime_returns_iff_small :
  reachable small_wheel 2 2 3 small_new /\
  storeSievingPrime 2 3 1 100 0 small_new = Err BadIndex /\
  exists e', storeSievingPrime 2 3 1 9 0 small_new = Ok e'.
Proof.
  split; [exact small_new_reachable|].
  destruct (storeSievingPrime_returns_iff small_wheel 2 2 3 ltac:(lia) ltac:(lia)
              small_new 1 100 0 small_new_reachable) as [_ Hout].
  destruct (storeSievingPrime_returns_iff small_wheel 2 2 3 ltac:(lia) ltac:(lia)
              small_new 1 9 0 small_new_reachable) as [Hin _].
  split; [apply Hout; vm_compute; lia|apply Hin; vm_compute; lia].
Defined.

Lemma pushBucket_links_small :
  reachable small_wheel 2 2 3 small_two /\
  exists e' a',
    pushBucket 3 1 small_two = Ok e' /\
    lists_ e' = <[1 := Some a']> (lists_ small_two) /\
    heap e' !! a' = Some (mkBucket [] (Some 1)).
Proof.
  split; [exact small_two_reachable|].
  destruct (pushBucket_links small_wheel 2 2 3 ltac:(lia) ltac:(lia) small_two 1
              small_two_reachable ltac:(vm_compute; lia))
    as (e' & a' & Hpush & Hlists & Hhead & _).
  exists e', a'. split; [exact Hpush|]. split; [exact Hlists|exact Hhead].
Defined.

Lemma crossOff_idle_small :
  reachable small_wheel 2 2 3 small_far /\
  list_primes small_far 0 = [] /\
  crossOff small_wheel 2 3 1 (small_far, small_sieve)
  = Ok (set_lists [Some 1; Some 0] small_far, small_sieve).
Proof.
  split; [exact small_far_reachable|]. split; [reflexivity|].
  exact (crossOff_idle small_wheel 2 2 3 ltac:(lia) ltac:(lia) small_far small_sieve 0
           small_far_reachable ltac:(vm_compute; lia) ltac:(reflexivity)).
Defined.

Lemma crossOff_only_clears_small :
  reachable small_wheel 2 2 3 small_two /\
  length small_crossed.2 = length small_sieve /\
  forall i, (7 < Z.of_nat i)%Z -> small_crossed.2 !! i = small_sieve !! i.
Proof.
  split; [exact small_two_reachable|].
  destruct (crossOff_only_clears small_wheel 2 2 3 ltac:(lia) ltac:(lia)
              small_two small_crossed.1 small_sieve small_crossed.2 10
              small_two_reachable ltac:(reflexivity)) as (Hlen & _ & Hframe).
  split; [exact Hlen|exact Hframe].
Defined.

Lemma crossOff_clears_current_small :
  reachable small_wheel 2 2 3 small_two /\
  mkWheelPrime 2 5 1 ∈ list_primes small_two 0 /\
  exists b', small_crossed.2 !! 5 = Some b' /\ Z.land b' 2 = 0%Z.
Proof.
  assert (Hin : mkWheelPrime 2 5 1 ∈ list_primes small_two 0).
  { apply (list_elem_of_lookup_2 _ 1). reflexivity. }
  split; [exact small_two_reachable|]. split; [exact Hin|].
  exact (proj2 (crossOff_clears_current small_wheel 2 2 3 ltac:(lia) ltac:(lia)
                  small_two small_crossed.1 small_sieve small_crossed.2 10
                  (mkWheelPrime 2 5 1) small_two_reachable ltac:(reflexivity) Hin)).
Defined.

Lemma crossOff_lists_move_down_small :
  reachable small_wheel 2 2 3 small_far /\
  mkWheelPrime 1 1 0 ∈ list_primes small_far 1 /\
  mkWheelPrime 1 1 0 ∈ list_primes (set_lists [Some 1; Some 0] small_far) 0.
Proof.
  assert (Hin : mkWheelPrime 1 1 0 ∈ list_primes small_far 1).
  { apply (list_elem_of_lookup_2 _ 0). reflexivity. }
  split; [exact small_far_reachable|]. split; [exact Hin|].
  exact (crossOff_lists_move_down small_wheel 2 2 3 ltac:(lia) ltac:(lia)
           small_far (set_lists [Some 1; Some 0] small_far) small_sieve small_sieve 1
           0 (mkWheelPrime 1 1 0) small_far_reachable ltac:(reflexivity) Hin).
Defined.

Lemma sieving_primes_kept_small :
  reachable small_wheel 2 2 3 small_two /\
  getSievingPrime <$> stored_primes small_crossed.1
    ≡ₚ getSievingPrime <$> stored_primes small_two.
Proof.
  split; [exact small_two_reachable|].
  exact (proj1 (sieving_primes_kept small_wheel 2 2 3 ltac:(lia) ltac:(lia)
                  small_two small_two_reachable)
               10 small_sieve small_crossed.1 small_crossed.2 ltac:(reflexivity)).
Defined.

Lemma stored_offsets_in_segment_small :
  reachable small_wheel 2 2 3 small_crossed.1 /\
  (0 <= getMultipleIndex (mkWheelPrime 2 2 2) <= moduloSieveSize_ small_crossed.1)%Z.
Proof.
  split; [exact small_crossed_reachable|].
  apply (stored_offsets_in_segment small_wheel 2 2 3 ltac:(lia) ltac:(lia)
           small_crossed.1 1 (mkBucket [mkWheelPrime 2 2 2; mkWheelPrime 1 2 0] None)
           (mkWheelPrime 2 2 2) small_crossed_reachable ltac:(reflexivity)).
  apply (list_elem_of_lookup_2 _ 0). reflexivity.
Defined.

Lemma EratBig_new_slabs_small :
  EratBig_new 2 3 small_soe = Constructed small_new /\
  length (pointers_ small_new) = (length (lists_ small_new) + 3 - 1) / 3 /\
  stored_primes small_new = [].
Proof.
  split; [reflexivity|].
  destruct (EratBig_new_slabs 2 3 ltac:(lia) small_soe small_new ltac:(reflexivity))
    as (_ & _ & Hslabs & Hnone).
  split; [exact Hslabs|exact Hnone].
Defined.

Lemma crossOff_routes_small :
  reachable small_wheel 2 2 3 small_two /\
  mkWheelPrime 2 5 1 ∈ list_primes small_two 0 /\
  mkWheelPrime 2 2 2 ∈ list_primes small_crossed.1 0.
Proof.
  assert (Hin : mkWheelPrime 2 5 1 ∈ list_primes small_two 0).
  { apply (list_elem_of_lookup_2 _ 1). reflexivity. }
  split; [exact small_two_reachable|]. split; [exact Hin|].
  exact (proj2 (crossOff_routes small_wheel 2 2 3 ltac:(lia) ltac:(lia)
                  small_two small_crossed.1 small_sieve small_crossed.2 10
                  (mkWheelPrime 2 5 1) small_two_reachable ltac:(reflexivity) Hin
                  ltac:(vm_compute; lia))).
Defined.

Lemma store_then_crossOff_small :
  storeSievingPrime 2 3 2 5 1 small_one = Ok small_two /\
  exists b', small_crossed.2 !! 5 = Some b' /\ Z.land b' 2 = 0%Z.
Proof.
  split; [reflexivity|].
  assert (Hr : reachable small_wheel 2 2 3 small_one).
  { apply (reachable_store _ _ _ _ small_new 1 0 0); [|reflexivity].
    apply small_new_reachable. }
  exact (store_then_crossOff small_wheel 2 2 3 ltac:(lia) ltac:(lia)
           small_one small_two small_crossed.1 2 5 1 small_sieve small_crossed.2 10
           Hr ltac:(reflexivity) ltac:(reflexivity) ltac:(reflexivity)).
Defined.

Lemma horizon_suffices_small :
  wheel_ok small_wheel 4 2 /\
  sieving small_wheel 2 2 3 4 small_soe small_two /\
  Z.to_nat (Z.shiftr (next_multiple small_wheel (mkWheelPrime 2 5 1))
                     (log2SieveSize_ small_two)) < length (lists_ small_two).
Proof.
  split; [exact small_wheel_ok|]. split; [exact small_two_sieving|].
  refine (proj2 (proj2 (horizon_suffices small_wheel 2 2 3 ltac:(lia) ltac:(lia)
            4 small_soe small_two 0
            (mkBucket [mkWheelPrime 1 0 0; mkWheelPrime 2 5 1] None)
            (mkWheelPrime 2 5 1) small_wheel_ok small_two_sieving ltac:(reflexivity) _))).
  apply (list_elem_of_lookup_2 _ 1). reflexivity.
Defined.

(** * The rotation of [lists_], against the state at the call *)

Section Rotation.

Variable WHEEL : Z -> WheelElement.
Variable getMaxFactor : Z.
Variable BUCKETSIZE : nat.
Variable BUCKETS_PER_ALLOC : nat.
Hypothesis BUCKETS_PER_ALLOC_pos : 0 < BUCKETS_PER_ALLOC.
Hypothesis BUCKETSIZE_pos : 0 < BUCKETSIZE.


End Rotation.


